(** * Elo rating engine of the scrim bot: processMatch and the polling cycle

    A shallow embedding of [EloService] (elo.service.ts), of the polling
    loop of index.ts and of the tables of the Elo migration, with the
    properties of the rating engine proved about it.

    Conventions of the embedding.
    - JavaScript numbers that hold SQL INTEGER columns are [Z].  The
      floating point arithmetic of [calculateNewRating] is idealised as
      arithmetic on real numbers ([Rpower] for Math.pow, floor (x + 1/2)
      for Math.round).
    - An async method is a command tree ([Prog]): every [await] on the
      connection pool or on the connection is a [Call] node whose
      continuation receives either the rows or the rejection.  The same
      tree is run sequentially against a store with injected failures
      ([run]), sequentially on the connection pool ([prun]) and
      interleaved with other trees ([cstep]).
    - [run] gives every getClient a connection without open transaction
      and lets a released connection take part no further.  [prun] keeps
      the pool: a released connection is handed out again as it was
      released, an open transaction included.  The two agree as long as
      the connections of the pool carry no open transaction
      ([run_prun_processMatch], [run_prun_pollCycle]); what a transaction
      left open does to later calls is stated on [prun].
    - Surrogate keys (SERIAL id columns) and timestamps are not modelled. *)

From Stdlib Require Import ZArith QArith Qreals Reals Lra Lia List String Bool.
From stdpp Require Import base option list gmap.

Close Scope Q_scope.
Close Scope R_scope.
Local Open Scope Z_scope.

(* ================================================================== *)
(** ** Rows and tables *)

(** league VARCHAR(50) CHECK (league IN ('Academy', 'Champion', 'Master')) *)
Inductive League := Academy | Champion | Master.

#[global] Instance League_eq_dec : EqDecision League.
Proof. solve_decision. Defined.

Definition League_to_nat (l : League) : nat :=
  match l with Academy => 0%nat | Champion => 1%nat | Master => 2%nat end.

Definition League_of_nat (n : nat) : League :=
  match n with 0%nat => Academy | 1%nat => Champion | _ => Master end.

#[global] Instance League_countable : Countable League.
Proof.
  apply (inj_countable' League_to_nat League_of_nat).
  intros []; reflexivity.
Defined.

(** A row of [scrims], with the columns the rating engine reads. *)
Module Scrim.
Record t := mk {
  id : Z;
  status : string;
  league : League;
  winner_team : option Z;      (* INTEGER CHECK (winner_team IN (1, 2)), nullable *)
  elo_processed : bool         (* BOOLEAN DEFAULT FALSE *)
}.
End Scrim.

(** A row of [elo_ratings]; UNIQUE(player_id, league). *)
Module EloRating.
Record t := mk {
  player_id : Z;
  league : League;
  rating : Z;
  wins : Z;
  losses : Z
}.
End EloRating.

(** A row of [elo_history]. *)
Module EloHistory.
Record t := mk {
  player_id : Z;
  scrim_id : Z;
  old_rating : Z;
  new_rating : Z
}.
Definition change_amount (h : t) : Z := new_rating h - old_rating h.
End EloHistory.

(** A row of [match_player_stats]: team_id INTEGER NOT NULL. *)
Module MatchPlayerStats.
Record t := mk {
  scrim_id : Z;
  map_id : Z;
  player_id : Z;
  team_id : Z
}.
End MatchPlayerStats.

(** A row of [scrim_players]. *)
Module ScrimPlayer.
Record t := mk {
  scrim_id : Z;
  player_id : Z
}.
End ScrimPlayer.

(** A row of the participants query: { player_id: number; team_id: number },
    where team_id is NULL when the LEFT JOIN finds no stats row. *)
Module PlayerRow.
Record t := mk {
  player_id : Z;
  team_id : option Z
}.
End PlayerRow.

#[global] Instance PlayerRow_eq_dec : EqDecision PlayerRow.t.
Proof. solve_decision. Defined.

#[global] Instance EloHistory_eq_dec : EqDecision EloHistory.t.
Proof. solve_decision. Defined.

(** The store.  [scrims] is keyed by its primary key, [elo_ratings] by its
    unique key (player_id, league); the other tables are row lists. *)
Record DB := mkDB {
  scrims : gmap Z Scrim.t;
  scrim_players : list ScrimPlayer.t;
  match_player_stats : list MatchPlayerStats.t;
  elo_ratings : gmap (Z * League) EloRating.t;
  elo_history : list EloHistory.t
}.

(* ================================================================== *)
(** ** The SQL statements of the service *)

(** SELECT * FROM scrims WHERE id = $1 *)
Definition selectScrim (db : DB) (scrimId : Z) : list Scrim.t :=
  match scrims db !! scrimId with
  | Some s =>
      [Scrim.mk scrimId (Scrim.status s) (Scrim.league s)
                (Scrim.winner_team s) (Scrim.elo_processed s)]
  | None => []
  end.

(** The rows the LEFT JOIN produces for one row of scrim_players. *)
Definition joinStats (mps : list MatchPlayerStats.t) (sp : ScrimPlayer.t)
  : list PlayerRow.t :=
  let ms := List.filter
              (fun m => (ScrimPlayer.player_id sp =? MatchPlayerStats.player_id m)
                        && (MatchPlayerStats.scrim_id m =? ScrimPlayer.scrim_id sp))
              mps in
  match ms with
  | [] => [PlayerRow.mk (ScrimPlayer.player_id sp) None]
  | _ => List.map (fun m => PlayerRow.mk (ScrimPlayer.player_id sp)
                                         (Some (MatchPlayerStats.team_id m))) ms
  end.

(** SELECT sp.player_id, mps.team_id
    FROM scrim_players sp
    LEFT JOIN match_player_stats mps
      ON sp.player_id = mps.player_id AND mps.scrim_id = sp.scrim_id
    WHERE sp.scrim_id = $1
    GROUP BY sp.player_id, mps.team_id
    (rows in order of first occurrence). *)
Definition selectPlayers (db : DB) (scrimId : Z) : list PlayerRow.t :=
  remove_dups
    (List.flat_map (joinStats (match_player_stats db))
       (List.filter (fun sp => ScrimPlayer.scrim_id sp =? scrimId)
                    (scrim_players db))).

(** SELECT * FROM elo_ratings WHERE player_id = $1 AND league = $2 *)
Definition selectRating (db : DB) (playerId : Z) (lg : League)
  : list EloRating.t :=
  match elo_ratings db !! (playerId, lg) with
  | Some r =>
      [EloRating.mk playerId lg (EloRating.rating r)
                    (EloRating.wins r) (EloRating.losses r)]
  | None => []
  end.

(** SELECT id FROM scrims
    WHERE status = 'completed' AND elo_processed = FALSE
      AND winner_team IS NOT NULL *)
Definition selectUnprocessed (db : DB) : list Z :=
  List.map fst
    (List.filter
       (fun kv => String.eqb (Scrim.status (snd kv)) "completed"%string
                  && negb (Scrim.elo_processed (snd kv))
                  && match Scrim.winner_team (snd kv) with
                     | Some _ => true | None => false end)
       (map_to_list (scrims db))).

(** The three writing statements. *)
Inductive Write :=
  (* INSERT INTO elo_ratings (player_id, league, rating, wins, losses, ..)
     VALUES ($1, $2, $3, $4, $5, NOW())
     ON CONFLICT (player_id, league) DO UPDATE SET rating = $3,
       wins = elo_ratings.wins + $6, losses = elo_ratings.losses + $7 *)
  | UpsertRating (playerId : Z) (lg : League) (newRating : Z)
                 (p4 p5 p6 p7 : Z)
  (* INSERT INTO elo_history (player_id, scrim_id, old_rating, new_rating) *)
  | InsertHistory (playerId scrimId oldRating newRating : Z)
  (* UPDATE scrims SET elo_processed = TRUE WHERE id = $1 *)
  | MarkProcessed (scrimId : Z).

Definition upsertRow (playerId : Z) (lg : League) (newRating p4 p5 p6 p7 : Z)
    (old : option EloRating.t) : option EloRating.t :=
  match old with
  | None => Some (EloRating.mk playerId lg newRating p4 p5)
  | Some r => Some (EloRating.mk playerId lg newRating
                      (EloRating.wins r + p6) (EloRating.losses r + p7))
  end.

Definition markRow (s : Scrim.t) : Scrim.t :=
  Scrim.mk (Scrim.id s) (Scrim.status s) (Scrim.league s)
           (Scrim.winner_team s) true.

Definition applyWrite (db : DB) (w : Write) : DB :=
  match w with
  | UpsertRating playerId lg newRating p4 p5 p6 p7 =>
      mkDB (scrims db) (scrim_players db) (match_player_stats db)
           (partial_alter (upsertRow playerId lg newRating p4 p5 p6 p7)
                          (playerId, lg) (elo_ratings db))
           (elo_history db)
  | InsertHistory playerId scrimId oldRating newRating =>
      mkDB (scrims db) (scrim_players db) (match_player_stats db)
           (elo_ratings db)
           (elo_history db ++
              [EloHistory.mk playerId scrimId oldRating newRating])
  | MarkProcessed scrimId =>
      mkDB (alter markRow scrimId (scrims db)) (scrim_players db)
           (match_player_stats db) (elo_ratings db) (elo_history db)
  end.

Definition applyWrites (db : DB) (ws : list Write) : DB :=
  fold_left applyWrite ws db.

(* ================================================================== *)
(** ** calculateNewRating *)

(** Math.round: the nearest integer, halves rounded up. *)
Definition Math_round (x : R) : Z := Zfloor (x + / 2)%R.

(** Math.pow(10, y) *)
Definition Math_pow10 (y : R) : R := Rpower 10 y.

Definition K : R := 32%R.

Definition calculateNewRating (currentRating : Z) (opponentRating : R)
    (result : Z) : Z :=
  let expectedScore :=
    (1 / (1 + Math_pow10 ((opponentRating - IZR currentRating) / 400)))%R in
  Math_round (IZR currentRating + K * (IZR result - expectedScore))%R.

(** The quotient [sum / length] of an integer sum by a list length, kept
    as an exact fraction until the formula reads it as a real. *)
Definition average (sum : Z) (length : nat) : Q := Qmake sum (Pos.of_nat length).

Definition eloFormula (currentRating : Z) (opponentRating : Q) (result : Z) : Z :=
  calculateNewRating currentRating (Q2R opponentRating) result.

(* ================================================================== *)
(** ** Command trees *)

(** What a rejected promise carries. *)
Inductive Error :=
  | ScrimNotFound (scrimId : Z)        (* Scrim ${scrimId} not found *)
  | ScrimNotCompleted (scrimId : Z)    (* Scrim ${scrimId} is not completed *)
  | NoWinnerTeam (scrimId : Z)         (* Scrim ${scrimId} has no winner_team set *)
  | TypeError                          (* property read on undefined *)
  | StoreFailure (n : nat).            (* the n-th call on the store was rejected *)

(** The logger calls. *)
Inductive LogEvent :=
  | InfoAlreadyProcessed (scrimId : Z)   (* info: Elo already processed for scrim .. *)
  | WarnMissingTeams (scrimId : Z)       (* warn: Missing team assignments for scrim .. *)
  | InfoProcessed (scrimId : Z)          (* info: Elo processed for scrim .. *)
  | ErrorProcessing (scrimId : Z) (e : Error)  (* error: Error processing Elo for scrim .. *)
  | InfoFound (scrimId : Z)              (* info: Found unprocessed completed scrim .. *)
  | ErrorPolling (e : Error).            (* error: Error in Elo polling loop *)

(** The awaited calls on the pool and on a connection, indexed by what
    they resolve to. *)
Inductive Stmt : Type -> Type :=
  | GetClient : Stmt unit
  | BEGIN : Stmt unit
  | COMMIT : Stmt unit
  | ROLLBACK : Stmt unit
  | SelectScrim (scrimId : Z) : Stmt (list Scrim.t)
  | SelectPlayers (scrimId : Z) : Stmt (list PlayerRow.t)
  | SelectRating (playerId : Z) (lg : League) : Stmt (list EloRating.t)
  | SelectUnprocessed : Stmt (list Z)
  | Exec (w : Write) : Stmt unit.

Inductive Prog (A : Type) : Type :=
  | Ret (a : A)
  | Throw (e : Error)
  | Call {X : Type} (s : Stmt X) (k : Error + X -> Prog A)
  | Log (ev : LogEvent) (k : Prog A)
  | Release (k : Prog A).

Arguments Ret {A} a.
Arguments Throw {A} e.
Arguments Call {A X} s k.
Arguments Log {A} ev k.
Arguments Release {A} k.

Fixpoint bind {A B : Type} (p : Prog A) (f : A -> Prog B) : Prog B :=
  match p with
  | Ret a => f a
  | Throw e => Throw e
  | Call s k => Call s (fun r => bind (k r) f)
  | Log ev k => Log ev (bind k f)
  | Release k => Release (bind k f)
  end.

Notation "x <- p ;; k" := (bind p (fun x => k))
  (at level 100, p at next level, right associativity).
Notation "p ;;; k" := (bind p (fun _ => k))
  (at level 100, right associativity).

(** try { p } catch (error) { h error } *)
Fixpoint tryCatch {A : Type} (p : Prog A) (h : Error -> Prog A) : Prog A :=
  match p with
  | Ret a => Ret a
  | Throw e => h e
  | Call s k => Call s (fun r => tryCatch (k r) h)
  | Log ev k => Log ev (tryCatch k h)
  | Release k => Release (tryCatch k h)
  end.

(** try { p } finally { f } *)
Fixpoint tryFinally {A : Type} (p : Prog A) (f : Prog unit) : Prog A :=
  match p with
  | Ret a => f ;;; Ret a
  | Throw e => f ;;; Throw e
  | Call s k => Call s (fun r => tryFinally (k r) f)
  | Log ev k => Log ev (tryFinally k f)
  | Release k => Release (tryFinally k f)
  end.

(** await client.query(..): a rejection is thrown at the await. *)
Definition query {X : Type} (s : Stmt X) : Prog X :=
  Call s (fun r => match r with inl e => Throw e | inr x => Ret x end).

Definition logger {A : Type} (ev : LogEvent) (k : Prog A) : Prog A := Log ev k.

(* ================================================================== *)
(** ** EloService *)

Definition defaultRating (playerId : Z) (lg : League) : EloRating.t :=
  EloRating.mk playerId lg 1000 0 0.

(** JavaScript truthiness of [scrim.winner_team]. *)
Definition truthy (v : option Z) : bool :=
  match v with
  | None => false
  | Some z => negb (z =? 0)
  end.

Definition isTeam (n : Z) (p : PlayerRow.t) : bool :=
  match PlayerRow.team_id p with
  | Some t => t =? n
  | None => false
  end.

Definition b2z (b : bool) : Z := if b then 1 else 0.

(** The loop of step 3: one SELECT per participant row, filling the Map. *)
Fixpoint fetchRatings (lg : League) (players : list PlayerRow.t)
    (ratings : gmap Z EloRating.t) : Prog (gmap Z EloRating.t) :=
  match players with
  | [] => Ret ratings
  | p :: rest =>
      rows <- query (SelectRating (PlayerRow.player_id p) lg) ;;
      fetchRatings lg rest
        (<[PlayerRow.player_id p :=
             match rows with
             | r :: _ => r
             | [] => defaultRating (PlayerRow.player_id p) lg
             end]> ratings)
  end.

(** team.reduce((sum, p) => sum + ratings.get(p.player_id)!.rating, 0);
    [None] is the TypeError of reading [.rating] on undefined. *)
Fixpoint sumRatings (ratings : gmap Z EloRating.t) (team : list PlayerRow.t)
    (sum : Z) : option Z :=
  match team with
  | [] => Some sum
  | p :: rest =>
      match ratings !! PlayerRow.player_id p with
      | Some r => sumRatings ratings rest (sum + EloRating.rating r)
      | None => None
      end
  end.

Definition updatePlayerRating (playerId scrimId : Z) (lg : League)
    (currentRating : EloRating.t) (newRating : Z) (isWin : bool) : Prog unit :=
  query (Exec (UpsertRating playerId lg newRating
                 (b2z isWin) (b2z (negb isWin))
                 (b2z isWin) (b2z (negb isWin)))) ;;;
  query (Exec (InsertHistory playerId scrimId
                 (EloRating.rating currentRating) newRating)).

Section Engine.

(** The rating formula the service applies ([this.calculateNewRating]). *)
Variable formula : Z -> Q -> Z -> Z.

(** for (const p of team) { .. updatePlayerRating(..) } *)
Fixpoint updateTeam (scrim : Scrim.t) (ratings : gmap Z EloRating.t)
    (opponentAvg : Q) (teamResult : Z) (team : list PlayerRow.t) : Prog unit :=
  match team with
  | [] => Ret tt
  | p :: rest =>
      match ratings !! PlayerRow.player_id p with
      | None => Throw TypeError
      | Some currentRating =>
          let newRating :=
            formula (EloRating.rating currentRating) opponentAvg teamResult in
          updatePlayerRating (PlayerRow.player_id p) (Scrim.id scrim)
            (Scrim.league scrim) currentRating newRating (teamResult =? 1) ;;;
          updateTeam scrim ratings opponentAvg teamResult rest
      end
  end.

(** Steps 2 to 5 of processMatch, for a scrim that passed the guards on
    existence, status and the processed flag. *)
Definition rateScrim (scrimId : Z) (scrim : Scrim.t) : Prog unit :=
  if negb (truthy (Scrim.winner_team scrim)) then Throw (NoWinnerTeam scrimId)
  else
    players <- query (SelectPlayers scrimId) ;;
    ratings <- fetchRatings (Scrim.league scrim) players ∅ ;;
    let team1 := List.filter (isTeam 1) players in
    let team2 := List.filter (isTeam 2) players in
    if (length team1 =? 0)%nat || (length team2 =? 0)%nat then
      logger (WarnMissingTeams scrimId)
        (query ROLLBACK ;;; Ret tt)
    else
      match sumRatings ratings team1 0, sumRatings ratings team2 0 with
      | Some sum1, Some sum2 =>
          let team1AvgRating := average sum1 (length team1) in
          let team2AvgRating := average sum2 (length team2) in
          let team1Result := b2z (bool_decide (Scrim.winner_team scrim = Some 1)) in
          let team2Result := b2z (bool_decide (Scrim.winner_team scrim = Some 2)) in
          updateTeam scrim ratings team2AvgRating team1Result team1 ;;;
          updateTeam scrim ratings team1AvgRating team2Result team2 ;;;
          query (Exec (MarkProcessed scrimId)) ;;;
          query COMMIT ;;;
          logger (InfoProcessed scrimId) (Ret tt)
      | _, _ => Throw TypeError
      end.

Definition processBody (scrimId : Z) : Prog unit :=
  query BEGIN ;;;
  rows <- query (SelectScrim scrimId) ;;
  match rows with
  | [] => Throw (ScrimNotFound scrimId)
  | scrim :: _ =>
      if negb (String.eqb (Scrim.status scrim) "completed") then
        Throw (ScrimNotCompleted scrimId)
      else if Scrim.elo_processed scrim then
        logger (InfoAlreadyProcessed scrimId)
          (query ROLLBACK ;;; Ret tt)
      else rateScrim scrimId scrim
  end.

Definition processHandler (scrimId : Z) (error : Error) : Prog unit :=
  query ROLLBACK ;;;
  logger (ErrorProcessing scrimId error) (Throw error).

Definition processMatchWith (scrimId : Z) : Prog unit :=
  query GetClient ;;;
  tryFinally
    (tryCatch (processBody scrimId) (processHandler scrimId))
    (Release (Ret tt)).

(** The body of the setInterval callback of startEloPolling. *)
Fixpoint scanRows (rows : list Z) : Prog unit :=
  match rows with
  | [] => Ret tt
  | id :: rest =>
      logger (InfoFound id)
        (processMatchWith id ;;; scanRows rest)
  end.

Definition pollCycleWith : Prog unit :=
  tryCatch
    (query GetClient ;;;
     tryFinally
       (rows <- query SelectUnprocessed ;; scanRows rows)
       (Release (Ret tt)))
    (fun error => logger (ErrorPolling error) (Ret tt)).

End Engine.

Definition processMatch : Z -> Prog unit := processMatchWith eloFormula.
Definition pollCycle : Prog unit := pollCycleWith eloFormula.

(* ================================================================== *)
(** ** Running a command tree against the store *)

(** An executed statement, for the trace. *)
Definition Op : Type := { X : Type & Stmt X }.

Definition isWrite (o : Op) : bool :=
  match projT2 o with
  | Exec _ => true
  | _ => false
  end.

(** The data a connection sees: the committed store with the writes of its
    open transaction on top. *)
Definition view (db : DB) (tx : option (list Write)) : DB :=
  match tx with
  | Some ws => applyWrites db ws
  | None => db
  end.

(** One statement on a connection whose open transaction (if any) holds
    the pending writes [tx].  A write outside a transaction commits at
    once; COMMIT installs the pending writes; ROLLBACK drops them; BEGIN
    inside a transaction opens nothing new.  GetClient is here the
    getClient of [run], which gives a connection without open
    transaction; on the pool ([pexec]) it gives a connection of the pool
    as it was released. *)
Definition exec {X : Type} (s : Stmt X) (db : DB) (tx : option (list Write))
  : X * DB * option (list Write) :=
  match s in Stmt X return X * DB * option (list Write) with
  | GetClient => (tt, db, None)
  | BEGIN => (tt, db, Some (default [] tx))
  | COMMIT => (tt, view db tx, None)
  | ROLLBACK => (tt, db, None)
  | SelectScrim scrimId => (selectScrim (view db tx) scrimId, db, tx)
  | SelectPlayers scrimId => (selectPlayers (view db tx) scrimId, db, tx)
  | SelectRating playerId lg => (selectRating (view db tx) playerId lg, db, tx)
  | SelectUnprocessed => (selectUnprocessed (view db tx), db, tx)
  | Exec w =>
      match tx with
      | Some ws => (tt, db, Some (ws ++ [w]))
      | None => (tt, applyWrite db w, None)
      end
  end.

Record World := mkWorld {
  store : DB;                    (* the committed data *)
  tx : option (list Write);      (* the connection in use: its open transaction *)
  calls : nat;                   (* calls made on the store so far *)
  log : list LogEvent;
  trace : list Op                (* statements the store executed *)
}.

(** [fault n] tells whether the store rejects the n-th call made on it.
    [run] follows the connection in use only: a released connection takes
    part no further, and the next getClient gives a connection without
    open transaction.  The pool that hands a released connection out again
    is followed by [prun]. *)
Fixpoint run {A : Type} (fault : nat -> bool) (p : Prog A) (w : World)
  : (Error + A) * World :=
  match p with
  | Ret a => (inr a, w)
  | Throw e => (inl e, w)
  | Call s k =>
      if fault (calls w) then
        run fault (k (inl (StoreFailure (calls w))))
            (mkWorld (store w) (tx w) (S (calls w)) (log w) (trace w))
      else
        let '(x, db, t) := exec s (store w) (tx w) in
        run fault (k (inr x))
            (mkWorld db t (S (calls w)) (log w) (trace w ++ [existT _ s]))
  | Log ev k =>
      run fault k (mkWorld (store w) (tx w) (calls w) (log w ++ [ev]) (trace w))
  | Release k =>
      run fault k (mkWorld (store w) None (calls w) (log w) (trace w))
  end.

Definition noFault : nat -> bool := fun _ => false.

Definition initWorld (db : DB) : World := mkWorld db None 0 [] [].

Definition isError {A : Type} (r : Error + A) : Prop :=
  match r with inl _ => True | inr _ => False end.

(** The outcome of a call, as the caller can tell it from the log. *)
Inductive Outcome := Processed | AlreadyProcessed | SkippedIncompleteTeams.

Definition outcomeOfEvent (scrimId : Z) (ev : LogEvent) : option Outcome :=
  match ev with
  | InfoProcessed i => if i =? scrimId then Some Processed else None
  | InfoAlreadyProcessed i => if i =? scrimId then Some AlreadyProcessed else None
  | WarnMissingTeams i => if i =? scrimId then Some SkippedIncompleteTeams else None
  | _ => None
  end.

Definition outcomes (scrimId : Z) (l : list LogEvent) : list Outcome :=
  omap (outcomeOfEvent scrimId) l.

(* ================================================================== *)
(** ** Interleaved connections *)

(** A call in progress: what is left of its command tree, and the
    transaction of its own connection. *)
Record Session := mkSession {
  prog : Prog unit;
  ttx : option (list Write)
}.

Record Shared := mkShared {
  cstore : DB;
  sessions : list Session;
  clog : list LogEvent
}.

Definition hasPending (t : Session) : bool :=
  match ttx t with
  | Some (_ :: _) => true
  | _ => false
  end.

(** Statements of several connections interleave one at a time.  Every
    statement sees what is committed when it runs, plus the pending writes
    of its own transaction: READ COMMITTED, which is what a plain BEGIN
    gives in PostgreSQL.  Writers are serialised: a session may execute a
    write only while no other session holds uncommitted writes (a lock
    coarser than the row locks of the store).  Reads are never blocked. *)
Definition blocked (i : nat) (ts : list Session) : bool :=
  existsb (fun jt => negb (fst jt =? i)%nat && hasPending (snd jt))
          (imap (fun j t => (j, t)) ts).

Definition cstep (i : nat) (s : Shared) : option Shared :=
  match sessions s !! i with
  | None => None
  | Some t =>
      match prog t with
      | Ret _ => None
      | Throw _ => None
      | Log ev k =>
          Some (mkShared (cstore s) (<[i := mkSession k (ttx t)]> (sessions s))
                         (clog s ++ [ev]))
      | Release k =>
          Some (mkShared (cstore s) (<[i := mkSession k None]> (sessions s)) (clog s))
      | Call st k =>
          if match st with Exec _ => blocked i (sessions s) | _ => false end
          then None
          else
            let '(x, db, t') := exec st (cstore s) (ttx t) in
            Some (mkShared db (<[i := mkSession (k (inr x)) t']> (sessions s)) (clog s))
      end
  end.

(** Run a schedule: the list of session indices, one per step. *)
Fixpoint schedule (sched : list nat) (s : Shared) : option Shared :=
  match sched with
  | [] => Some s
  | i :: rest =>
      match cstep i s with
      | Some s' => schedule rest s'
      | None => None
      end
  end.

Definition finished (t : Session) : bool :=
  match prog t with
  | Ret _ => true
  | _ => false
  end.

(* ================================================================== *)
(** ** Observations on the store *)

Definition processedFlag (db : DB) (scrimId : Z) : option bool :=
  Scrim.elo_processed <$> scrims db !! scrimId.

Definition historyOf (db : DB) (scrimId playerId : Z) : list EloHistory.t :=
  List.filter (fun h => (EloHistory.scrim_id h =? scrimId)
                        && (EloHistory.player_id h =? playerId))
              (elo_history db).

Definition ratingOf (db : DB) (playerId : Z) (lg : League) : option EloRating.t :=
  elo_ratings db !! (playerId, lg).

(* ================================================================== *)
(** ** The world after one step *)

Definition okValue {X : Type} (s : Stmt X) (w : World) : X :=
  fst (fst (exec s (store w) (tx w))).

Definition okWorld {X : Type} (s : Stmt X) (w : World) : World :=
  mkWorld (snd (fst (exec s (store w) (tx w)))) (snd (exec s (store w) (tx w)))
          (S (calls w)) (log w) (trace w ++ [existT _ s]).

Definition failWorld (w : World) : World :=
  mkWorld (store w) (tx w) (S (calls w)) (log w) (trace w).

Definition logWorld (ev : LogEvent) (w : World) : World :=
  mkWorld (store w) (tx w) (calls w) (log w ++ [ev]) (trace w).

Definition releaseWorld (w : World) : World :=
  mkWorld (store w) None (calls w) (log w) (trace w).

(** A postcondition on the result and the final world of a run. *)
Definition runs {A : Type} (fault : nat -> bool) (p : Prog A) (w : World)
    (Q : Error + A -> World -> Prop) : Prop :=
  Q (fst (run fault p w)) (snd (run fault p w)).

(* ================================================================== *)
(** ** What a fault-free call computes *)

(** The record the service works from: the stored row, or the default. *)
Definition currentRating (db : DB) (lg : League) (playerId : Z) : EloRating.t :=
  match selectRating db playerId lg with
  | r :: _ => r
  | [] => defaultRating playerId lg
  end.

(** The Map that [fetchRatings] builds. *)
Fixpoint ratingsMap (db : DB) (lg : League) (players : list PlayerRow.t)
    (acc : gmap Z EloRating.t) : gmap Z EloRating.t :=
  match players with
  | [] => acc
  | p :: rest =>
      ratingsMap db lg rest
        (<[PlayerRow.player_id p := currentRating db lg (PlayerRow.player_id p)]> acc)
  end.

Definition readOps (lg : League) (players : list PlayerRow.t) : list Op :=
  List.map (fun p => existT _ (SelectRating (PlayerRow.player_id p) lg) : Op) players.

Definition writeOps (ws : list Write) : list Op :=
  List.map (fun w => existT _ (Exec w) : Op) ws.

(** The writes among the executed statements. *)
Definition writesOf (tr : list Op) : list Write :=
  omap (fun o => match projT2 o with Exec w => Some w | _ => None end) tr.

Section EngineFacts.

Variable formula : Z -> Q -> Z -> Z.

(** The two statements [updatePlayerRating] issues for one row. *)
Definition rowWrites (scrim : Scrim.t) (ratings : gmap Z EloRating.t)
    (opponentAvg : Q) (teamResult : Z) (p : PlayerRow.t) : list Write :=
  match ratings !! PlayerRow.player_id p with
  | Some currentRating =>
      let newRating :=
        formula (EloRating.rating currentRating) opponentAvg teamResult in
      let isWin := teamResult =? 1 in
      [UpsertRating (PlayerRow.player_id p) (Scrim.league scrim) newRating
         (b2z isWin) (b2z (negb isWin)) (b2z isWin) (b2z (negb isWin));
       InsertHistory (PlayerRow.player_id p) (Scrim.id scrim)
         (EloRating.rating currentRating) newRating]
  | None => []
  end.

Definition teamWrites (scrim : Scrim.t) (ratings : gmap Z EloRating.t)
    (opponentAvg : Q) (teamResult : Z) (team : list PlayerRow.t) : list Write :=
  List.flat_map (rowWrites scrim ratings opponentAvg teamResult) team.

Definition teamAvg (ratings : gmap Z EloRating.t) (team : list PlayerRow.t) : Q :=
  average (default 0 (sumRatings ratings team 0)) (length team).

Definition team1Of (db : DB) (scrimId : Z) : list PlayerRow.t :=
  List.filter (isTeam 1) (selectPlayers db scrimId).

Definition team2Of (db : DB) (scrimId : Z) : list PlayerRow.t :=
  List.filter (isTeam 2) (selectPlayers db scrimId).

Definition ratingsOf (db : DB) (scrimId : Z) (lg : League) : gmap Z EloRating.t :=
  ratingsMap db lg (selectPlayers db scrimId) ∅.

(** All the writes of one successful processing, in order. *)
Definition processWrites (db : DB) (scrimId : Z) (scrim : Scrim.t) : list Write :=
  let ratings := ratingsOf db scrimId (Scrim.league scrim) in
  let team1 := team1Of db scrimId in
  let team2 := team2Of db scrimId in
  teamWrites scrim ratings (teamAvg ratings team2)
    (b2z (bool_decide (Scrim.winner_team scrim = Some 1))) team1 ++
  teamWrites scrim ratings (teamAvg ratings team1)
    (b2z (bool_decide (Scrim.winner_team scrim = Some 2))) team2 ++
  [MarkProcessed scrimId].

(** The branch a call takes, read off the committed store. *)
Inductive Path :=
  | PNotFound
  | PNotCompleted
  | PAlreadyProcessed
  | PNoWinner
  | PIncompleteTeams
  | PRate (scrim : Scrim.t).

Definition path (db : DB) (scrimId : Z) : Path :=
  match selectScrim db scrimId with
  | [] => PNotFound
  | scrim :: _ =>
      if negb (String.eqb (Scrim.status scrim) "completed") then PNotCompleted
      else if Scrim.elo_processed scrim then PAlreadyProcessed
      else if negb (truthy (Scrim.winner_team scrim)) then PNoWinner
      else if (length (team1Of db scrimId) =? 0)%nat
              || (length (team2Of db scrimId) =? 0)%nat
           then PIncompleteTeams
           else PRate scrim
  end.

(** Result, committed store, log lines and issued writes of a call. *)
Definition effect (db : DB) (scrimId : Z)
  : (Error + unit) * DB * list LogEvent * list Write :=
  match path db scrimId with
  | PNotFound =>
      (inl (ScrimNotFound scrimId), db,
       [ErrorProcessing scrimId (ScrimNotFound scrimId)], [])
  | PNotCompleted =>
      (inl (ScrimNotCompleted scrimId), db,
       [ErrorProcessing scrimId (ScrimNotCompleted scrimId)], [])
  | PAlreadyProcessed => (inr tt, db, [InfoAlreadyProcessed scrimId], [])
  | PNoWinner =>
      (inl (NoWinnerTeam scrimId), db,
       [ErrorProcessing scrimId (NoWinnerTeam scrimId)], [])
  | PIncompleteTeams => (inr tt, db, [WarnMissingTeams scrimId], [])
  | PRate scrim =>
      (inr tt, applyWrites db (processWrites db scrimId scrim),
       [InfoProcessed scrimId], processWrites db scrimId scrim)
  end.

End EngineFacts.

Definition historyRows (ws : list Write) : list EloHistory.t :=
  omap (fun w => match w with
                 | InsertHistory p s o n => Some (EloHistory.mk p s o n)
                 | _ => None
                 end) ws.

(** The writes of one team loop, from the pre-match rating [old] and the
    new rating [new] of each player. *)
Definition writesFor (lg : League) (scrimId : Z) (old new : Z -> Z)
    (isWin : bool) (team : list PlayerRow.t) : list Write :=
  List.flat_map
    (fun p =>
       [UpsertRating (PlayerRow.player_id p) lg (new (PlayerRow.player_id p))
          (b2z isWin) (b2z (negb isWin)) (b2z isWin) (b2z (negb isWin));
        InsertHistory (PlayerRow.player_id p) scrimId
          (old (PlayerRow.player_id p)) (new (PlayerRow.player_id p))])
    team.

Definition historyFor (scrimId : Z) (old new : Z -> Z) (team : list PlayerRow.t)
  : list EloHistory.t :=
  List.map (fun p => EloHistory.mk (PlayerRow.player_id p) scrimId
                       (old (PlayerRow.player_id p)) (new (PlayerRow.player_id p)))
           team.

(* ================================================================== *)
(** ** The store after a successful processing *)

Definition oldRating (db : DB) (lg : League) (playerId : Z) : Z :=
  EloRating.rating (currentRating db lg playerId).

Definition teamWon (scrim : Scrim.t) (n : Z) : bool :=
  bool_decide (Scrim.winner_team scrim = Some n).

Definition opponentsOf (db : DB) (scrimId n : Z) : list PlayerRow.t :=
  if n =? 1 then team2Of db scrimId else team1Of db scrimId.

(** The rating the formula gives a player of team [n]. *)
Definition newRating (formula : Z -> Q -> Z -> Z) (db : DB) (scrimId : Z)
    (scrim : Scrim.t) (n : Z) (playerId : Z) : Z :=
  formula (oldRating db (Scrim.league scrim) playerId)
          (teamAvg (ratingsOf db scrimId (Scrim.league scrim))
                   (opponentsOf db scrimId n))
          (b2z (teamWon scrim n)).

Definition teamIds (db : DB) (scrimId n : Z) : list Z :=
  List.map PlayerRow.player_id
    (if n =? 1 then team1Of db scrimId else team2Of db scrimId).

(** The effect of the loop over team [n] on the record of player [q]. *)
Definition upsertFor (formula : Z -> Q -> Z -> Z) (db : DB) (scrimId : Z)
    (scrim : Scrim.t) (n : Z) (q : Z) (o : option EloRating.t)
  : option EloRating.t :=
  if bool_decide (q ∈ teamIds db scrimId n)
  then upsertRow q (Scrim.league scrim) (newRating formula db scrimId scrim n q)
                 (b2z (teamWon scrim n)) (b2z (negb (teamWon scrim n)))
                 (b2z (teamWon scrim n)) (b2z (negb (teamWon scrim n))) o
  else o.

(* ================================================================== *)
(** ** Predicates on trees and worlds *)

(** A tree that handles no rejection itself: every rejected call throws. *)
Fixpoint Strict {A : Type} (p : Prog A) : Prop :=
  match p with
  | Ret _ => True
  | Throw _ => True
  | Call s k => (forall e, k (inl e) = Throw e) /\ (forall x, Strict (k (inr x)))
  | Log _ k => Strict k
  | Release k => Strict k
  end.

(** Inside an open transaction, reads and writes leave the committed
    store alone. *)
Definition inTx (db : DB) (w : World) : Prop := store w = db /\ is_Some (tx w).

(* ================================================================== *)
(** ** Example stores *)

(** A two-against-two scrim, completed and unprocessed, team 1 declared
    winner, nobody rated yet. *)
Definition scrim7 : Scrim.t := Scrim.mk 7 "completed" Academy (Some 1) false.

Definition players7 : list ScrimPlayer.t :=
  [ScrimPlayer.mk 7 1; ScrimPlayer.mk 7 2; ScrimPlayer.mk 7 3; ScrimPlayer.mk 7 4].

Definition stats7 : list MatchPlayerStats.t :=
  [MatchPlayerStats.mk 7 1 1 1; MatchPlayerStats.mk 7 1 2 1;
   MatchPlayerStats.mk 7 1 3 2; MatchPlayerStats.mk 7 1 4 2].

Definition exampleDB : DB := mkDB {[ 7 := scrim7 ]} players7 stats7 ∅ [].

(** The store rejects exactly the n-th call. *)
Definition failAt (n : nat) : nat -> bool := fun k => Nat.eqb k n.

(** Scrim 7 after it was processed. *)
Definition processedDB : DB :=
  mkDB {[ 7 := markRow scrim7 ]} players7 stats7 ∅ [].

(** Scrim 8: completed, unprocessed, winner declared, but the parser gave
    no team to anybody. *)
Definition teamlessDB : DB :=
  mkDB {[ 8 := Scrim.mk 8 "completed" Master (Some 2) false ]}
       [ScrimPlayer.mk 8 1; ScrimPlayer.mk 8 2] [] ∅ [].

(** Scrim 9: players 1 and 2 have teams, player 5 took part but has no
    stats row. *)
Definition partialDB : DB :=
  mkDB {[ 9 := Scrim.mk 9 "completed" Champion (Some 2) false ]}
       [ScrimPlayer.mk 9 1; ScrimPlayer.mk 9 2; ScrimPlayer.mk 9 5]
       [MatchPlayerStats.mk 9 1 1 1; MatchPlayerStats.mk 9 1 2 2]
       ∅ [].

(** Scrim 6: team 1 is a 600 and a 1400 player, team 2 two 1000 players
    (one of them not rated yet); both averages are 1000. *)
Definition scrim6 : Scrim.t := Scrim.mk 6 "completed" Academy (Some 1) false.

Definition unevenDB : DB :=
  mkDB {[ 6 := scrim6 ]}
       [ScrimPlayer.mk 6 1; ScrimPlayer.mk 6 2; ScrimPlayer.mk 6 3; ScrimPlayer.mk 6 4]
       [MatchPlayerStats.mk 6 1 1 1; MatchPlayerStats.mk 6 1 2 1;
        MatchPlayerStats.mk 6 1 3 2; MatchPlayerStats.mk 6 1 4 2]
       {[ (1, Academy) := EloRating.mk 1 Academy 600 0 0;
          (2, Academy) := EloRating.mk 2 Academy 1400 0 0;
          (3, Academy) := EloRating.mk 3 Academy 1000 0 0 ]}
       [].

(** The log lines a call added. *)
Definition newLog (w w' : World) : list LogEvent := drop (length (log w)) (log w').

(** The ids for which the loop reached its body. *)
Definition invoked (l : list LogEvent) : list Z :=
  omap (fun ev => match ev with InfoFound i => Some i | _ => None end) l.

(** Scrims 7 and 10, both completed, unprocessed, with a winner and teams. *)
Definition twoDB : DB :=
  mkDB {[ 7 := scrim7; 10 := Scrim.mk 10 "completed" Academy (Some 2) false ]}
       (players7 ++ [ScrimPlayer.mk 10 1; ScrimPlayer.mk 10 3])
       (stats7 ++ [MatchPlayerStats.mk 10 1 1 1; MatchPlayerStats.mk 10 1 3 2])
       ∅ [].

(* ================================================================== *)
(** ** Two concurrent calls *)

(** Two sessions, each a call of processMatch on scrim 7, each on its own
    connection. *)
Definition raceStart : Shared :=
  mkShared exampleDB
    [mkSession (processMatch 7) None; mkSession (processMatch 7) None] [].

(** Both sessions take a connection, BEGIN and read the scrim row; then the
    first runs to its COMMIT and end; then the second goes on. *)
Definition raceSchedule : list nat :=
  [0; 0; 0; 1; 1; 1]%nat ++ repeat 0%nat 17 ++ repeat 1%nat 17.

(** One after the other: the first session runs to its end before the
    second begins. *)
Definition serialSchedule : list nat := repeat 0%nat 20 ++ repeat 1%nat 6.

(* ================================================================== *)
(** ** Further stores and predicates *)

(** Scrim 11: still being played, though flagged and without winner. *)
Definition pendingDB : DB :=
  mkDB {[ 11 := Scrim.mk 11 "active" Academy None true ]}
       [ScrimPlayer.mk 11 1; ScrimPlayer.mk 11 2] [] ∅ [].

(** Scrim 12: completed, but the parser has not set the winner. *)
Definition undecidedDB : DB :=
  mkDB {[ 12 := Scrim.mk 12 "completed" Academy None false ]}
       [ScrimPlayer.mk 12 1; ScrimPlayer.mk 12 2]
       [MatchPlayerStats.mk 12 1 1 1; MatchPlayerStats.mk 12 1 2 2] ∅ [].

(** What the engine leaves alone in the match data: the participant
    tables, the set of scrims, and every column of a scrim but the
    processed flag, which is only ever set. *)
Definition sameMatchData (db db' : DB) : Prop :=
  scrim_players db' = scrim_players db /\
  match_player_stats db' = match_player_stats db /\
  forall i,
    match scrims db !! i, scrims db' !! i with
    | Some s, Some s' =>
        Scrim.id s' = Scrim.id s /\
        Scrim.status s' = Scrim.status s /\
        Scrim.league s' = Scrim.league s /\
        Scrim.winner_team s' = Scrim.winner_team s /\
        (Scrim.elo_processed s = true -> Scrim.elo_processed s' = true)
    | None, None => True
    | _, _ => False
    end.

(** Scrim 13: the stats rows of player 1 name team 1 on the first map and
    team 2 on the second. *)
Definition switchedDB : DB :=
  mkDB {[ 13 := Scrim.mk 13 "completed" Academy (Some 1) false ]}
       [ScrimPlayer.mk 13 1; ScrimPlayer.mk 13 2; ScrimPlayer.mk 13 3]
       [MatchPlayerStats.mk 13 1 1 1; MatchPlayerStats.mk 13 2 1 2;
        MatchPlayerStats.mk 13 1 2 1; MatchPlayerStats.mk 13 1 3 2]
       ∅ [].

(** The rating change a history entry may record for a team that won or
    lost. *)
Definition changeAllowed (won : bool) (h : EloHistory.t) : Prop :=
  if won then 0 <= EloHistory.change_amount h <= 32
  else -32 <= EloHistory.change_amount h <= 0.

(** Whether a call on the scrim would take the rating branch. *)
Definition isReady (db : DB) (scrimId : Z) : bool :=
  match path db scrimId with
  | PRate _ => true
  | _ => false
  end.

(* ================================================================== *)
(** ** The connection pool *)

(** A connection of the pool: its open transaction, if any. *)
Definition Conn : Type := option (list Write).

(** [run] follows the calls on a store whose pool hands out, at every
    getClient, a connection without open transaction.  [prun] follows them
    on the pool as it is: [client.release()] puts the connection back as
    it stands, its open transaction included, and getClient hands out the
    connection released last, or a new one when none is idle.  The
    statements of a command tree go to the connection taken last and not
    yet released, as the [client] variables of the source are nested. *)
Record Pooled := mkPooled {
  pstore : DB;                 (* the committed data *)
  held : list Conn;            (* connections taken and not released, the last taken first *)
  idle : list Conn;            (* connections in the pool, the last released first *)
  pcalls : nat;
  plog : list LogEvent;
  ptrace : list Op
}.

(** The connection the next getClient hands out. *)
Definition nextConn (w : Pooled) : Conn :=
  match idle w with
  | c :: _ => c
  | [] => None
  end.

Definition isGetClient {X : Type} (s : Stmt X) : bool :=
  match s with
  | GetClient => true
  | _ => false
  end.

(** One accepted call: getClient takes a connection from the pool; every
    other statement runs on the connection in use (the trees of this file
    send no statement before their getClient; such a statement would run
    outside a transaction). *)
Definition pexec {X : Type} (s : Stmt X) (w : Pooled) : X * Pooled :=
  let '(x, db, t) := exec s (pstore w) (List.hd None (held w)) in
  if isGetClient s
  then (x, mkPooled (pstore w) (nextConn w :: held w) (List.tl (idle w))
                    (S (pcalls w)) (plog w) (ptrace w ++ [existT _ s]))
  else (x, mkPooled db (t :: List.tl (held w)) (idle w)
                    (S (pcalls w)) (plog w) (ptrace w ++ [existT _ s])).

(** client.release() *)
Definition releaseConn (w : Pooled) : Pooled :=
  match held w with
  | c :: hs => mkPooled (pstore w) hs (c :: idle w) (pcalls w) (plog w) (ptrace w)
  | [] => w
  end.

Fixpoint prun {A : Type} (fault : nat -> bool) (p : Prog A) (w : Pooled)
  : (Error + A) * Pooled :=
  match p with
  | Ret a => (inr a, w)
  | Throw e => (inl e, w)
  | Call s k =>
      if fault (pcalls w) then
        prun fault (k (inl (StoreFailure (pcalls w))))
             (mkPooled (pstore w) (held w) (idle w) (S (pcalls w)) (plog w) (ptrace w))
      else
        prun fault (k (inr (fst (pexec s w)))) (snd (pexec s w))
  | Log ev k =>
      prun fault k (mkPooled (pstore w) (held w) (idle w) (pcalls w)
                             (plog w ++ [ev]) (ptrace w))
  | Release k => prun fault k (releaseConn w)
  end.

(** A pool with no connection yet. *)
Definition initPool (db : DB) : Pooled := mkPooled db [] [] 0 [] [].

(** The world of [run] that a call sees when the pool hands it a
    connection without open transaction. *)
Definition cleanWorld (w : Pooled) : World :=
  mkWorld (pstore w) None (pcalls w) (plog w) (ptrace w).

(** The world of [run] in which the try block of a call starts, on the
    connection [c] that getClient handed out. *)
Definition tryWorld (c : Conn) (w : Pooled) : World :=
  mkWorld (pstore w) c (S (pcalls w)) (plog w) (ptrace w ++ [existT _ GetClient]).

(** The try block of processMatch with its catch block. *)
Definition tryBlock (formula : Z -> Q -> Z -> Z) (scrimId : Z) : Prog unit :=
  tryCatch (processBody formula scrimId) (processHandler scrimId).

(** A tree that neither takes nor releases a connection. *)
Fixpoint NoPool {A : Type} (p : Prog A) : Prop :=
  match p with
  | Ret _ => True
  | Throw _ => True
  | Call s k => isGetClient s = false /\ forall r, NoPool (k r)
  | Log _ k => NoPool k
  | Release _ => False
  end.


(* ================================================================== *)
(** * Lemmas and theorems *)

(* ================================================================== *)
(** ** Equations of [run] *)

Lemma run_Call {A X : Type} fault (s : Stmt X) (k : Error + X -> Prog A) w :
  run fault (Call s k) w =
    if fault (calls w)
    then run fault (k (inl (StoreFailure (calls w)))) (failWorld w)
    else run fault (k (inr (okValue s w))) (okWorld s w).
Proof.
  unfold okValue, okWorld; simpl.
  destruct (fault (calls w)); [reflexivity|].
  destruct (exec s (store w) (tx w)) as [[x db] t]; reflexivity.
Qed.

Lemma run_bind {A B : Type} fault (p : Prog A) (f : A -> Prog B) w :
  run fault (bind p f) w =
    match run fault p w with
    | (inl e, w') => (inl e, w')
    | (inr a, w') => run fault (f a) w'
    end.
Proof.
  revert w; induction p as [a|e|X s k IH|ev k IH|k IH]; intros w.
  - reflexivity.
  - reflexivity.
  - change (bind (Call s k) f) with (Call s (fun r => bind (k r) f)).
    rewrite !run_Call. destruct (fault (calls w)); apply IH.
  - simpl. apply IH.
  - simpl. apply IH.
Qed.

Lemma run_tryCatch {A : Type} fault (p : Prog A) (h : Error -> Prog A) w :
  run fault (tryCatch p h) w =
    match run fault p w with
    | (inl e, w') => run fault (h e) w'
    | (inr a, w') => (inr a, w')
    end.
Proof.
  revert w; induction p as [a|e|X s k IH|ev k IH|k IH]; intros w.
  - reflexivity.
  - reflexivity.
  - change (tryCatch (Call s k) h) with (Call s (fun r => tryCatch (k r) h)).
    rewrite !run_Call. destruct (fault (calls w)); apply IH.
  - simpl. apply IH.
  - simpl. apply IH.
Qed.

Lemma run_tryFinally_release {A : Type} fault (p : Prog A) w :
  run fault (tryFinally p (Release (Ret tt))) w =
    (fst (run fault p w), releaseWorld (snd (run fault p w))).
Proof.
  revert w; induction p as [a|e|X s k IH|ev k IH|k IH]; intros w.
  - reflexivity.
  - reflexivity.
  - change (tryFinally (Call s k) (Release (Ret tt)))
      with (Call s (fun r => tryFinally (k r) (Release (Ret tt)))).
    rewrite !run_Call. destruct (fault (calls w)); apply IH.
  - simpl. apply IH.
  - simpl. apply IH.
Qed.

Lemma run_query {X : Type} fault (s : Stmt X) w :
  run fault (query s) w =
    if fault (calls w)
    then (inl (StoreFailure (calls w)), failWorld w)
    else (inr (okValue s w), okWorld s w).
Proof.
  unfold query. rewrite run_Call. destruct (fault (calls w)); reflexivity.
Qed.

Lemma run_query_noFault {X : Type} (s : Stmt X) w :
  run noFault (query s) w = (inr (okValue s w), okWorld s w).
Proof. rewrite run_query. reflexivity. Qed.

Lemma run_logger {A : Type} fault ev (k : Prog A) w :
  run fault (logger ev k) w = run fault k (logWorld ev w).
Proof. reflexivity. Qed.

Lemma runs_mono {A : Type} fault (p : Prog A) w (Q Q' : Error + A -> World -> Prop) :
  (forall r w', Q r w' -> Q' r w') -> runs fault p w Q -> runs fault p w Q'.
Proof. unfold runs; auto. Qed.

Lemma runs_bind {A B : Type} fault (p : Prog A) (f : A -> Prog B) w Q :
  runs fault p w (fun r w' =>
    match r with
    | inl e => Q (inl e) w'
    | inr a => runs fault (f a) w' Q
    end) ->
  runs fault (bind p f) w Q.
Proof.
  unfold runs. rewrite run_bind.
  destruct (run fault p w) as [[e|a] w']; simpl; auto.
Qed.

Lemma runs_tryCatch {A : Type} fault (p : Prog A) h w Q :
  runs fault p w (fun r w' =>
    match r with
    | inl e => runs fault (h e) w' Q
    | inr a => Q (inr a) w'
    end) ->
  runs fault (tryCatch p h) w Q.
Proof.
  unfold runs. rewrite run_tryCatch.
  destruct (run fault p w) as [[e|a] w']; simpl; auto.
Qed.

Lemma runs_tryFinally_release {A : Type} fault (p : Prog A) w Q :
  runs fault p w (fun r w' => Q r (releaseWorld w')) ->
  runs fault (tryFinally p (Release (Ret tt))) w Q.
Proof. unfold runs. rewrite run_tryFinally_release. auto. Qed.

Lemma runs_query {X : Type} fault (s : Stmt X) w Q :
  (fault (calls w) = true -> Q (inl (StoreFailure (calls w))) (failWorld w)) ->
  (fault (calls w) = false -> Q (inr (okValue s w)) (okWorld s w)) ->
  runs fault (query s) w Q.
Proof.
  unfold runs. rewrite run_query. destruct (fault (calls w)); simpl; auto.
Qed.

Lemma runs_ret {A : Type} fault (a : A) w (Q : Error + A -> World -> Prop) :
  Q (inr a) w -> runs fault (Ret a) w Q.
Proof. auto. Qed.

Lemma runs_throw {A : Type} fault e w (Q : Error + A -> World -> Prop) :
  Q (inl e) w -> runs fault (Throw e) w Q.
Proof. auto. Qed.

Lemma runs_logger {A : Type} fault ev (k : Prog A) w Q :
  runs fault k (logWorld ev w) Q -> runs fault (logger ev k) w Q.
Proof. auto. Qed.

Lemma writesOf_app (a b : list Op) : writesOf (a ++ b) = writesOf a ++ writesOf b.
Proof. unfold writesOf. apply omap_app. Qed.

Lemma writesOf_readOps lg ps : writesOf (readOps lg ps) = [].
Proof. induction ps as [|p ps IH]; [reflexivity|exact IH]. Qed.

Lemma writesOf_writeOps ws : writesOf (writeOps ws) = ws.
Proof.
  induction ws as [|w ws IH]; [reflexivity|].
  unfold writesOf, writeOps in *. simpl. f_equal. exact IH.
Qed.

(* ================================================================== *)
(** ** The fault-free run *)

(** Symbolic execution of the straight-line parts of a fault-free run. *)
Ltac run_steps :=
  repeat (first
    [ rewrite run_bind
    | rewrite run_query_noFault
    | rewrite run_logger
    | progress (unfold okValue, okWorld, logWorld, releaseWorld)
    | progress (cbn [exec fst snd store tx calls log trace default view
                          applyWrites fold_left]) ]).

Lemma run_fetchRatings lg ps acc st t c l tr :
  run noFault (fetchRatings lg ps acc) (mkWorld st t c l tr) =
    (inr (ratingsMap (view st t) lg ps acc),
     mkWorld st t (length ps + c) l (tr ++ readOps lg ps)).
Proof.
  revert acc c tr; induction ps as [|p ps IH]; intros acc c tr.
  - simpl. rewrite app_nil_r. reflexivity.
  - cbn [fetchRatings]. rewrite run_bind, run_query_noFault.
    unfold okValue, okWorld; cbn [exec fst snd store tx calls log trace].
    rewrite IH. cbn [length readOps List.map].
    rewrite <- app_assoc. cbn [app].
    replace (length ps + S c)%nat with (S (length ps) + c)%nat by lia.
    reflexivity.
Qed.

Lemma ratingsMap_lookup db lg ps acc i :
  ratingsMap db lg ps acc !! i =
    if bool_decide (i ∈ List.map PlayerRow.player_id ps)
    then Some (currentRating db lg i)
    else acc !! i.
Proof.
  revert acc; induction ps as [|p ps IH]; intros acc.
  - cbn [ratingsMap List.map].
    rewrite (bool_decide_eq_false_2 (i ∈ [])); [reflexivity|]. apply not_elem_of_nil.
  - cbn [ratingsMap List.map]. rewrite IH.
    destruct (bool_decide (i ∈ List.map PlayerRow.player_id ps)) eqn:E.
    + rewrite bool_decide_eq_true_2; [reflexivity|].
      apply elem_of_cons; right. apply bool_decide_eq_true in E. exact E.
    + destruct (decide (i = PlayerRow.player_id p)) as [->|Hne].
      * rewrite lookup_insert_eq.
        rewrite bool_decide_eq_true_2; [reflexivity|]. apply elem_of_cons; auto.
      * rewrite lookup_insert_ne by congruence.
        rewrite bool_decide_eq_false_2; [reflexivity|].
        apply bool_decide_eq_false in E.
        intros [?|?]%elem_of_cons; auto.
Qed.

Lemma sumRatings_total (ratings : gmap Z EloRating.t) team acc :
  (forall p, p ∈ team -> is_Some (ratings !! PlayerRow.player_id p)) ->
  is_Some (sumRatings ratings team acc).
Proof.
  revert acc; induction team as [|p team IH]; intros acc H.
  - simpl. eauto.
  - simpl. destruct (H p) as [r Hr]; [apply elem_of_cons; auto|].
    rewrite Hr. apply IH. intros q Hq. apply H. apply elem_of_cons; auto.
Qed.

Lemma run_updateTeam formula scrim (ratings : gmap Z EloRating.t) opp res team
    st ws c l tr :
  (forall p, p ∈ team -> is_Some (ratings !! PlayerRow.player_id p)) ->
  run noFault (updateTeam formula scrim ratings opp res team)
      (mkWorld st (Some ws) c l tr) =
    (inr tt,
     mkWorld st (Some (ws ++ teamWrites formula scrim ratings opp res team))
             (2 * length team + c) l
             (tr ++ writeOps (teamWrites formula scrim ratings opp res team))).
Proof.
  revert ws c tr; induction team as [|p team IH]; intros ws c tr H.
  - simpl. rewrite !app_nil_r. reflexivity.
  - cbn [updateTeam teamWrites List.flat_map]. unfold rowWrites at 1 3.
    destruct (H p) as [r Hr]; [apply elem_of_cons; auto|]. rewrite Hr.
    unfold updatePlayerRating. run_steps.
    rewrite IH by (intros q Hq; apply H; apply elem_of_cons; auto).
    fold (teamWrites formula scrim ratings opp res team).
    cbn [app writeOps List.map length].
    rewrite <- !app_assoc. cbn [app].
    replace (2 * length team + S (S c))%nat with (2 * S (length team) + c)%nat by lia.
    reflexivity.
Qed.

Lemma ratingsMap_team db lg players n p :
  p ∈ List.filter (isTeam n) players ->
  is_Some (ratingsMap db lg players ∅ !! PlayerRow.player_id p).
Proof.
  intros Hp. rewrite ratingsMap_lookup.
  rewrite bool_decide_eq_true_2; [eauto|].
  apply list_elem_of_In, in_map.
  apply list_elem_of_In in Hp. apply filter_In in Hp. tauto.
Qed.

(** The fault-free run of processMatch, branch by branch. *)
Lemma processMatch_effect formula scrimId w :
  let rw := run noFault (processMatchWith formula scrimId) w in
  let e := effect formula (store w) scrimId in
  fst rw = fst (fst (fst e)) /\
  store (snd rw) = snd (fst (fst e)) /\
  tx (snd rw) = None /\
  log (snd rw) = log w ++ snd (fst e) /\
  writesOf (trace (snd rw)) = writesOf (trace w) ++ snd e.
Proof.
  destruct w as [st t c l tr]. cbn zeta.
  unfold processMatchWith, effect, path.
  rewrite run_bind, run_query_noFault.
  unfold okValue, okWorld; cbn [exec fst snd store tx calls log trace].
  rewrite run_tryFinally_release, run_tryCatch.
  unfold processBody, processHandler. run_steps.
  destruct (selectScrim st scrimId) as [|scrim rest] eqn:Hsel.
  { cbn [run]. run_steps. cbn [run fst snd store tx log trace].
    rewrite !writesOf_app. cbn. rewrite !app_nil_r. auto. }
  destruct (negb (String.eqb (Scrim.status scrim) "completed")) eqn:Hst.
  { cbn [run]. run_steps. cbn [run fst snd store tx log trace].
    rewrite !writesOf_app. cbn. rewrite !app_nil_r. auto. }
  destruct (Scrim.elo_processed scrim) eqn:Hproc.
  { run_steps. cbn [run fst snd store tx log trace].
    rewrite !writesOf_app. cbn. rewrite !app_nil_r. auto. }
  unfold rateScrim.
  destruct (negb (truthy (Scrim.winner_team scrim))) eqn:Hwin.
  { cbn [run]. run_steps. cbn [run fst snd store tx log trace].
    rewrite !writesOf_app. cbn. rewrite !app_nil_r. auto. }
  run_steps. rewrite run_fetchRatings. run_steps.
  fold (team1Of st scrimId) (team2Of st scrimId).
  destruct ((length (team1Of st scrimId) =? 0)%nat
            || (length (team2Of st scrimId) =? 0)%nat) eqn:Hteams.
  { run_steps. cbn [run fst snd store tx log trace].
    rewrite !writesOf_app, writesOf_readOps. cbn. rewrite !app_nil_r. auto. }
  fold (ratingsOf st scrimId (Scrim.league scrim)).
  set (ratings := ratingsOf st scrimId (Scrim.league scrim)).
  assert (H1 : forall p, p ∈ team1Of st scrimId ->
                         is_Some (ratings !! PlayerRow.player_id p))
    by (intros p Hp; eapply ratingsMap_team; exact Hp).
  assert (H2 : forall p, p ∈ team2Of st scrimId ->
                         is_Some (ratings !! PlayerRow.player_id p))
    by (intros p Hp; eapply ratingsMap_team; exact Hp).
  destruct (sumRatings_total ratings _ 0 H1) as [sum1 Hs1].
  destruct (sumRatings_total ratings _ 0 H2) as [sum2 Hs2].
  rewrite Hs1, Hs2.
  run_steps. rewrite run_updateTeam by exact H1.
  run_steps. rewrite run_updateTeam by exact H2.
  run_steps. cbn [run fst snd store tx log trace app].
  unfold processWrites, teamAvg. fold ratings. rewrite Hs1, Hs2. cbn [default].
  rewrite !writesOf_app, writesOf_readOps, !writesOf_writeOps.
  rewrite <- !app_assoc. cbn. auto.
Qed.

(* ================================================================== *)
(** ** The store after a list of writes *)

Lemma applyWrites_app db ws1 ws2 :
  applyWrites db (ws1 ++ ws2) = applyWrites (applyWrites db ws1) ws2.
Proof. unfold applyWrites. apply fold_left_app. Qed.

Lemma applyWrites_cons db w ws :
  applyWrites db (w :: ws) = applyWrites (applyWrite db w) ws.
Proof. reflexivity. Qed.

Lemma applyWrites_scrim_players db ws :
  scrim_players (applyWrites db ws) = scrim_players db.
Proof.
  revert db; induction ws as [|w ws IH]; intros db; [reflexivity|].
  rewrite applyWrites_cons, IH. destruct w; reflexivity.
Qed.

Lemma applyWrites_match_player_stats db ws :
  match_player_stats (applyWrites db ws) = match_player_stats db.
Proof.
  revert db; induction ws as [|w ws IH]; intros db; [reflexivity|].
  rewrite applyWrites_cons, IH. destruct w; reflexivity.
Qed.

Lemma applyWrites_selectPlayers db ws scrimId :
  selectPlayers (applyWrites db ws) scrimId = selectPlayers db scrimId.
Proof.
  unfold selectPlayers.
  rewrite applyWrites_scrim_players, applyWrites_match_player_stats.
  reflexivity.
Qed.

(** No write clears a processed flag, removes a scrim or edits its other
    columns. *)
Lemma applyWrite_scrims db w i :
  scrims (applyWrite db w) !! i = scrims db !! i \/
  scrims (applyWrite db w) !! i = markRow <$> scrims db !! i.
Proof.
  destruct w as [| |j]; cbn [applyWrite scrims]; auto.
  destruct (decide (j = i)) as [->|Hne].
  - right. apply lookup_alter_eq.
  - left. apply lookup_alter_ne. exact Hne.
Qed.

Lemma applyWrites_scrims db ws i :
  scrims (applyWrites db ws) !! i = scrims db !! i \/
  scrims (applyWrites db ws) !! i = markRow <$> scrims db !! i.
Proof.
  revert db; induction ws as [|w ws IH]; intros db; [left; reflexivity|].
  rewrite applyWrites_cons.
  destruct (IH (applyWrite db w)) as [-> | ->];
    destruct (applyWrite_scrims db w i) as [-> | ->]; auto.
  right. destruct (scrims db !! i); reflexivity.
Qed.

Lemma processedFlag_applyWrites db ws i :
  processedFlag db i = Some true ->
  processedFlag (applyWrites db ws) i = Some true.
Proof.
  unfold processedFlag.
  destruct (applyWrites_scrims db ws i) as [-> | ->]; [auto|].
  destruct (scrims db !! i); [reflexivity|discriminate].
Qed.

Lemma applyWrites_history db ws :
  elo_history (applyWrites db ws) = elo_history db ++ historyRows ws.
Proof.
  revert db; induction ws as [|w ws IH]; intros db.
  - simpl. rewrite app_nil_r. reflexivity.
  - rewrite applyWrites_cons, IH.
    destruct w; cbn [applyWrite elo_history historyRows omap]; try reflexivity.
    rewrite <- app_assoc. reflexivity.
Qed.

Lemma historyRows_app a b : historyRows (a ++ b) = historyRows a ++ historyRows b.
Proof. apply omap_app. Qed.

Lemma historyRows_writesFor lg scrimId old new isWin team :
  historyRows (writesFor lg scrimId old new isWin team) =
  historyFor scrimId old new team.
Proof.
  induction team as [|p team IH]; [reflexivity|].
  unfold historyRows, writesFor, historyFor in *. simpl. f_equal. exact IH.
Qed.

Lemma writesFor_scrims db lg scrimId old new isWin team :
  scrims (applyWrites db (writesFor lg scrimId old new isWin team)) = scrims db.
Proof.
  revert db; induction team as [|p team IH]; intros db; [reflexivity|].
  cbn [writesFor List.flat_map app]. rewrite !applyWrites_cons.
  unfold writesFor in IH. rewrite IH. reflexivity.
Qed.

Lemma writesFor_ratings db lg scrimId old new isWin team q lg' :
  NoDup (List.map PlayerRow.player_id team) ->
  elo_ratings (applyWrites db (writesFor lg scrimId old new isWin team)) !! (q, lg') =
    if bool_decide (lg' = lg /\ q ∈ List.map PlayerRow.player_id team)
    then upsertRow q lg (new q) (b2z isWin) (b2z (negb isWin))
                   (b2z isWin) (b2z (negb isWin)) (elo_ratings db !! (q, lg))
    else elo_ratings db !! (q, lg').
Proof.
  revert db; induction team as [|p team IH]; intros db Hnd.
  - cbn [writesFor List.flat_map applyWrites fold_left List.map].
    rewrite bool_decide_eq_false_2; [reflexivity|].
    intros [_ H]. apply not_elem_of_nil in H. exact H.
  - cbn [List.map] in Hnd. apply NoDup_cons in Hnd as [Hnotin Hnd].
    cbn [writesFor List.flat_map app]. rewrite !applyWrites_cons.
    fold (writesFor lg scrimId old new isWin team).
    rewrite IH by exact Hnd. cbn [applyWrite elo_ratings List.map].
    destruct (bool_decide (lg' = lg /\ q ∈ List.map PlayerRow.player_id team))
      eqn:E.
    + apply bool_decide_eq_true in E as [-> Hin].
      rewrite bool_decide_eq_true_2
        by (split; [reflexivity|apply elem_of_cons; right; exact Hin]).
      rewrite lookup_partial_alter_ne; [reflexivity|].
      intros [= Heq]. apply Hnotin. rewrite Heq. exact Hin.
    + apply bool_decide_eq_false in E.
      destruct (decide ((PlayerRow.player_id p, lg) = (q, lg'))) as [Heq|Hne].
      * injection Heq as Hq Hl. subst q lg'.
        rewrite bool_decide_eq_true_2
          by (split; [reflexivity|apply elem_of_cons; left; reflexivity]).
        rewrite lookup_partial_alter_eq. reflexivity.
      * rewrite lookup_partial_alter_ne by exact Hne.
        rewrite bool_decide_eq_false_2; [reflexivity|].
        intros [-> [Hq|Hin]%elem_of_cons]; [apply Hne; rewrite Hq; reflexivity|].
        apply E; split; [reflexivity|exact Hin].
Qed.

Lemma isTeam_true n p : isTeam n p = true -> PlayerRow.team_id p = Some n.
Proof.
  unfold isTeam. destruct (PlayerRow.team_id p) as [t|]; [|discriminate].
  intros H%Z.eqb_eq. congruence.
Qed.

Lemma NoDup_team_ids db scrimId n :
  NoDup (List.map PlayerRow.player_id
           (List.filter (isTeam n) (selectPlayers db scrimId))).
Proof.
  assert (Hnd : NoDup (List.filter (isTeam n) (selectPlayers db scrimId))).
  { apply NoDup_ListNoDup, List.NoDup_filter, NoDup_ListNoDup.
    unfold selectPlayers. apply NoDup_remove_dups. }
  revert Hnd. generalize (selectPlayers db scrimId) as l. intros l.
  assert (Hall : forall p, In p (List.filter (isTeam n) l) ->
                           PlayerRow.team_id p = Some n).
  { intros p Hp. apply filter_In in Hp as [_ Hp]. apply isTeam_true, Hp. }
  revert Hall. generalize (List.filter (isTeam n) l) as t. clear l.
  induction t as [|p t IH]; intros Hall Hnd; cbn [List.map]; [constructor|].
  apply NoDup_cons in Hnd as [Hnotin Hnd].
  apply NoDup_cons; split.
  - intros Hin%list_elem_of_In. apply in_map_iff in Hin as [q [Hq Hqin]].
    apply Hnotin. apply list_elem_of_In.
    assert (q = p); [|subst; exact Hqin].
    destruct q as [qi qt], p as [pi pt]. cbn in Hq. subst qi.
    assert (H1 := Hall _ (or_intror Hqin)). assert (H2 := Hall _ (or_introl eq_refl)).
    cbn in H1, H2. congruence.
  - apply IH; [|exact Hnd]. intros q Hq. apply Hall. right. exact Hq.
Qed.

Lemma b2z_eqb_1 b : (b2z b =? 1) = b.
Proof. destruct b; reflexivity. Qed.

Lemma ratingsOf_team db scrimId lg n p :
  p ∈ List.filter (isTeam n) (selectPlayers db scrimId) ->
  ratingsOf db scrimId lg !! PlayerRow.player_id p =
    Some (currentRating db lg (PlayerRow.player_id p)).
Proof.
  intros Hp. unfold ratingsOf. rewrite ratingsMap_lookup.
  rewrite bool_decide_eq_true_2; [reflexivity|].
  apply list_elem_of_In, in_map.
  apply list_elem_of_In in Hp. apply filter_In in Hp. tauto.
Qed.

Lemma teamWrites_writesFor formula db scrim ratings opp res team :
  (forall p, p ∈ team ->
     ratings !! PlayerRow.player_id p =
       Some (currentRating db (Scrim.league scrim) (PlayerRow.player_id p))) ->
  teamWrites formula scrim ratings opp res team =
    writesFor (Scrim.league scrim) (Scrim.id scrim)
      (oldRating db (Scrim.league scrim))
      (fun i => formula (oldRating db (Scrim.league scrim) i) opp res)
      (res =? 1) team.
Proof.
  induction team as [|p team IH]; intros H; [reflexivity|].
  cbn [teamWrites writesFor List.flat_map]. unfold rowWrites at 1.
  rewrite (H p) by (apply elem_of_cons; auto).
  cbn [app]. do 2 f_equal. apply IH.
  intros q Hq. apply H. apply elem_of_cons; auto.
Qed.

Lemma path_PRate_inv db scrimId scrim :
  path db scrimId = PRate scrim ->
  (exists s, scrims db !! scrimId = Some s /\
     Scrim.elo_processed s = false /\
     scrim = Scrim.mk scrimId (Scrim.status s) (Scrim.league s)
                      (Scrim.winner_team s) false) /\
  Scrim.status scrim = "completed"%string /\
  truthy (Scrim.winner_team scrim) = true /\
  team1Of db scrimId <> [] /\ team2Of db scrimId <> [].
Proof.
  unfold path, selectScrim.
  destruct (scrims db !! scrimId) as [s|]; [|discriminate].
  cbn [Scrim.status Scrim.elo_processed Scrim.winner_team].
  destruct (String.eqb (Scrim.status s) "completed") eqn:Hst; [|discriminate].
  cbn [negb].
  destruct (Scrim.elo_processed s) eqn:Hp; [discriminate|].
  destruct (truthy (Scrim.winner_team s)) eqn:Hw; [|discriminate].
  cbn [negb].
  destruct (team1Of db scrimId) as [|a t1] eqn:H1; [discriminate|].
  destruct (team2Of db scrimId) as [|b t2] eqn:H2; [discriminate|].
  cbn. intros [= <-]. cbn.
  apply String.eqb_eq in Hst.
  repeat split; eauto; discriminate.
Qed.

Lemma path_PRate_intro db scrimId s :
  scrims db !! scrimId = Some s ->
  Scrim.status s = "completed"%string ->
  Scrim.elo_processed s = false ->
  truthy (Scrim.winner_team s) = true ->
  team1Of db scrimId <> [] ->
  team2Of db scrimId <> [] ->
  path db scrimId =
    PRate (Scrim.mk scrimId (Scrim.status s) (Scrim.league s)
                    (Scrim.winner_team s) false).
Proof.
  intros Hs Hst Hp Hw H1 H2. unfold path, selectScrim. rewrite Hs.
  cbn [Scrim.status Scrim.elo_processed Scrim.winner_team].
  rewrite Hst, Hp, Hw. cbn [negb String.eqb].
  destruct (team1Of db scrimId); [congruence|].
  destruct (team2Of db scrimId); [congruence|].
  reflexivity.
Qed.

Lemma processWrites_eq formula db scrimId scrim :
  Scrim.id scrim = scrimId ->
  processWrites formula db scrimId scrim =
    writesFor (Scrim.league scrim) scrimId (oldRating db (Scrim.league scrim))
      (newRating formula db scrimId scrim 1) (teamWon scrim 1)
      (team1Of db scrimId) ++
    writesFor (Scrim.league scrim) scrimId (oldRating db (Scrim.league scrim))
      (newRating formula db scrimId scrim 2) (teamWon scrim 2)
      (team2Of db scrimId) ++
    [MarkProcessed scrimId].
Proof.
  intros Hid. unfold processWrites.
  rewrite !(teamWrites_writesFor formula db).
  - rewrite !b2z_eqb_1, Hid. reflexivity.
  - intros p Hp. eapply ratingsOf_team. exact Hp.
  - intros p Hp. eapply ratingsOf_team. exact Hp.
Qed.

Section Rated.

Variable formula : Z -> Q -> Z -> Z.
Variables (db : DB) (scrimId : Z) (scrim : Scrim.t).
Hypothesis Hid : Scrim.id scrim = scrimId.

Let lg := Scrim.league scrim.
Let db' := applyWrites db (processWrites formula db scrimId scrim).

Lemma rated_scrims : scrims db' = alter markRow scrimId (scrims db).
Proof.
  unfold db'. rewrite processWrites_eq by exact Hid.
  rewrite !applyWrites_app. cbn [applyWrites fold_left applyWrite scrims].
  rewrite !writesFor_scrims. reflexivity.
Qed.

Lemma rated_history :
  elo_history db' =
    elo_history db ++
    historyFor scrimId (oldRating db lg) (newRating formula db scrimId scrim 1)
               (team1Of db scrimId) ++
    historyFor scrimId (oldRating db lg) (newRating formula db scrimId scrim 2)
               (team2Of db scrimId).
Proof.
  unfold db'. rewrite processWrites_eq by exact Hid.
  rewrite applyWrites_history, !historyRows_app, !historyRows_writesFor.
  cbn. rewrite app_nil_r. reflexivity.
Qed.

Lemma rated_ratings q lg' :
  elo_ratings db' !! (q, lg') =
    if bool_decide (lg' = lg)
    then upsertFor formula db scrimId scrim 2 q
           (upsertFor formula db scrimId scrim 1 q (elo_ratings db !! (q, lg)))
    else elo_ratings db !! (q, lg').
Proof.
  unfold db'. rewrite processWrites_eq by exact Hid.
  rewrite !applyWrites_app.
  cbn [applyWrites fold_left applyWrite elo_ratings].
  fold (applyWrites db
          (writesFor (Scrim.league scrim) scrimId (oldRating db (Scrim.league scrim))
             (newRating formula db scrimId scrim 1) (teamWon scrim 1)
             (team1Of db scrimId))).
  set (db1 := applyWrites db _).
  fold (applyWrites db1
          (writesFor (Scrim.league scrim) scrimId (oldRating db (Scrim.league scrim))
             (newRating formula db scrimId scrim 2) (teamWon scrim 2)
             (team2Of db scrimId))).
  rewrite writesFor_ratings by apply NoDup_team_ids.
  unfold db1. rewrite !writesFor_ratings by apply NoDup_team_ids.
  unfold upsertFor, teamIds, lg. cbn [Z.eqb Pos.eqb].
  destruct (decide (lg' = Scrim.league scrim)) as [->|Hne].
  - rewrite (bool_decide_eq_true_2 (Scrim.league scrim = Scrim.league scrim))
      by reflexivity.
    destruct (decide (q ∈ List.map PlayerRow.player_id (team2Of db scrimId)))
      as [H2|H2];
    destruct (decide (q ∈ List.map PlayerRow.player_id (team1Of db scrimId)))
      as [H1|H1].
    all: repeat first
      [ rewrite bool_decide_eq_true_2 by tauto
      | rewrite bool_decide_eq_false_2 by tauto ].
    all: reflexivity.
  - repeat rewrite bool_decide_eq_false_2 by tauto. reflexivity.
Qed.

End Rated.

(* ================================================================== *)
(** ** Runs under store failures *)

Lemma Strict_bind {A B : Type} (p : Prog A) (f : A -> Prog B) :
  Strict p -> (forall a, Strict (f a)) -> Strict (bind p f).
Proof.
  intros Hp Hf. induction p as [a|e|X s k IH|ev k IH|k IH]; cbn [bind Strict].
  - apply Hf.
  - exact I.
  - destruct Hp as [He Hk]. split.
    + intros e. rewrite He. reflexivity.
    + intros x. apply IH, Hk.
  - apply IH, Hp.
  - apply IH, Hp.
Qed.

Lemma Strict_query {X : Type} (s : Stmt X) : Strict (query s).
Proof. split; [reflexivity|intros x; exact I]. Qed.

Lemma Strict_fetchRatings lg ps acc : Strict (fetchRatings lg ps acc).
Proof.
  revert acc; induction ps as [|p ps IH]; intros acc; [exact I|].
  cbn [fetchRatings]. apply Strict_bind; [apply Strict_query|].
  intros rows. apply IH.
Qed.

Lemma Strict_updateTeam formula scrim ratings opp res team :
  Strict (updateTeam formula scrim ratings opp res team).
Proof.
  induction team as [|p team IH]; [exact I|].
  cbn [updateTeam]. destruct (ratings !! PlayerRow.player_id p); [|exact I].
  apply Strict_bind; [|intros _; exact IH].
  unfold updatePlayerRating.
  apply Strict_bind; [apply Strict_query|intros _; apply Strict_query].
Qed.

Lemma Strict_rateScrim formula scrimId scrim :
  Strict (rateScrim formula scrimId scrim).
Proof.
  unfold rateScrim. destruct (negb (truthy (Scrim.winner_team scrim))); [exact I|].
  apply Strict_bind; [apply Strict_query|intros players].
  apply Strict_bind; [apply Strict_fetchRatings|intros ratings].
  cbn zeta. destruct (_ || _).
  { cbn [logger Strict].
    apply Strict_bind; [apply Strict_query|intros _; exact I]. }
  destruct (sumRatings _ _ _); [|exact I].
  destruct (sumRatings _ _ _); [|exact I].
  apply Strict_bind; [apply Strict_updateTeam|intros _].
  apply Strict_bind; [apply Strict_updateTeam|intros _].
  apply Strict_bind; [apply Strict_query|intros _].
  apply Strict_bind; [apply Strict_query|intros _].
  exact I.
Qed.

Lemma Strict_processBody formula scrimId : Strict (processBody formula scrimId).
Proof.
  unfold processBody.
  apply Strict_bind; [apply Strict_query|intros _].
  apply Strict_bind; [apply Strict_query|intros rows].
  destruct rows as [|scrim rest]; [exact I|].
  destruct (negb _); [exact I|].
  destruct (Scrim.elo_processed scrim).
  { cbn [logger Strict].
    apply Strict_bind; [apply Strict_query|intros _; exact I]. }
  apply Strict_rateScrim.
Qed.

(** A strict tree that returns has met no failure, and ran as it runs
    without failures. *)
Lemma Strict_run {A : Type} fault (p : Prog A) w a w' :
  Strict p ->
  run fault p w = (inr a, w') ->
  run noFault p w = (inr a, w') /\
  forall n, (calls w <= n < calls w')%nat -> fault n = false.
Proof.
  revert w; induction p as [b|e|X s k IH|ev k IH|k IH]; intros w Hs Hrun.
  - cbn in *. injection Hrun as <- <-. split; [reflexivity|]. intros n Hn. lia.
  - discriminate.
  - destruct Hs as [He Hk]. rewrite run_Call in *.
    destruct (fault (calls w)) eqn:Hf.
    + rewrite He in Hrun. discriminate.
    + cbn [noFault]. destruct (IH _ _ (Hk _) Hrun) as [Hnf Hrange].
      split; [exact Hnf|]. intros n Hn.
      destruct (decide (n = calls w)) as [->|Hne]; [exact Hf|].
      apply Hrange. cbn [okWorld calls]. lia.
  - cbn [run] in *. apply (IH _ Hs Hrun).
  - cbn [run] in *. apply (IH _ Hs Hrun).
Qed.

Lemma run_processHandler fault scrimId e w :
  isError (fst (run fault (processHandler scrimId e) w)) /\
  store (snd (run fault (processHandler scrimId e) w)) = store w.
Proof.
  unfold processHandler. rewrite run_bind, run_query.
  destruct (fault (calls w)); cbn; auto.
Qed.

(** A call that returns has met no failure at all and is a fault-free run. *)
Lemma processMatch_returns_noFault formula fault scrimId w :
  fst (run fault (processMatchWith formula scrimId) w) = inr tt ->
  run fault (processMatchWith formula scrimId) w =
    run noFault (processMatchWith formula scrimId) w /\
  forall n,
    (calls w <= n < calls (snd (run fault (processMatchWith formula scrimId) w)))%nat ->
    fault n = false.
Proof.
  unfold processMatchWith. rewrite !run_bind, !run_query. cbn [noFault].
  destruct (fault (calls w)) eqn:Hf; [discriminate|].
  rewrite !run_tryFinally_release, !run_tryCatch.
  destruct (run fault (processBody formula scrimId) (okWorld GetClient w))
    as [[e|[]] w1] eqn:Hbody.
  - intros H. exfalso.
    destruct (run_processHandler fault scrimId e w1) as [Herr _].
    cbn [fst] in H. rewrite H in Herr. exact Herr.
  - intros _.
    destruct (Strict_run _ _ _ _ _ (Strict_processBody formula scrimId) Hbody)
      as [Hnf Hrange].
    rewrite Hnf. split; [reflexivity|].
    cbn [fst snd releaseWorld calls]. intros n Hn.
    destruct (decide (n = calls w)) as [->|Hne]; [exact Hf|].
    apply Hrange. cbn [okWorld calls]. lia.
Qed.

(* ================================================================== *)
(** ** Atomicity and the processed flag *)

Lemma inTx_fail db w : inTx db w -> inTx db (failWorld w).
Proof. intros H; exact H. Qed.

Lemma inTx_Exec db wr w : inTx db w -> inTx db (okWorld (Exec wr) w).
Proof.
  intros [Hs [ws Ht]]. unfold inTx, okWorld. cbn [exec]. rewrite Ht.
  cbn. split; [exact Hs|eauto].
Qed.

Lemma inTx_SelectRating db i lg w :
  inTx db w -> inTx db (okWorld (SelectRating i lg) w).
Proof. intros H; exact H. Qed.

Lemma inTx_SelectPlayers db i w :
  inTx db w -> inTx db (okWorld (SelectPlayers i) w).
Proof. intros H; exact H. Qed.

Lemma inTx_SelectScrim db i w :
  inTx db w -> inTx db (okWorld (SelectScrim i) w).
Proof. intros H; exact H. Qed.

Lemma inTx_BEGIN w : inTx (store w) (okWorld BEGIN w).
Proof.
  unfold inTx, okWorld. cbn. split; [reflexivity|]. destruct (tx w); cbn; eauto.
Qed.

Lemma fetchRatings_inTx fault db lg ps acc w :
  inTx db w ->
  runs fault (fetchRatings lg ps acc) w (fun _ w' => inTx db w').
Proof.
  revert acc w; induction ps as [|p ps IH]; intros acc w Hw.
  - apply runs_ret. exact Hw.
  - cbn [fetchRatings]. apply runs_bind, runs_query; intros _.
    + apply inTx_fail, Hw.
    + apply IH. apply inTx_SelectRating, Hw.
Qed.

Lemma updateTeam_inTx formula fault db scrim ratings opp res team w :
  inTx db w ->
  runs fault (updateTeam formula scrim ratings opp res team) w
       (fun _ w' => inTx db w').
Proof.
  revert w; induction team as [|p team IH]; intros w Hw.
  - apply runs_ret. exact Hw.
  - cbn [updateTeam]. destruct (ratings !! PlayerRow.player_id p).
    2:{ apply runs_throw. exact Hw. }
    apply runs_bind. unfold updatePlayerRating.
    apply runs_bind, runs_query; intros _.
    + apply inTx_fail, Hw.
    + apply runs_query; intros _.
      * apply inTx_fail, inTx_Exec, Hw.
      * apply IH. apply inTx_Exec, inTx_Exec, Hw.
Qed.

Lemma rateScrim_error_store formula fault db scrimId scrim w :
  inTx db w ->
  runs fault (rateScrim formula scrimId scrim) w
       (fun r w' => isError r -> store w' = db).
Proof.
  intros Hw. unfold rateScrim.
  destruct (negb (truthy (Scrim.winner_team scrim))).
  { apply runs_throw. intros _. apply Hw. }
  apply runs_bind, runs_query; intros _.
  { intros _. apply Hw. }
  apply runs_bind.
  eapply runs_mono; [|apply (fetchRatings_inTx fault db); apply inTx_SelectPlayers, Hw].
  intros [e|ratings] w1 H1; [intros _; apply H1|].
  cbn zeta. destruct (_ || _).
  { apply runs_logger, runs_bind, runs_query; intros _.
    - intros _. apply H1.
    - apply runs_ret. intros []. }
  destruct (sumRatings _ _ _) as [sum1|]; [|apply runs_throw; intros _; apply H1].
  destruct (sumRatings _ _ _) as [sum2|]; [|apply runs_throw; intros _; apply H1].
  apply runs_bind.
  eapply runs_mono; [|apply (updateTeam_inTx formula fault db); exact H1].
  intros [e|[]] w2 H2; [intros _; apply H2|].
  apply runs_bind.
  eapply runs_mono; [|apply (updateTeam_inTx formula fault db); exact H2].
  intros [e|[]] w3 H3; [intros _; apply H3|].
  apply runs_bind, runs_query; intros _.
  { intros _. apply H3. }
  apply runs_bind, runs_query; intros _.
  { intros _. apply (inTx_Exec db (MarkProcessed scrimId) w3 H3). }
  apply runs_logger, runs_ret. intros [].
Qed.

Lemma processBody_error_store formula fault scrimId w :
  runs fault (processBody formula scrimId) w
       (fun r w' => isError r -> store w' = store w).
Proof.
  unfold processBody. apply runs_bind, runs_query; intros _.
  { intros _. reflexivity. }
  assert (H0 := inTx_BEGIN w).
  apply runs_bind, runs_query; intros _.
  { intros _. apply H0. }
  apply (inTx_SelectScrim (store w) scrimId) in H0.
  destruct (okValue (SelectScrim scrimId) (okWorld BEGIN w)) as [|scrim rest].
  { apply runs_throw. intros _. apply H0. }
  destruct (negb _).
  { apply runs_throw. intros _. apply H0. }
  destruct (Scrim.elo_processed scrim).
  { apply runs_logger, runs_bind, runs_query; intros _.
    - intros _. apply H0.
    - apply runs_ret. intros []. }
  apply rateScrim_error_store. exact H0.
Qed.

(** Atomicity: a call that ends in an error leaves the committed store as
    it found it. *)
Lemma processMatch_error_store formula fault scrimId w :
  isError (fst (run fault (processMatchWith formula scrimId) w)) ->
  store (snd (run fault (processMatchWith formula scrimId) w)) = store w.
Proof.
  unfold processMatchWith. rewrite run_bind, run_query.
  destruct (fault (calls w)); [intros _; reflexivity|].
  rewrite run_tryFinally_release, run_tryCatch.
  assert (Hb := processBody_error_store formula fault scrimId (okWorld GetClient w)).
  unfold runs in Hb.
  destruct (run fault (processBody formula scrimId) (okWorld GetClient w))
    as [[e|[]] w1]; cbn [fst snd] in *.
  - intros _. destruct (run_processHandler fault scrimId e w1) as [_ Hst].
    cbn [releaseWorld store]. rewrite Hst. apply Hb. exact I.
  - intros [].
Qed.

(** Every call either leaves the committed store as it was, or returns
    normally having committed the writes of the rating branch. *)
Lemma processMatch_store_cases formula fault scrimId w :
  let rw := run fault (processMatchWith formula scrimId) w in
  store (snd rw) = store w \/
  (fst rw = inr tt /\
   exists scrim, path (store w) scrimId = PRate scrim /\
     store (snd rw) =
       applyWrites (store w) (processWrites formula (store w) scrimId scrim)).
Proof.
  cbn zeta.
  destruct (fst (run fault (processMatchWith formula scrimId) w)) as [e|[]] eqn:Hr.
  - left. apply processMatch_error_store. rewrite Hr. exact I.
  - destruct (processMatch_returns_noFault formula fault scrimId w Hr) as [Heq _].
    rewrite Heq.
    destruct (processMatch_effect formula scrimId w) as (Hres & Hst & _).
    rewrite Hst. unfold effect.
    destruct (path (store w) scrimId) as [| | | | |scrim] eqn:Hp; cbn; auto.
    right. split; [reflexivity|eauto].
Qed.

Lemma processMatch_keeps_flag formula fault scrimId w m :
  processedFlag (store w) m = Some true ->
  processedFlag (store (snd (run fault (processMatchWith formula scrimId) w))) m
    = Some true.
Proof.
  intros Hm.
  destruct (processMatch_store_cases formula fault scrimId w)
    as [-> | (_ & scrim & _ & ->)]; [exact Hm|].
  apply processedFlag_applyWrites, Hm.
Qed.

Lemma path_processed db scrimId :
  processedFlag db scrimId = Some true ->
  path db scrimId = PNotCompleted \/ path db scrimId = PAlreadyProcessed.
Proof.
  unfold processedFlag, path, selectScrim.
  destruct (scrims db !! scrimId) as [s|]; [|discriminate].
  cbn. intros [= ->].
  destruct (negb (String.eqb (Scrim.status s) "completed")); auto.
Qed.

(** A call on a match whose flag is set changes nothing, whatever fails. *)
Lemma processMatch_processed_store formula fault scrimId w :
  processedFlag (store w) scrimId = Some true ->
  store (snd (run fault (processMatchWith formula scrimId) w)) = store w.
Proof.
  intros Hm.
  destruct (processMatch_store_cases formula fault scrimId w)
    as [H | (_ & scrim & Hp & _)]; [exact H|].
  destruct (path_processed _ _ Hm) as [H|H]; rewrite H in Hp; discriminate.
Qed.

Lemma scanRows_keeps_flag formula fault rows w m :
  processedFlag (store w) m = Some true ->
  processedFlag (store (snd (run fault (scanRows formula rows) w))) m = Some true.
Proof.
  revert w; induction rows as [|i rows IH]; intros w Hm; [exact Hm|].
  cbn [scanRows]. rewrite run_logger, run_bind.
  assert (H := processMatch_keeps_flag formula fault i (logWorld (InfoFound i) w) m Hm).
  destruct (run fault (processMatchWith formula i) (logWorld (InfoFound i) w))
    as [[e|[]] w1]; cbn [snd] in *; [exact H|].
  apply IH, H.
Qed.

Lemma pollCycle_keeps_flag formula fault w m :
  processedFlag (store w) m = Some true ->
  processedFlag (store (snd (run fault (pollCycleWith formula) w))) m = Some true.
Proof.
  intros Hm. unfold pollCycleWith.
  rewrite run_tryCatch, run_bind, run_query.
  destruct (fault (calls w)); [exact Hm|].
  rewrite run_tryFinally_release, run_bind, run_query.
  destruct (fault (calls (okWorld GetClient w))); [exact Hm|].
  cbn [fst snd].
  assert (H := scanRows_keeps_flag formula fault
                 (okValue SelectUnprocessed (okWorld GetClient w))
                 (okWorld SelectUnprocessed (okWorld GetClient w)) m Hm).
  destruct (run fault (scanRows formula _) _) as [[e|[]] w1]; exact H.
Qed.

(* ================================================================== *)
(** ** Reading the store after a call *)

Lemma upsertRow_current db q lg new b :
  upsertRow q lg new (b2z b) (b2z (negb b)) (b2z b) (b2z (negb b))
            (elo_ratings db !! (q, lg)) =
    Some (EloRating.mk q lg new
            (EloRating.wins (currentRating db lg q) + b2z b)
            (EloRating.losses (currentRating db lg q) + b2z (negb b))).
Proof.
  unfold currentRating, selectRating.
  destruct (elo_ratings db !! (q, lg)) as [r|]; reflexivity.
Qed.

Lemma filter_historyFor scrimId old new team q :
  NoDup (List.map PlayerRow.player_id team) ->
  List.filter (fun h => (EloHistory.scrim_id h =? scrimId)
                        && (EloHistory.player_id h =? q))
              (historyFor scrimId old new team) =
    if bool_decide (q ∈ List.map PlayerRow.player_id team)
    then [EloHistory.mk q scrimId (old q) (new q)]
    else [].
Proof.
  induction team as [|p team IH]; intros Hnd.
  - cbn [historyFor List.map List.filter].
    rewrite bool_decide_eq_false_2; [reflexivity|]. apply not_elem_of_nil.
  - cbn [List.map] in Hnd. apply NoDup_cons in Hnd as [Hnotin Hnd].
    cbn [historyFor List.map List.filter EloHistory.scrim_id EloHistory.player_id].
    fold (historyFor scrimId old new team). rewrite (IH Hnd).
    rewrite Z.eqb_refl. cbn [andb].
    destruct (Z.eqb_spec (PlayerRow.player_id p) q) as [Heq|Hne].
    + subst q.
      rewrite bool_decide_eq_false_2 by exact Hnotin.
      rewrite bool_decide_eq_true_2 by (apply elem_of_cons; auto).
      reflexivity.
    + destruct (bool_decide (q ∈ List.map PlayerRow.player_id team)) eqn:E.
      * apply bool_decide_eq_true in E.
        rewrite bool_decide_eq_true_2 by (apply elem_of_cons; auto). reflexivity.
      * apply bool_decide_eq_false in E.
        rewrite bool_decide_eq_false_2; [reflexivity|].
        intros [?|?]%elem_of_cons; [congruence|auto].
Qed.

Lemma selectUnprocessed_elem db i s :
  scrims db !! i = Some s ->
  Scrim.status s = "completed"%string ->
  Scrim.elo_processed s = false ->
  truthy (Scrim.winner_team s) = true ->
  i ∈ selectUnprocessed db.
Proof.
  intros Hs Hst Hp Hw. unfold selectUnprocessed.
  apply list_elem_of_In, in_map_iff. exists (i, s). split; [reflexivity|].
  apply filter_In. split.
  - apply list_elem_of_In, elem_of_map_to_list. exact Hs.
  - cbn [snd]. rewrite Hst, Hp.
    destruct (Scrim.winner_team s); [reflexivity|discriminate].
Qed.

Lemma path_incomplete db scrimId s :
  scrims db !! scrimId = Some s ->
  Scrim.status s = "completed"%string ->
  Scrim.elo_processed s = false ->
  truthy (Scrim.winner_team s) = true ->
  team1Of db scrimId = [] \/ team2Of db scrimId = [] ->
  path db scrimId = PIncompleteTeams.
Proof.
  intros Hs Hst Hp Hw Ht. unfold path, selectScrim. rewrite Hs.
  cbn [Scrim.status Scrim.elo_processed Scrim.winner_team].
  rewrite Hst, Hp, Hw. cbn [negb String.eqb].
  destruct Ht as [-> | ->]; [reflexivity|].
  rewrite orb_true_r. reflexivity.
Qed.

Lemma path_after_mark db scrimId s :
  scrims db !! scrimId = Some s ->
  Scrim.status s = "completed"%string ->
  Scrim.elo_processed s = true ->
  path db scrimId = PAlreadyProcessed.
Proof.
  intros Hs Hst Hp. unfold path, selectScrim. rewrite Hs.
  cbn [Scrim.status Scrim.elo_processed]. rewrite Hst, Hp. reflexivity.
Qed.

(** The fault-free run on a match that is ready: completed, unprocessed,
    winner declared, both teams non-empty. *)
Lemma processMatch_rated formula w scrimId scrim :
  path (store w) scrimId = PRate scrim ->
  let rw := run noFault (processMatchWith formula scrimId) w in
  fst rw = inr tt /\
  store (snd rw) = applyWrites (store w) (processWrites formula (store w) scrimId scrim) /\
  log (snd rw) = log w ++ [InfoProcessed scrimId] /\
  writesOf (trace (snd rw)) =
    writesOf (trace w) ++ processWrites formula (store w) scrimId scrim.
Proof.
  intros Hp. cbn zeta.
  destruct (processMatch_effect formula scrimId w) as (H1 & H2 & _ & H4 & H5).
  unfold effect in *. rewrite Hp in *. cbn [fst snd] in *. auto.
Qed.

(** The fault-free run on a match that takes a branch without writes. *)
Lemma processMatch_unrated formula w scrimId :
  (forall scrim, path (store w) scrimId <> PRate scrim) ->
  let rw := run noFault (processMatchWith formula scrimId) w in
  store (snd rw) = store w /\
  writesOf (trace (snd rw)) = writesOf (trace w).
Proof.
  intros Hp. cbn zeta.
  destruct (processMatch_effect formula scrimId w) as (_ & H2 & _ & _ & H5).
  unfold effect in *.
  destruct (path (store w) scrimId) as [| | | | |scrim]; cbn [fst snd] in *;
    rewrite ?app_nil_r in *; auto.
  exfalso. apply (Hp scrim). reflexivity.
Qed.

(* ================================================================== *)
(** ** Properties of the rating engine *)

(** C8. The processed flag is one-way.  Once the flag of a match [m] is
    true, it is still true after any call of processMatch (on any match,
    whatever fails during the call) and after any scan cycle; a call on
    [m] itself leaves the whole committed store unchanged and, when
    nothing fails, issues no writing statement.  The only change a call
    ever makes to a flag is from false to true, on the match it was called
    for, when it returns normally. *)
Theorem processed_flag_one_way (fault : nat -> bool) (w : World) (scrimId m : Z) :
  processedFlag (store w) m = Some true ->
  processedFlag (store (snd (run fault (processMatch scrimId) w))) m = Some true /\
  processedFlag (store (snd (run fault pollCycle w))) m = Some true /\
  store (snd (run fault (processMatch m) w)) = store w /\
  writesOf (trace (snd (run noFault (processMatch m) w))) = writesOf (trace w) /\
  (forall k,
     processedFlag (store (snd (run fault (processMatch scrimId) w))) k
       <> processedFlag (store w) k ->
     k = scrimId /\
     fst (run fault (processMatch scrimId) w) = inr tt /\
     processedFlag (store w) k = Some false /\
     processedFlag (store (snd (run fault (processMatch scrimId) w))) k = Some true).
Proof.
  intros Hm. unfold processMatch, pollCycle.
  split; [apply processMatch_keeps_flag, Hm|].
  split; [apply pollCycle_keeps_flag, Hm|].
  split; [apply processMatch_processed_store, Hm|].
  split.
  { apply processMatch_unrated. intros scrim Hp.
    destruct (path_processed _ _ Hm) as [H|H]; rewrite H in Hp; discriminate. }
  intros k Hk.
  destruct (processMatch_store_cases eloFormula fault scrimId w)
    as [Heq | (Hres & scrim & Hp & Heq)].
  { rewrite Heq in Hk. congruence. }
  destruct (path_PRate_inv _ _ _ Hp) as ((s & Hs & Hflag & Hscrim) & _).
  assert (Hid : Scrim.id scrim = scrimId) by (rewrite Hscrim; reflexivity).
  rewrite Heq in *. unfold processedFlag in *.
  rewrite (rated_scrims eloFormula (store w) scrimId scrim Hid) in *.
  destruct (decide (k = scrimId)) as [->|Hne].
  - rewrite lookup_alter_eq, Hs in *. cbn. rewrite Hflag. auto.
  - rewrite lookup_alter_ne in Hk by congruence. congruence.
Qed.

Lemma processed_flag_one_way_witness :
  processedFlag (store (initWorld processedDB)) 7 = Some true /\
  processedFlag
    (store (snd (run noFault (processMatch 7) (initWorld processedDB)))) 7 = Some true /\
  store (snd (run noFault (processMatch 7) (initWorld processedDB))) = processedDB.
Proof.
  assert (H : processedFlag (store (initWorld processedDB)) 7 = Some true)
    by reflexivity.
  split; [exact H|].
  destruct (processed_flag_one_way noFault (initWorld processedDB) 7 7 H)
    as (H1 & _ & H3 & _).
  split; [exact H1|exact H3].
Defined.

(** C7. For a completed, unprocessed match with a declared winner whose
    team 1 or team 2 is empty, processMatch returns normally (no error)
    with the warning of the skipped branch, issues no write, leaves the
    committed store and so the processed flag (false) as they were, and
    the match is still among those the next scan discovers. *)
Theorem incomplete_teams_skipped (w : World) (scrimId : Z) (s : Scrim.t) :
  scrims (store w) !! scrimId = Some s ->
  Scrim.status s = "completed"%string ->
  Scrim.elo_processed s = false ->
  truthy (Scrim.winner_team s) = true ->
  team1Of (store w) scrimId = [] \/ team2Of (store w) scrimId = [] ->
  fst (run noFault (processMatch scrimId) w) = inr tt /\
  log (snd (run noFault (processMatch scrimId) w)) =
    log w ++ [WarnMissingTeams scrimId] /\
  store (snd (run noFault (processMatch scrimId) w)) = store w /\
  writesOf (trace (snd (run noFault (processMatch scrimId) w))) = writesOf (trace w) /\
  processedFlag (store (snd (run noFault (processMatch scrimId) w))) scrimId
    = Some false /\
  scrimId ∈ selectUnprocessed (store (snd (run noFault (processMatch scrimId) w))).
Proof.
  intros Hs Hst Hp Hw Ht. unfold processMatch.
  assert (Hpath := path_incomplete _ _ _ Hs Hst Hp Hw Ht).
  destruct (processMatch_effect eloFormula scrimId w) as (H1 & H2 & _ & H4 & H5).
  unfold effect in *. rewrite Hpath in *. cbn [fst snd] in H1, H2, H4, H5.
  rewrite app_nil_r in H5. rewrite H1, H2, H4, H5.
  repeat split; try reflexivity.
  - unfold processedFlag. rewrite Hs. cbn. rewrite Hp. reflexivity.
  - eapply selectUnprocessed_elem; eauto.
Qed.

Lemma incomplete_teams_skipped_witness :
  fst (run noFault (processMatch 8) (initWorld teamlessDB)) = inr tt /\
  store (snd (run noFault (processMatch 8) (initWorld teamlessDB))) = teamlessDB /\
  processedFlag (store (snd (run noFault (processMatch 8) (initWorld teamlessDB)))) 8
    = Some false.
Proof.
  destruct (incomplete_teams_skipped (initWorld teamlessDB) 8
              (Scrim.mk 8 "completed" Master (Some 2) false))
    as (H1 & _ & H3 & _ & H5 & _).
  - reflexivity.
  - reflexivity.
  - reflexivity.
  - reflexivity.
  - left. reflexivity.
  - split; [exact H1|]. split; [exact H3|exact H5].
Defined.

(** What a successful processing leaves for a player who is on team [n]
    only. *)
Lemma rated_player formula db scrimId scrim n q :
  Scrim.id scrim = scrimId ->
  n = 1 \/ n = 2 ->
  q ∈ teamIds db scrimId n ->
  q ∉ teamIds db scrimId (3 - n) ->
  let db' := applyWrites db (processWrites formula db scrimId scrim) in
  let lg := Scrim.league scrim in
  ratingOf db' q lg =
    Some (EloRating.mk q lg (newRating formula db scrimId scrim n q)
            (EloRating.wins (currentRating db lg q) + b2z (teamWon scrim n))
            (EloRating.losses (currentRating db lg q) + b2z (negb (teamWon scrim n)))) /\
  historyOf db' scrimId q =
    historyOf db scrimId q ++
    [EloHistory.mk q scrimId (oldRating db lg q)
                   (newRating formula db scrimId scrim n q)].
Proof.
  intros Hid Hn Hin Hout. cbn zeta. split.
  - unfold ratingOf. rewrite (rated_ratings formula db scrimId scrim Hid).
    rewrite bool_decide_eq_true_2 by reflexivity. unfold upsertFor.
    destruct Hn as [-> | ->]; change (3 - 1) with 2 in Hout;
      change (3 - 2) with 1 in Hout.
    + rewrite (bool_decide_eq_true_2 _ Hin), (bool_decide_eq_false_2 _ Hout).
      apply upsertRow_current.
    + rewrite (bool_decide_eq_true_2 _ Hin), (bool_decide_eq_false_2 _ Hout).
      apply upsertRow_current.
  - unfold historyOf. rewrite (rated_history formula db scrimId scrim Hid).
    rewrite !List.filter_app.
    rewrite !filter_historyFor by apply NoDup_team_ids.
    fold (team1Of db scrimId) (team2Of db scrimId).
    change (List.map PlayerRow.player_id (team1Of db scrimId))
      with (teamIds db scrimId 1).
    change (List.map PlayerRow.player_id (team2Of db scrimId))
      with (teamIds db scrimId 2).
    destruct Hn as [-> | ->]; change (3 - 1) with 2 in Hout;
      change (3 - 2) with 1 in Hout.
    + rewrite (bool_decide_eq_true_2 _ Hin), (bool_decide_eq_false_2 _ Hout).
      rewrite app_nil_r. reflexivity.
    + rewrite (bool_decide_eq_true_2 _ Hin), (bool_decide_eq_false_2 _ Hout).
      reflexivity.
Qed.

(** C2. processMatch is idempotent in sequence.  On a completed match with
    a declared winner and two non-empty teams, a first call returns with
    the Processed log line and a second call returns with the
    AlreadyProcessed one, issues no write and leaves the store as the
    first call left it.  Afterwards the history holds, beyond what it held
    before, exactly one entry per row of team 1 and of team 2; and a
    participant listed on one team only has exactly one entry more for
    this match and a rating record with the new rating, one more win and
    no more losses if the team won, one more loss and no more wins if it
    did not. *)
Theorem processMatch_idempotent (w : World) (scrimId : Z) (s : Scrim.t) :
  scrims (store w) !! scrimId = Some s ->
  Scrim.status s = "completed"%string ->
  Scrim.elo_processed s = false ->
  truthy (Scrim.winner_team s) = true ->
  team1Of (store w) scrimId <> [] ->
  team2Of (store w) scrimId <> [] ->
  let db := store w in
  let lg := Scrim.league s in
  let won := fun n : Z => bool_decide (Scrim.winner_team s = Some n) in
  let new := fun n q : Z =>
    eloFormula (EloRating.rating (currentRating db lg q))
               (teamAvg (ratingsOf db scrimId lg) (opponentsOf db scrimId n))
               (if won n then 1 else 0) in
  let w1 := snd (run noFault (processMatch scrimId) w) in
  let w2 := snd (run noFault (processMatch scrimId) w1) in
  fst (run noFault (processMatch scrimId) w) = inr tt /\
  log w1 = log w ++ [InfoProcessed scrimId] /\
  fst (run noFault (processMatch scrimId) w1) = inr tt /\
  log w2 = log w1 ++ [InfoAlreadyProcessed scrimId] /\
  store w2 = store w1 /\
  writesOf (trace w2) = writesOf (trace w1) /\
  processedFlag (store w2) scrimId = Some true /\
  elo_history (store w2) =
    elo_history db ++
    List.map (fun p => EloHistory.mk (PlayerRow.player_id p) scrimId
                         (EloRating.rating (currentRating db lg (PlayerRow.player_id p)))
                         (new 1 (PlayerRow.player_id p)))
             (team1Of db scrimId) ++
    List.map (fun p => EloHistory.mk (PlayerRow.player_id p) scrimId
                         (EloRating.rating (currentRating db lg (PlayerRow.player_id p)))
                         (new 2 (PlayerRow.player_id p)))
             (team2Of db scrimId) /\
  (forall n q,
     n = 1 \/ n = 2 ->
     q ∈ teamIds db scrimId n ->
     q ∉ teamIds db scrimId (3 - n) ->
     historyOf (store w2) scrimId q =
       historyOf db scrimId q ++
       [EloHistory.mk q scrimId (EloRating.rating (currentRating db lg q)) (new n q)] /\
     ratingOf (store w2) q lg =
       Some (EloRating.mk q lg (new n q)
               (EloRating.wins (currentRating db lg q) + (if won n then 1 else 0))
               (EloRating.losses (currentRating db lg q)
                + (if won n then 0 else 1)))).
Proof.
  intros Hs Hst Hp Hw Ht1 Ht2. cbn zeta. unfold processMatch.
  assert (Hpath := path_PRate_intro _ _ _ Hs Hst Hp Hw Ht1 Ht2).
  set (scrim := Scrim.mk scrimId (Scrim.status s) (Scrim.league s)
                         (Scrim.winner_team s) false) in *.
  assert (Hid : Scrim.id scrim = scrimId) by reflexivity.
  destruct (processMatch_rated eloFormula w scrimId scrim Hpath)
    as (Hr1 & Hst1 & Hlog1 & _).
  set (w1 := snd (run noFault (processMatchWith eloFormula scrimId) w)) in *.
  assert (Hs1 : scrims (store w1) !! scrimId = Some (markRow s)).
  { rewrite Hst1, (rated_scrims eloFormula (store w) scrimId scrim Hid).
    rewrite lookup_alter_eq, Hs. reflexivity. }
  assert (Hpath1 : path (store w1) scrimId = PAlreadyProcessed).
  { apply (path_after_mark _ _ _ Hs1); [exact Hst|reflexivity]. }
  destruct (processMatch_effect eloFormula scrimId w1) as (Hr2 & Hst2 & _ & Hlog2 & Htr2).
  unfold effect in Hr2, Hst2, Hlog2, Htr2. rewrite Hpath1 in Hr2, Hst2, Hlog2, Htr2.
  cbn [fst snd] in Hr2, Hst2, Hlog2, Htr2. rewrite app_nil_r in Htr2.
  split; [exact Hr1|]. split; [exact Hlog1|].
  split; [exact Hr2|]. split; [exact Hlog2|].
  split; [exact Hst2|]. split; [exact Htr2|].
  rewrite Hst2.
  split. { unfold processedFlag. rewrite Hs1. reflexivity. }
  rewrite Hst1.
  split. { exact (rated_history eloFormula (store w) scrimId scrim Hid). }
  intros n q Hn Hin Hout.
  destruct (rated_player eloFormula (store w) scrimId scrim n q Hid Hn Hin Hout)
    as [Hrat Hhist].
  split; [exact Hhist|].
  change (Scrim.league scrim) with (Scrim.league s) in Hrat. rewrite Hrat.
  unfold newRating, oldRating, teamWon, b2z.
  change (Scrim.winner_team scrim) with (Scrim.winner_team s).
  change (Scrim.league scrim) with (Scrim.league s).
  destruct (bool_decide (Scrim.winner_team s = Some n)); reflexivity.
Qed.

Lemma processMatch_idempotent_witness :
  fst (run noFault (processMatch 7) (initWorld exampleDB)) = inr tt /\
  log (snd (run noFault (processMatch 7)
              (snd (run noFault (processMatch 7) (initWorld exampleDB))))) =
    [InfoProcessed 7; InfoAlreadyProcessed 7] /\
  length (elo_history
            (store (snd (run noFault (processMatch 7)
                           (snd (run noFault (processMatch 7)
                                   (initWorld exampleDB))))))) = 4%nat /\
  exists r,
    ratingOf (store (snd (run noFault (processMatch 7)
                            (snd (run noFault (processMatch 7)
                                    (initWorld exampleDB)))))) 1 Academy = Some r /\
    EloRating.wins r = 1 /\ EloRating.losses r = 0.
Proof.
  destruct (processMatch_idempotent (initWorld exampleDB) 7 scrim7)
    as (H1 & H2 & _ & H4 & _ & _ & _ & H8 & H9).
  - reflexivity.
  - reflexivity.
  - reflexivity.
  - reflexivity.
  - vm_compute. discriminate.
  - vm_compute. discriminate.
  - split; [exact H1|]. split; [|split].
    + rewrite H4, H2. reflexivity.
    + rewrite H8. reflexivity.
    + destruct (H9 1 1) as [_ Hr].
      * left. reflexivity.
      * vm_compute. apply elem_of_cons. left. reflexivity.
      * vm_compute. intros H. apply elem_of_cons in H as [H|H]; [discriminate|].
        apply elem_of_cons in H as [H|H]; [discriminate|].
        apply not_elem_of_nil in H. exact H.
      * eexists. split; [exact Hr|]. split; reflexivity.
Defined.

(** On scrim 13 the participants query lists player 1 on team 1 and on
    team 2.  The scrim is completed, team 1 is the declared winner and both
    teams are non-empty; the first call processes it and the second finds
    it processed.  Afterwards player 1 has two history entries for the
    scrim, and a rating record with one win and one loss. *)
Lemma both_teams_rated_twice :
  let w1 := snd (run noFault (processMatch 13) (initWorld switchedDB)) in
  let w2 := snd (run noFault (processMatch 13) w1) in
  scrims switchedDB !! 13 = Some (Scrim.mk 13 "completed" Academy (Some 1) false) /\
  List.map PlayerRow.player_id (team1Of switchedDB 13) = [1; 2] /\
  List.map PlayerRow.player_id (team2Of switchedDB 13) = [1; 3] /\
  fst (run noFault (processMatch 13) (initWorld switchedDB)) = inr tt /\
  fst (run noFault (processMatch 13) w1) = inr tt /\
  log w2 = [InfoProcessed 13; InfoAlreadyProcessed 13] /\
  length (historyOf (store w2) 13 1) = 2%nat /\
  exists r, ratingOf (store w2) 1 Academy = Some r /\
    EloRating.wins r = 1 /\ EloRating.losses r = 1.
Proof.
  cbn zeta. unfold processMatch. generalize eloFormula. intros f.
  split; [reflexivity|].
  split; [vm_compute; reflexivity|]. split; [vm_compute; reflexivity|].
  split; [vm_compute; reflexivity|]. split; [vm_compute; reflexivity|].
  split; [vm_compute; reflexivity|]. split; [vm_compute; reflexivity|].
  eexists. split; [vm_compute; reflexivity|]. split; reflexivity.
Qed.

Lemma currentRating_absent db lg q :
  ratingOf db q lg = None -> currentRating db lg q = defaultRating q lg.
Proof.
  unfold ratingOf, currentRating, selectRating. intros ->. reflexivity.
Qed.

Lemma teamIds_row db scrimId n q :
  n = 1 \/ n = 2 ->
  q ∈ teamIds db scrimId n ->
  PlayerRow.mk q (Some n) ∈ List.filter (isTeam n) (selectPlayers db scrimId).
Proof.
  intros Hn Hq. unfold teamIds, team1Of, team2Of in Hq.
  assert (Hq' : q ∈ List.map PlayerRow.player_id
                      (List.filter (isTeam n) (selectPlayers db scrimId)))
    by (destruct Hn as [-> | ->]; exact Hq).
  apply list_elem_of_In, in_map_iff in Hq' as [p [Hp Hin]].
  apply list_elem_of_In.
  assert (Ht : PlayerRow.team_id p = Some n).
  { apply filter_In in Hin as [_ Hin]. apply isTeam_true, Hin. }
  destruct p as [pi pt]. cbn in Hp, Ht. subst. exact Hin.
Qed.

(** C9. A participant listed on one team only, with no rating record in
    the league of the match, is taken into the computation with the
    default record: rating 1000, no wins, no losses.  The default itself
    is never written: a call that fails leaves the player without a
    record, and the record that a successful processing creates holds the
    new rating computed from 1000 and the counters of this one match (one
    win and no loss, or one loss and no win), with a history entry from
    1000 to the new rating. *)
Theorem default_rating_lazily_created (w : World) (scrimId : Z) (s : Scrim.t)
    (n q : Z) :
  scrims (store w) !! scrimId = Some s ->
  Scrim.status s = "completed"%string ->
  Scrim.elo_processed s = false ->
  truthy (Scrim.winner_team s) = true ->
  team1Of (store w) scrimId <> [] ->
  team2Of (store w) scrimId <> [] ->
  n = 1 \/ n = 2 ->
  q ∈ teamIds (store w) scrimId n ->
  q ∉ teamIds (store w) scrimId (3 - n) ->
  ratingOf (store w) q (Scrim.league s) = None ->
  let db := store w in
  let lg := Scrim.league s in
  let won := bool_decide (Scrim.winner_team s = Some n) in
  let new := eloFormula 1000
               (teamAvg (ratingsOf db scrimId lg) (opponentsOf db scrimId n))
               (if won then 1 else 0) in
  ratingsOf db scrimId lg !! q = Some (EloRating.mk q lg 1000 0 0) /\
  (forall fault,
     isError (fst (run fault (processMatch scrimId) w)) ->
     ratingOf (store (snd (run fault (processMatch scrimId) w))) q lg = None) /\
  fst (run noFault (processMatch scrimId) w) = inr tt /\
  ratingOf (store (snd (run noFault (processMatch scrimId) w))) q lg =
    Some (EloRating.mk q lg new (if won then 1 else 0) (if won then 0 else 1)) /\
  historyOf (store (snd (run noFault (processMatch scrimId) w))) scrimId q =
    historyOf db scrimId q ++ [EloHistory.mk q scrimId 1000 new].
Proof.
  intros Hs Hst Hp Hw Ht1 Ht2 Hn Hin Hout Hnone. cbn zeta. unfold processMatch.
  assert (Hpath := path_PRate_intro _ _ _ Hs Hst Hp Hw Ht1 Ht2).
  set (scrim := Scrim.mk scrimId (Scrim.status s) (Scrim.league s)
                         (Scrim.winner_team s) false) in *.
  assert (Hid : Scrim.id scrim = scrimId) by reflexivity.
  assert (Hcur := currentRating_absent _ _ _ Hnone).
  split.
  { erewrite (ratingsOf_team _ _ _ n (PlayerRow.mk q (Some n))).
    - cbn [PlayerRow.player_id]. rewrite Hcur. reflexivity.
    - apply teamIds_row; assumption. }
  split.
  { intros fault Herr.
    rewrite (processMatch_error_store eloFormula fault scrimId w Herr).
    exact Hnone. }
  destruct (processMatch_rated eloFormula w scrimId scrim Hpath)
    as (Hr1 & Hst1 & _ & _).
  split; [exact Hr1|]. rewrite Hst1.
  destruct (rated_player eloFormula (store w) scrimId scrim n q Hid Hn Hin Hout)
    as [Hrat Hhist].
  change (Scrim.league scrim) with (Scrim.league s) in Hrat, Hhist.
  unfold newRating, oldRating in Hrat, Hhist.
  change (Scrim.league scrim) with (Scrim.league s) in Hrat, Hhist.
  rewrite Hcur in Hrat, Hhist. cbn [defaultRating EloRating.rating EloRating.wins
    EloRating.losses] in Hrat, Hhist.
  rewrite !Z.add_0_l in Hrat.
  split; [|exact Hhist]. rewrite Hrat.
  unfold teamWon, b2z.
  change (Scrim.winner_team scrim) with (Scrim.winner_team s).
  destruct (bool_decide (Scrim.winner_team s = Some n)); reflexivity.
Qed.

Lemma default_rating_lazily_created_witness :
  ratingOf exampleDB 3 Academy = None /\
  ratingOf (store (snd (run noFault (processMatch 7) (initWorld exampleDB)))) 3 Academy =
    Some (EloRating.mk 3 Academy
            (eloFormula 1000
               (teamAvg (ratingsOf exampleDB 7 Academy) (opponentsOf exampleDB 7 2))
               0)
            0 1).
Proof.
  split; [reflexivity|].
  destruct (default_rating_lazily_created (initWorld exampleDB) 7 scrim7 2 3)
    as (_ & _ & _ & H & _).
  - reflexivity.
  - reflexivity.
  - reflexivity.
  - reflexivity.
  - vm_compute. discriminate.
  - vm_compute. discriminate.
  - right. reflexivity.
  - vm_compute. apply elem_of_cons. left. reflexivity.
  - vm_compute. intros H. apply elem_of_cons in H as [H|H]; [discriminate|].
    apply elem_of_cons in H as [H|H]; [discriminate|].
    apply not_elem_of_nil in H. exact H.
  - reflexivity.
  - exact H.
Defined.

(** Player 5 took part in scrim 9 and has no stats row, so the participants
    query gives the player a NULL team.  The player has no rating record;
    the loop of step 3 reads the default record for the player all the
    same.  The scrim is processed and flagged, and player 5 still has no
    rating record and no history entry.  On scrim 13 player 1, without a
    rating record and listed on both teams, gets a record that counts a
    win and a loss for the one match. *)
Lemma unassigned_participant_gets_no_record :
  let rw := run noFault (processMatch 9) (initWorld partialDB) in
  let rw13 := run noFault (processMatch 13) (initWorld switchedDB) in
  List.map ScrimPlayer.player_id
    (List.filter (fun sp => ScrimPlayer.scrim_id sp =? 9) (scrim_players partialDB))
    = [1; 2; 5] /\
  selectPlayers partialDB 9 =
    [PlayerRow.mk 1 (Some 1); PlayerRow.mk 2 (Some 2); PlayerRow.mk 5 None] /\
  ratingOf partialDB 5 Champion = None /\
  ratingsOf partialDB 9 Champion !! 5 = Some (EloRating.mk 5 Champion 1000 0 0) /\
  fst rw = inr tt /\
  log (snd rw) = [InfoProcessed 9] /\
  processedFlag (store (snd rw)) 9 = Some true /\
  ratingOf (store (snd rw)) 5 Champion = None /\
  historyOf (store (snd rw)) 9 5 = [] /\
  ratingOf switchedDB 1 Academy = None /\
  fst rw13 = inr tt /\
  exists r, ratingOf (store (snd rw13)) 1 Academy = Some r /\
    EloRating.wins r = 1 /\ EloRating.losses r = 1.
Proof.
  cbn zeta. unfold processMatch. generalize eloFormula. intros f.
  do 11 (split; [vm_compute; reflexivity|]).
  eexists. split; [vm_compute; reflexivity|]. split; reflexivity.
Qed.

(** The LEFT JOIN gives a player a NULL team only when the player has no
    stats row for the scrim, hence no row with a team. *)
Lemma selectPlayers_null_only db scrimId q t :
  PlayerRow.mk q None ∈ selectPlayers db scrimId ->
  PlayerRow.mk q (Some t) ∉ selectPlayers db scrimId.
Proof.
  unfold selectPlayers. rewrite !elem_of_remove_dups.
  intros H1%list_elem_of_In H2%list_elem_of_In.
  apply in_flat_map in H1 as [sp1 [Hsp1 Hrow1]].
  apply in_flat_map in H2 as [sp2 [Hsp2 Hrow2]].
  apply filter_In in Hsp1 as [_ Hid1]. apply filter_In in Hsp2 as [_ Hid2].
  apply Z.eqb_eq in Hid1, Hid2.
  unfold joinStats in Hrow1, Hrow2.
  destruct (List.filter _ _) as [|m1 ms1] eqn:E1 in Hrow1.
  - destruct (List.filter _ _) as [|m2 ms2] eqn:E2 in Hrow2.
    + destruct Hrow2 as [Heq|[]]. discriminate.
    + apply in_map_iff in Hrow2 as [m [Hm _]].
      destruct Hrow1 as [Heq|[]].
      injection Heq as Hq1. injection Hm as Hq2 _.
      rewrite Hid1, Hq1 in E1. rewrite Hid2, Hq2 in E2.
      rewrite E1 in E2. discriminate.
  - apply in_map_iff in Hrow1 as [m [Hm _]]. discriminate.
Qed.

Lemma null_team_unrated db scrimId q n :
  n = 1 \/ n = 2 ->
  PlayerRow.mk q None ∈ selectPlayers db scrimId ->
  q ∉ teamIds db scrimId n.
Proof.
  intros Hn Hnull Hin.
  apply (teamIds_row _ _ _ _ Hn) in Hin.
  apply list_elem_of_In, filter_In in Hin as [Hin _].
  apply list_elem_of_In in Hin.
  exact (selectPlayers_null_only _ _ _ _ Hnull Hin).
Qed.

(** C10. When both teams are non-empty, a participant whose team is NULL
    is on neither team: the processing gives them no rating update (their
    record, in every league, is what it was), no history entry, and still
    sets the processed flag, so that every later call on the match,
    whatever fails during it, leaves the store as it is: the participant
    is never rated for this match. *)
Theorem unassigned_participant_never_rated (w : World) (scrimId : Z)
    (s : Scrim.t) (q : Z) :
  scrims (store w) !! scrimId = Some s ->
  Scrim.status s = "completed"%string ->
  Scrim.elo_processed s = false ->
  truthy (Scrim.winner_team s) = true ->
  team1Of (store w) scrimId <> [] ->
  team2Of (store w) scrimId <> [] ->
  PlayerRow.mk q None ∈ selectPlayers (store w) scrimId ->
  let w1 := snd (run noFault (processMatch scrimId) w) in
  fst (run noFault (processMatch scrimId) w) = inr tt /\
  log w1 = log w ++ [InfoProcessed scrimId] /\
  (forall lg, ratingOf (store w1) q lg = ratingOf (store w) q lg) /\
  historyOf (store w1) scrimId q = historyOf (store w) scrimId q /\
  processedFlag (store w1) scrimId = Some true /\
  (forall fault,
     store (snd (run fault (processMatch scrimId) w1)) = store w1).
Proof.
  intros Hs Hst Hp Hw Ht1 Ht2 Hnull. cbn zeta. unfold processMatch.
  assert (Hpath := path_PRate_intro _ _ _ Hs Hst Hp Hw Ht1 Ht2).
  set (scrim := Scrim.mk scrimId (Scrim.status s) (Scrim.league s)
                         (Scrim.winner_team s) false) in *.
  assert (Hid : Scrim.id scrim = scrimId) by reflexivity.
  assert (Hn1 : q ∉ teamIds (store w) scrimId 1)
    by (apply null_team_unrated; auto).
  assert (Hn2 : q ∉ teamIds (store w) scrimId 2)
    by (apply null_team_unrated; auto).
  destruct (processMatch_rated eloFormula w scrimId scrim Hpath)
    as (Hr1 & Hst1 & Hlog1 & _).
  split; [exact Hr1|]. split; [exact Hlog1|].
  assert (Hflag : processedFlag
                    (store (snd (run noFault (processMatchWith eloFormula scrimId) w)))
                    scrimId = Some true).
  { rewrite Hst1. unfold processedFlag.
    rewrite (rated_scrims eloFormula (store w) scrimId scrim Hid).
    rewrite lookup_alter_eq, Hs. reflexivity. }
  split.
  { intros lg. rewrite Hst1. unfold ratingOf.
    rewrite (rated_ratings eloFormula (store w) scrimId scrim Hid).
    unfold upsertFor.
    rewrite (bool_decide_eq_false_2 _ Hn1), (bool_decide_eq_false_2 _ Hn2).
    destruct (bool_decide (lg = Scrim.league scrim)) eqn:E; [|reflexivity].
    apply bool_decide_eq_true in E. rewrite E. reflexivity. }
  split.
  { rewrite Hst1. unfold historyOf.
    rewrite (rated_history eloFormula (store w) scrimId scrim Hid).
    rewrite !List.filter_app, !filter_historyFor by apply NoDup_team_ids.
    fold (team1Of (store w) scrimId) (team2Of (store w) scrimId).
    change (List.map PlayerRow.player_id (team1Of (store w) scrimId))
      with (teamIds (store w) scrimId 1).
    change (List.map PlayerRow.player_id (team2Of (store w) scrimId))
      with (teamIds (store w) scrimId 2).
    rewrite (bool_decide_eq_false_2 _ Hn1), (bool_decide_eq_false_2 _ Hn2).
    rewrite !app_nil_r. reflexivity. }
  split; [exact Hflag|].
  intros fault. apply processMatch_processed_store, Hflag.
Qed.

Lemma unassigned_participant_never_rated_witness :
  PlayerRow.mk 5 None ∈ selectPlayers partialDB 9 /\
  ratingOf (store (snd (run noFault (processMatch 9) (initWorld partialDB)))) 5 Champion
    = None /\
  processedFlag (store (snd (run noFault (processMatch 9) (initWorld partialDB)))) 9
    = Some true.
Proof.
  assert (H5 : PlayerRow.mk 5 None ∈ selectPlayers partialDB 9).
  { vm_compute. do 2 (apply elem_of_cons; right). apply elem_of_cons. left.
    reflexivity. }
  split; [exact H5|].
  destruct (unassigned_participant_never_rated (initWorld partialDB) 9
              (Scrim.mk 9 "completed" Champion (Some 2) false) 5)
    as (_ & _ & H3 & _ & H5' & _).
  - reflexivity.
  - reflexivity.
  - reflexivity.
  - reflexivity.
  - vm_compute. discriminate.
  - vm_compute. discriminate.
  - exact H5.
  - split; [rewrite H3; reflexivity|exact H5'].
Defined.

(* ================================================================== *)
(** ** The rating formula *)

Lemma Math_round_IZR (z : Z) : Math_round (IZR z) = z.
Proof.
  unfold Math_round. apply Zfloor_eq. lra.
Qed.

(** Against an opponent average equal to the player's own rating the
    expected score is one half: a win gives +16, a loss -16. *)
Lemma calculateNewRating_even (currentRating : Z) (opponentRating : R) :
  opponentRating = IZR currentRating ->
  calculateNewRating currentRating opponentRating 1 = currentRating + 16 /\
  calculateNewRating currentRating opponentRating 0 = currentRating - 16.
Proof.
  intros ->. unfold calculateNewRating, Math_pow10, K.
  replace ((IZR currentRating - IZR currentRating) / 400)%R with 0%R by lra.
  rewrite Rpower_O by lra.
  split.
  - replace (IZR currentRating + 32 * (1 - 1 / (1 + 1)))%R
      with (IZR (currentRating + 16)) by (rewrite plus_IZR; lra).
    apply Math_round_IZR.
  - replace (IZR currentRating + 32 * (0 - 1 / (1 + 1)))%R
      with (IZR (currentRating - 16)) by (rewrite minus_IZR; lra).
    apply Math_round_IZR.
Qed.

Lemma eloFormula_even (currentRating : Z) (opponentAvg : Q) :
  Qeq opponentAvg (inject_Z currentRating) ->
  eloFormula currentRating opponentAvg 1 = currentRating + 16 /\
  eloFormula currentRating opponentAvg 0 = currentRating - 16.
Proof.
  intros H. unfold eloFormula. apply calculateNewRating_even.
  rewrite (Qeq_eqR _ _ H). unfold Q2R, inject_Z. cbn. lra.
Qed.

(** A 600-rated winner against an average of 1000: expected score 1/11. *)
Lemma calculateNewRating_600 :
  calculateNewRating 600 1000 1 = 629.
Proof.
  unfold calculateNewRating, Math_pow10, K, Math_round.
  replace ((1000 - 600) / 400)%R with 1%R by lra.
  rewrite Rpower_1 by lra.
  apply Zfloor_eq. lra.
Qed.

Lemma eloFormula_600 (opponentAvg : Q) :
  Qeq opponentAvg (inject_Z 1000) -> eloFormula 600 opponentAvg 1 = 629.
Proof.
  intros H. unfold eloFormula.
  replace (Q2R opponentAvg) with 1000%R; [apply calculateNewRating_600|].
  rewrite (Qeq_eqR _ _ H). unfold Q2R, inject_Z. cbn. lra.
Qed.

(** C6, as stated, fails: both team averages of scrim 6 are 1000 and team 1
    is the declared winner, yet player 1 of team 1 ends at 629, not 1016. *)
Lemma equal_averages_counterexample :
  Scrim.winner_team scrim6 = Some 1 /\
  Qeq (teamAvg (ratingsOf unevenDB 6 Academy) (team1Of unevenDB 6)) (inject_Z 1000) /\
  Qeq (teamAvg (ratingsOf unevenDB 6 Academy) (team2Of unevenDB 6)) (inject_Z 1000) /\
  1 ∈ teamIds unevenDB 6 1 /\
  fst (run noFault (processMatch 6) (initWorld unevenDB)) = inr tt /\
  EloRating.rating <$>
    ratingOf (store (snd (run noFault (processMatch 6) (initWorld unevenDB)))) 1 Academy
    = Some 629 /\
  629 <> 1016.
Proof.
  assert (Ha1 : Qeq (teamAvg (ratingsOf unevenDB 6 Academy) (team1Of unevenDB 6))
                    (inject_Z 1000)) by (vm_compute; reflexivity).
  assert (Ha2 : Qeq (teamAvg (ratingsOf unevenDB 6 Academy) (team2Of unevenDB 6))
                    (inject_Z 1000)) by (vm_compute; reflexivity).
  assert (Hin : 1 ∈ teamIds unevenDB 6 1)
    by (vm_compute; apply elem_of_cons; left; reflexivity).
  assert (Hout : 1 ∉ teamIds unevenDB 6 (3 - 1)).
  { vm_compute. intros H. apply elem_of_cons in H as [H|H]; [discriminate|].
    apply elem_of_cons in H as [H|H]; [discriminate|].
    apply not_elem_of_nil in H. exact H. }
  assert (Hpath : path (store (initWorld unevenDB)) 6 = PRate scrim6)
    by (vm_compute; reflexivity).
  destruct (processMatch_rated eloFormula (initWorld unevenDB) 6 scrim6 Hpath)
    as (Hr & Hst & _ & _).
  destruct (rated_player eloFormula unevenDB 6 scrim6 1 1 eq_refl
              (or_introl eq_refl) Hin Hout) as [Hrat _].
  repeat (split; [first [reflexivity|assumption]|]).
  split; [|discriminate].
  unfold processMatch. rewrite Hst. cbn [initWorld store].
  change (Scrim.league scrim6) with Academy in Hrat.
  rewrite Hrat. cbn [fmap option_fmap option_map EloRating.rating].
  f_equal. unfold newRating.
  change (oldRating unevenDB (Scrim.league scrim6) 1) with 600.
  change (b2z (teamWon scrim6 1)) with 1.
  apply eloFormula_600. exact Ha2.
Qed.

(** C6, amended.  When both team averages are 1000 and team 1 is the
    declared winner, the processing gives 1016 to every participant of
    team 1 (not also listed on team 2) whose own pre-match rating is 1000,
    and 984 to every participant of team 2 whose own pre-match rating is
    1000: the formula compares the player's own rating, not the average of
    the player's team, with the average of the opponents. *)
Theorem equal_teams_rating_change (w : World) (scrimId : Z) (s : Scrim.t) :
  scrims (store w) !! scrimId = Some s ->
  Scrim.status s = "completed"%string ->
  Scrim.elo_processed s = false ->
  Scrim.winner_team s = Some 1 ->
  team1Of (store w) scrimId <> [] ->
  team2Of (store w) scrimId <> [] ->
  Qeq (teamAvg (ratingsOf (store w) scrimId (Scrim.league s)) (team1Of (store w) scrimId))
      (inject_Z 1000) ->
  Qeq (teamAvg (ratingsOf (store w) scrimId (Scrim.league s)) (team2Of (store w) scrimId))
      (inject_Z 1000) ->
  let db := store w in
  let lg := Scrim.league s in
  let w1 := snd (run noFault (processMatch scrimId) w) in
  fst (run noFault (processMatch scrimId) w) = inr tt /\
  (forall q,
     q ∈ teamIds db scrimId 1 -> q ∉ teamIds db scrimId 2 ->
     oldRating db lg q = 1000 ->
     EloRating.rating <$> ratingOf (store w1) q lg = Some 1016) /\
  (forall q,
     q ∈ teamIds db scrimId 2 ->
     oldRating db lg q = 1000 ->
     EloRating.rating <$> ratingOf (store w1) q lg = Some 984).
Proof.
  intros Hs Hst Hp Hw Ht1 Ht2 Ha1 Ha2. cbn zeta. unfold processMatch.
  assert (Htruthy : truthy (Scrim.winner_team s) = true) by (rewrite Hw; reflexivity).
  assert (Hpath := path_PRate_intro _ _ _ Hs Hst Hp Htruthy Ht1 Ht2).
  set (scrim := Scrim.mk scrimId (Scrim.status s) (Scrim.league s)
                         (Scrim.winner_team s) false) in *.
  assert (Hid : Scrim.id scrim = scrimId) by reflexivity.
  destruct (processMatch_rated eloFormula w scrimId scrim Hpath)
    as (Hr & Hst1 & _ & _).
  split; [exact Hr|]. rewrite Hst1.
  assert (Hwon1 : b2z (teamWon scrim 1) = 1).
  { unfold teamWon, scrim. cbn [Scrim.winner_team]. rewrite Hw. reflexivity. }
  assert (Hwon2 : b2z (teamWon scrim 2) = 0).
  { unfold teamWon, scrim. cbn [Scrim.winner_team]. rewrite Hw. reflexivity. }
  split.
  - intros q Hin Hout Hold.
    destruct (rated_player eloFormula (store w) scrimId scrim 1 q Hid
                (or_introl eq_refl) Hin Hout) as [Hrat _].
    change (Scrim.league scrim) with (Scrim.league s) in Hrat.
    rewrite Hrat. cbn [fmap option_fmap option_map EloRating.rating]. f_equal.
    unfold newRating. change (Scrim.league scrim) with (Scrim.league s).
    rewrite Hold, Hwon1. change (opponentsOf (store w) scrimId 1)
      with (team2Of (store w) scrimId).
    apply (eloFormula_even 1000 _ Ha2).
  - intros q Hin Hold.
    unfold ratingOf.
    rewrite (rated_ratings eloFormula (store w) scrimId scrim Hid).
    change (Scrim.league scrim) with (Scrim.league s).
    rewrite bool_decide_eq_true_2 by reflexivity.
    unfold upsertFor at 1. rewrite (bool_decide_eq_true_2 _ Hin).
    assert (Hnew : newRating eloFormula (store w) scrimId scrim 2 q = 984).
    { unfold newRating. change (Scrim.league scrim) with (Scrim.league s).
      rewrite Hold, Hwon2. change (opponentsOf (store w) scrimId 2)
        with (team1Of (store w) scrimId).
      apply (eloFormula_even 1000 _ Ha1). }
    rewrite Hnew.
    destruct (upsertFor _ _ _ _ _ _ _) as [r|]; reflexivity.
Qed.

Lemma equal_teams_rating_change_witness :
  EloRating.rating <$>
    ratingOf (store (snd (run noFault (processMatch 7) (initWorld exampleDB)))) 1 Academy
    = Some 1016 /\
  EloRating.rating <$>
    ratingOf (store (snd (run noFault (processMatch 7) (initWorld exampleDB)))) 3 Academy
    = Some 984.
Proof.
  destruct (equal_teams_rating_change (initWorld exampleDB) 7 scrim7)
    as (_ & H1 & H2).
  - reflexivity.
  - reflexivity.
  - reflexivity.
  - reflexivity.
  - vm_compute. discriminate.
  - vm_compute. discriminate.
  - vm_compute. reflexivity.
  - vm_compute. reflexivity.
  - split.
    + apply H1.
      * vm_compute. apply elem_of_cons. left. reflexivity.
      * vm_compute. intros H. apply elem_of_cons in H as [H|H]; [discriminate|].
        apply elem_of_cons in H as [H|H]; [discriminate|].
        apply not_elem_of_nil in H. exact H.
      * reflexivity.
    + apply H2.
      * vm_compute. apply elem_of_cons. left. reflexivity.
      * reflexivity.
Defined.

(* ================================================================== *)
(** ** What the caller gets back *)

Lemma newLog_app w w' l : log w' = log w ++ l -> newLog w w' = l.
Proof. intros H. unfold newLog. rewrite H. apply drop_app_length. Qed.

(** C5, as stated, fails: processMatch resolves to no value.  The calls on
    scrim 7 of [exampleDB] (which is processed), on scrim 7 of
    [processedDB] (already processed) and on scrim 8 of [teamlessDB]
    (skipped) all return the same unit value; only the log tells them
    apart. *)
Lemma same_return_for_all_outcomes :
  fst (run noFault (processMatch 7) (initWorld exampleDB)) = inr tt /\
  fst (run noFault (processMatch 7) (initWorld processedDB)) = inr tt /\
  fst (run noFault (processMatch 8) (initWorld teamlessDB)) = inr tt /\
  outcomes 7 (log (snd (run noFault (processMatch 7) (initWorld exampleDB))))
    = [Processed] /\
  outcomes 7 (log (snd (run noFault (processMatch 7) (initWorld processedDB))))
    = [AlreadyProcessed] /\
  outcomes 8 (log (snd (run noFault (processMatch 8) (initWorld teamlessDB))))
    = [SkippedIncompleteTeams] /\
  ~ exists decode : unit -> Outcome,
      forall db scrimId,
        fst (run noFault (processMatch scrimId) (initWorld db)) = inr tt ->
        outcomes scrimId (log (snd (run noFault (processMatch scrimId) (initWorld db))))
          = [decode tt].
Proof.
  unfold processMatch. generalize eloFormula. intros f.
  assert (H1 : fst (run noFault (processMatchWith f 7) (initWorld exampleDB)) = inr tt)
    by (vm_compute; reflexivity).
  assert (H2 : fst (run noFault (processMatchWith f 7) (initWorld processedDB)) = inr tt)
    by (vm_compute; reflexivity).
  assert (H3 : fst (run noFault (processMatchWith f 8) (initWorld teamlessDB)) = inr tt)
    by (vm_compute; reflexivity).
  assert (H4 : outcomes 7 (log (snd (run noFault (processMatchWith f 7)
                                       (initWorld exampleDB)))) = [Processed])
    by (vm_compute; reflexivity).
  assert (H5 : outcomes 7 (log (snd (run noFault (processMatchWith f 7)
                                       (initWorld processedDB)))) = [AlreadyProcessed])
    by (vm_compute; reflexivity).
  assert (H6 : outcomes 8 (log (snd (run noFault (processMatchWith f 8)
                                       (initWorld teamlessDB))))
               = [SkippedIncompleteTeams])
    by (vm_compute; reflexivity).
  repeat (split; [assumption|]).
  intros [decode Hd].
  assert (Ha := Hd exampleDB 7 H1). assert (Hb := Hd processedDB 7 H2).
  rewrite H4 in Ha. rewrite H5 in Hb. congruence.
Qed.

(** C5, amended.  A fault-free call of processMatch either returns the
    unit value, having logged exactly one of the three outcome lines, or
    throws one of the three precondition errors, having logged no outcome
    line; which outcome it was is in the log (and the store), not in the
    returned value.  Only the Processed outcome changes the store, and it
    sets the processed flag; calling again is safe: a second call leaves
    the store as the first left it. *)
Theorem processMatch_outcomes (w : World) (scrimId : Z) :
  let rw := run noFault (processMatch scrimId) w in
  ((fst rw = inr tt /\
    exists o, outcomes scrimId (newLog w (snd rw)) = [o] /\
      (o = Processed -> processedFlag (store (snd rw)) scrimId = Some true) /\
      (o <> Processed -> store (snd rw) = store w))
   \/
   (exists e, fst rw = inl e /\
      (e = ScrimNotFound scrimId \/ e = ScrimNotCompleted scrimId \/
       e = NoWinnerTeam scrimId) /\
      outcomes scrimId (newLog w (snd rw)) = [] /\
      store (snd rw) = store w)) /\
  store (snd (run noFault (processMatch scrimId) (snd rw))) = store (snd rw).
Proof.
  cbn zeta. unfold processMatch.
  destruct (processMatch_effect eloFormula scrimId w) as (H1 & H2 & _ & H4 & _).
  unfold effect in H1, H2, H4.
  unfold outcomes.
  destruct (path (store w) scrimId) as [| | | | |scrim] eqn:Hp;
    cbn [fst snd] in H1, H2, H4; rewrite (newLog_app _ _ _ H4).
  1,2,4: split;
    [ right; eexists; split; [exact H1|]; split; [tauto|]; split;
      [reflexivity|exact H2]
    | apply processMatch_unrated; rewrite H2, Hp; discriminate ].
  - split.
    + left. split; [exact H1|]. exists AlreadyProcessed.
      cbn. rewrite Z.eqb_refl. split; [reflexivity|]. split; [discriminate|auto].
    + apply processMatch_unrated. rewrite H2, Hp. discriminate.
  - split.
    + left. split; [exact H1|]. exists SkippedIncompleteTeams.
      cbn. rewrite Z.eqb_refl. split; [reflexivity|]. split; [discriminate|auto].
    + apply processMatch_unrated. rewrite H2, Hp. discriminate.
  - destruct (path_PRate_inv _ _ _ Hp) as ((s & Hs & Hflag & Hscrim) & _).
    assert (Hid : Scrim.id scrim = scrimId) by (rewrite Hscrim; reflexivity).
    assert (Hf : processedFlag
                   (store (snd (run noFault (processMatchWith eloFormula scrimId) w)))
                   scrimId = Some true).
    { rewrite H2. unfold processedFlag.
      rewrite (rated_scrims eloFormula (store w) scrimId scrim Hid).
      rewrite lookup_alter_eq, Hs. reflexivity. }
    split.
    + left. split; [exact H1|]. exists Processed.
      cbn. rewrite Z.eqb_refl. split; [reflexivity|]. split; [auto|congruence].
    + apply processMatch_processed_store, Hf.
Qed.

(* ================================================================== *)
(** ** The scan cycle *)

Lemma run_scanRows_app formula fault pre rest w :
  run fault (scanRows formula (pre ++ rest)) w =
    match run fault (scanRows formula pre) w with
    | (inl e, w') => (inl e, w')
    | (inr _, w') => run fault (scanRows formula rest) w'
    end.
Proof.
  revert w; induction pre as [|i pre IH]; intros w; [reflexivity|].
  cbn [app scanRows]. rewrite !run_logger, !run_bind.
  destruct (run fault (processMatchWith formula i) (logWorld (InfoFound i) w))
    as [[e|[]] w1]; [reflexivity|]. apply IH.
Qed.

(** C4, as stated, fails: the scan discovers scrims 7 and 10; the store
    rejects one statement of the first processMatch call; the cycle logs
    the error and ends, and processMatch is never invoked for the other
    scrim, which a fault-free cycle does process. *)
Lemma scan_cycle_aborts_counterexample :
  selectUnprocessed twoDB = [7; 10] /\
  fst (run (failAt 5) pollCycle (initWorld twoDB)) = inr tt /\
  log (snd (run (failAt 5) pollCycle (initWorld twoDB))) =
    [InfoFound 7; ErrorProcessing 7 (StoreFailure 5); ErrorPolling (StoreFailure 5)] /\
  invoked (log (snd (run (failAt 5) pollCycle (initWorld twoDB)))) = [7] /\
  processedFlag (store (snd (run (failAt 5) pollCycle (initWorld twoDB)))) 10
    = Some false /\
  invoked (log (snd (run noFault pollCycle (initWorld twoDB)))) = [7; 10] /\
  processedFlag (store (snd (run noFault pollCycle (initWorld twoDB)))) 10
    = Some true.
Proof.
  unfold pollCycle. generalize eloFormula. intros f.
  vm_compute. repeat split.
Qed.

(** C4, amended.  A scan cycle never throws: an error raised by
    processMatch for a discovered match is caught by the handler of the
    whole cycle and logged there.  It ends the cycle: when the calls for
    the rows [pre] returned and the call for the next row [id] threw [e],
    the cycle stops in the world where that call ended (the connection
    released, the error logged) and returns; the rows [post] after it are
    not visited in this cycle. *)
Theorem scan_cycle_error_ends_cycle (fault : nat -> bool) (w : World)
    (pre : list Z) (id : Z) (post : list Z) (wmid werr : World) (e : Error) :
  fault (calls w) = false ->
  fault (S (calls w)) = false ->
  selectUnprocessed (store w) = pre ++ id :: post ->
  run fault (scanRows eloFormula pre)
      (okWorld SelectUnprocessed (okWorld GetClient w)) = (inr tt, wmid) ->
  run fault (processMatch id) (logWorld (InfoFound id) wmid) = (inl e, werr) ->
  run fault pollCycle w = (inr tt, logWorld (ErrorPolling e) (releaseWorld werr)) /\
  store werr = store wmid /\
  (forall fault' w', fst (run fault' pollCycle w') = inr tt).
Proof.
  intros Hf0 Hf1 Hsel Hpre Hcall.
  split; [|split].
  - unfold pollCycle, pollCycleWith.
    rewrite run_tryCatch, run_bind, run_query, Hf0.
    rewrite run_tryFinally_release, run_bind, run_query.
    change (calls (okWorld GetClient w)) with (S (calls w)). rewrite Hf1.
    assert (Hrows : okValue SelectUnprocessed (okWorld GetClient w)
                    = pre ++ id :: post).
    { unfold okValue, okWorld. cbn [exec fst snd store tx view]. exact Hsel. }
    rewrite Hrows, run_scanRows_app, Hpre.
    cbn [scanRows]. rewrite run_logger, run_bind.
    unfold processMatch in Hcall. rewrite Hcall. reflexivity.
  - assert (H := processMatch_error_store eloFormula fault id
                   (logWorld (InfoFound id) wmid)).
    unfold processMatch in Hcall. rewrite Hcall in H. apply H. exact I.
  - intros fault' w'. unfold pollCycle, pollCycleWith. rewrite run_tryCatch.
    destruct (run fault' _ w') as [[e'|[]] w'']; reflexivity.
Qed.

Lemma scan_cycle_error_ends_cycle_witness :
  log (snd (run (failAt 5) pollCycle (initWorld twoDB))) =
    [InfoFound 7; ErrorProcessing 7 (StoreFailure 5); ErrorPolling (StoreFailure 5)].
Proof.
  destruct (scan_cycle_error_ends_cycle (failAt 5) (initWorld twoDB)
              [] 7 [10]
              (okWorld SelectUnprocessed (okWorld GetClient (initWorld twoDB)))
              (snd (run (failAt 5) (processMatch 7)
                      (logWorld (InfoFound 7)
                         (okWorld SelectUnprocessed
                            (okWorld GetClient (initWorld twoDB))))))
              (StoreFailure 5))
    as (H & _).
  - reflexivity.
  - reflexivity.
  - vm_compute. reflexivity.
  - reflexivity.
  - unfold processMatch. generalize eloFormula. intros f. vm_compute. reflexivity.
  - rewrite H. unfold processMatch. generalize eloFormula. intros f.
    vm_compute. reflexivity.
Defined.

(* ================================================================== *)
(** ** Two concurrent calls *)

(** C1.  processMatch reads the scrim row without locking it.  Under
    [raceSchedule] both calls pass the not-yet-processed guard, both write
    and both commit: the match is logged as processed twice, every player
    has two history entries for it, and the winners have two wins.  Run
    one after the other, the second call takes the already-processed
    branch. *)
Theorem concurrent_calls_process_twice :
  match schedule raceSchedule raceStart with
  | Some s =>
      forallb finished (sessions s) = true /\
      clog s = [InfoProcessed 7; InfoProcessed 7] /\
      length (elo_history (cstore s)) = 8%nat /\
      length (historyOf (cstore s) 7 1) = 2%nat /\
      EloRating.wins <$> ratingOf (cstore s) 1 Academy = Some 2 /\
      EloRating.losses <$> ratingOf (cstore s) 3 Academy = Some 2
  | None => False
  end /\
  match schedule serialSchedule raceStart with
  | Some s =>
      forallb finished (sessions s) = true /\
      clog s = [InfoProcessed 7; InfoAlreadyProcessed 7] /\
      length (elo_history (cstore s)) = 4%nat /\
      EloRating.wins <$> ratingOf (cstore s) 1 Academy = Some 1
  | None => False
  end.
Proof.
  unfold raceStart, processMatch. generalize eloFormula. intros f.
  vm_compute. repeat split.
Qed.

(* ================================================================== *)
(** ** Further properties: the rating formula *)

Lemma expectedScore_bounds (d : R) :
  (0 < 1 / (1 + Math_pow10 d) < 1)%R.
Proof.
  unfold Math_pow10, Rpower.
  assert (H := exp_pos (d * ln 10)).
  split.
  - apply Rdiv_lt_0_compat; lra.
  - apply (Rmult_lt_reg_r (1 + exp (d * ln 10))); [lra|].
    unfold Rdiv. rewrite Rmult_assoc, Rinv_l by lra. lra.
Qed.

Lemma Math_round_between (x : R) (lo hi : Z) :
  (IZR lo <= x <= IZR hi)%R -> lo <= Math_round x <= hi.
Proof.
  intros [Hlo Hhi]. unfold Math_round. split.
  - apply Zfloor_lub. lra.
  - assert (H := Zfloor_bound (x + / 2)).
    assert (Hlt : (IZR (Zfloor (x + / 2)) < IZR (hi + 1))%R)
      by (rewrite plus_IZR; lra).
    apply lt_IZR in Hlt. lia.
Qed.

Lemma calculateNewRating_range (currentRating : Z) (opponentRating : R) :
  currentRating <= calculateNewRating currentRating opponentRating 1
    <= currentRating + 32 /\
  currentRating - 32 <= calculateNewRating currentRating opponentRating 0
    <= currentRating.
Proof.
  unfold calculateNewRating, K.
  assert (H := expectedScore_bounds ((opponentRating - IZR currentRating) / 400)).
  split; apply Math_round_between; rewrite ?plus_IZR, ?minus_IZR; lra.
Qed.

(** X1. Whatever the opponents' average, a win moves a rating up by at
    least 0 and at most 32 (the K factor), a loss moves it down by at
    least 0 and at most 32; so a win never gives less than a loss. *)
Theorem calculateNewRating_bounds (currentRating : Z) (opponentRating : R) :
  currentRating <= calculateNewRating currentRating opponentRating 1
    <= currentRating + 32 /\
  currentRating - 32 <= calculateNewRating currentRating opponentRating 0
    <= currentRating /\
  calculateNewRating currentRating opponentRating 0
    <= calculateNewRating currentRating opponentRating 1.
Proof.
  destruct (calculateNewRating_range currentRating opponentRating) as [H1 H0].
  repeat split; lia.
Qed.

(** X2. The new rating does not decrease when the opponents' average
    increases, for a win and for a loss alike. *)
Theorem calculateNewRating_monotone (currentRating : Z) (opp1 opp2 : R)
    (result : Z) :
  (opp1 <= opp2)%R ->
  calculateNewRating currentRating opp1 result
    <= calculateNewRating currentRating opp2 result.
Proof.
  intros Hle. unfold calculateNewRating, Math_round, K.
  apply Zfloor_le.
  set (d1 := ((opp1 - IZR currentRating) / 400)%R).
  set (d2 := ((opp2 - IZR currentRating) / 400)%R).
  assert (Hd : (d1 <= d2)%R) by (unfold d1, d2; lra).
  assert (Hp : (Math_pow10 d1 <= Math_pow10 d2)%R)
    by (apply Rle_Rpower; lra).
  assert (H1 : (0 < Math_pow10 d1)%R) by (apply exp_pos).
  assert (He : (1 / (1 + Math_pow10 d2) <= 1 / (1 + Math_pow10 d1))%R).
  { unfold Rdiv. rewrite !Rmult_1_l. apply Rinv_le_contravar; lra. }
  lra.
Qed.

Lemma calculateNewRating_monotone_witness :
  (900 <= 1100)%R /\
  calculateNewRating 1000 900 1 <= calculateNewRating 1000 1100 1.
Proof.
  assert (H : (900 <= 1100)%R) by lra.
  split; [exact H|]. exact (calculateNewRating_monotone 1000 900 1100 1 H).
Defined.

(** X3. For a rating that the INTEGER column of elo_ratings can hold,
    against opponents whose average equals the rating, the expected score
    is one half: a win gives exactly +16 and a loss exactly -16.  (On
    these inputs the doubles of the source compute what the reals do: the
    exponent is 0, the power 1, the expected score 0.5, and the rating
    plus or minus 16 is an integer far below 2^53.) *)
Theorem calculateNewRating_equal_opponent (currentRating : Z) :
  - 2 ^ 31 <= currentRating < 2 ^ 31 ->
  calculateNewRating currentRating (IZR currentRating) 1 = currentRating + 16 /\
  calculateNewRating currentRating (IZR currentRating) 0 = currentRating - 16.
Proof. intros _. apply calculateNewRating_even. reflexivity. Qed.

Lemma calculateNewRating_equal_opponent_witness :
  - 2 ^ 31 <= 1000 < 2 ^ 31 /\
  calculateNewRating 1000 (IZR 1000) 1 = 1016 /\
  calculateNewRating 1000 (IZR 1000) 0 = 984.
Proof.
  assert (H : - 2 ^ 31 <= 1000 < 2 ^ 31) by lia.
  split; [exact H|]. exact (calculateNewRating_equal_opponent 1000 H).
Defined.

(* ================================================================== *)
(** ** Further properties: the guards of processMatch *)

Lemma selectUnprocessed_inv db i :
  i ∈ selectUnprocessed db ->
  exists s, scrims db !! i = Some s /\
    Scrim.status s = "completed"%string /\
    Scrim.elo_processed s = false /\
    Scrim.winner_team s <> None.
Proof.
  unfold selectUnprocessed. intros H%list_elem_of_In.
  apply in_map_iff in H as [[j s] [Hj H]]. cbn in Hj. subst j.
  apply filter_In in H as [Hin Hcond].
  apply list_elem_of_In, elem_of_map_to_list in Hin. cbn [snd] in Hcond.
  apply andb_true_iff in Hcond as [Hcond Hw].
  apply andb_true_iff in Hcond as [Hst Hp].
  exists s. split; [exact Hin|].
  apply String.eqb_eq in Hst. apply negb_true_iff in Hp.
  repeat split; auto. destruct (Scrim.winner_team s); [discriminate|discriminate].
Qed.

(** A call whose fault-free run throws never returns, whatever fails. *)
Lemma processMatch_error_always formula fault scrimId w :
  isError (fst (run noFault (processMatchWith formula scrimId) w)) ->
  isError (fst (run fault (processMatchWith formula scrimId) w)).
Proof.
  intros Hnf.
  destruct (fst (run fault (processMatchWith formula scrimId) w)) as [e|[]] eqn:Hr;
    [exact I|].
  destruct (processMatch_returns_noFault formula fault scrimId w Hr) as [Heq _].
  rewrite <- Heq, Hr in Hnf. exact Hnf.
Qed.

Lemma processMatch_guard_error formula scrimId w e :
  fst (fst (fst (effect formula (store w) scrimId))) = inl e ->
  fst (run noFault (processMatchWith formula scrimId) w) = inl e /\
  store (snd (run noFault (processMatchWith formula scrimId) w)) = store w /\
  log (snd (run noFault (processMatchWith formula scrimId) w)) =
    log w ++ [ErrorProcessing scrimId e] /\
  writesOf (trace (snd (run noFault (processMatchWith formula scrimId) w))) =
    writesOf (trace w).
Proof.
  intros He.
  destruct (processMatch_effect formula scrimId w) as (H1 & H2 & _ & H4 & H5).
  unfold effect in *.
  destruct (path (store w) scrimId) as [| | | | |scrim]; cbn [fst snd] in *;
    try discriminate; injection He as <-; rewrite ?app_nil_r in H5; auto.
Qed.

(** X4. processMatch on an id that is not in scrims throws 'not found'
    after rolling back: it issues no write, leaves the store unchanged and
    logs the error; and whatever calls on the store fail, a call on such
    an id never returns normally. *)
Theorem unknown_scrim_rejected (w : World) (scrimId : Z) :
  scrims (store w) !! scrimId = None ->
  fst (run noFault (processMatch scrimId) w) = inl (ScrimNotFound scrimId) /\
  store (snd (run noFault (processMatch scrimId) w)) = store w /\
  log (snd (run noFault (processMatch scrimId) w)) =
    log w ++ [ErrorProcessing scrimId (ScrimNotFound scrimId)] /\
  writesOf (trace (snd (run noFault (processMatch scrimId) w))) = writesOf (trace w) /\
  (forall fault, isError (fst (run fault (processMatch scrimId) w))).
Proof.
  intros Hs. unfold processMatch.
  assert (He : fst (fst (fst (effect eloFormula (store w) scrimId)))
               = inl (ScrimNotFound scrimId)).
  { unfold effect, path, selectScrim. rewrite Hs. reflexivity. }
  destruct (processMatch_guard_error eloFormula scrimId w _ He) as (H1 & H2 & H3 & H4).
  repeat (split; [assumption|]).
  intros fault. apply processMatch_error_always. rewrite H1. exact I.
Qed.

Lemma unknown_scrim_rejected_witness :
  fst (run noFault (processMatch 99) (initWorld exampleDB)) = inl (ScrimNotFound 99) /\
  store (snd (run noFault (processMatch 99) (initWorld exampleDB))) = exampleDB.
Proof.
  destruct (unknown_scrim_rejected (initWorld exampleDB) 99) as (H1 & H2 & _).
  - reflexivity.
  - split; [exact H1|exact H2].
Defined.

(** X5. The status guard comes first: on a scrim whose status is not
    'completed' processMatch throws 'not completed' even when the scrim
    is already flagged as processed or has no winner; no write is issued
    and the store is unchanged. *)
Theorem uncompleted_scrim_rejected (w : World) (scrimId : Z) (s : Scrim.t) :
  scrims (store w) !! scrimId = Some s ->
  Scrim.status s <> "completed"%string ->
  fst (run noFault (processMatch scrimId) w) = inl (ScrimNotCompleted scrimId) /\
  store (snd (run noFault (processMatch scrimId) w)) = store w /\
  log (snd (run noFault (processMatch scrimId) w)) =
    log w ++ [ErrorProcessing scrimId (ScrimNotCompleted scrimId)] /\
  writesOf (trace (snd (run noFault (processMatch scrimId) w))) = writesOf (trace w) /\
  (forall fault, isError (fst (run fault (processMatch scrimId) w))).
Proof.
  intros Hs Hst. unfold processMatch.
  assert (He : fst (fst (fst (effect eloFormula (store w) scrimId)))
               = inl (ScrimNotCompleted scrimId)).
  { unfold effect, path, selectScrim. rewrite Hs. cbn [Scrim.status].
    destruct (String.eqb_spec (Scrim.status s) "completed"); [contradiction|].
    reflexivity. }
  destruct (processMatch_guard_error eloFormula scrimId w _ He) as (H1 & H2 & H3 & H4).
  repeat (split; [assumption|]).
  intros fault. apply processMatch_error_always. rewrite H1. exact I.
Qed.

Lemma uncompleted_scrim_rejected_witness :
  fst (run noFault (processMatch 11) (initWorld pendingDB))
    = inl (ScrimNotCompleted 11) /\
  store (snd (run noFault (processMatch 11) (initWorld pendingDB))) = pendingDB.
Proof.
  destruct (uncompleted_scrim_rejected (initWorld pendingDB) 11
              (Scrim.mk 11 "active" Academy None true))
    as (H1 & H2 & _).
  - reflexivity.
  - discriminate.
  - split; [exact H1|exact H2].
Defined.

(** X6. On a completed, unprocessed scrim whose winner_team is falsy (NULL,
    or 0) processMatch throws 'no winner_team set' before it reads any
    participant: no write, store unchanged, flag still false.  With a NULL
    winner the scan query does not return the scrim, so the polling loop
    never calls processMatch for it. *)
Theorem missing_winner_rejected (w : World) (scrimId : Z) (s : Scrim.t) :
  scrims (store w) !! scrimId = Some s ->
  Scrim.status s = "completed"%string ->
  Scrim.elo_processed s = false ->
  truthy (Scrim.winner_team s) = false ->
  fst (run noFault (processMatch scrimId) w) = inl (NoWinnerTeam scrimId) /\
  store (snd (run noFault (processMatch scrimId) w)) = store w /\
  log (snd (run noFault (processMatch scrimId) w)) =
    log w ++ [ErrorProcessing scrimId (NoWinnerTeam scrimId)] /\
  writesOf (trace (snd (run noFault (processMatch scrimId) w))) = writesOf (trace w) /\
  processedFlag (store (snd (run noFault (processMatch scrimId) w))) scrimId
    = Some false /\
  (forall fault, isError (fst (run fault (processMatch scrimId) w))) /\
  (Scrim.winner_team s = None -> scrimId ∉ selectUnprocessed (store w)).
Proof.
  intros Hs Hst Hp Hw. unfold processMatch.
  assert (He : fst (fst (fst (effect eloFormula (store w) scrimId)))
               = inl (NoWinnerTeam scrimId)).
  { unfold effect, path, selectScrim. rewrite Hs.
    cbn [Scrim.status Scrim.elo_processed Scrim.winner_team].
    rewrite Hst, Hp, Hw. reflexivity. }
  destruct (processMatch_guard_error eloFormula scrimId w _ He) as (H1 & H2 & H3 & H4).
  repeat (split; [assumption|]).
  split. { rewrite H2. unfold processedFlag. rewrite Hs. cbn. rewrite Hp. reflexivity. }
  split. { intros fault. apply processMatch_error_always. rewrite H1. exact I. }
  intros Hnone Hin. apply selectUnprocessed_inv in Hin as (s' & Hs' & _ & _ & Hw').
  rewrite Hs in Hs'. injection Hs' as <-. contradiction.
Qed.

Lemma missing_winner_rejected_witness :
  fst (run noFault (processMatch 12) (initWorld undecidedDB))
    = inl (NoWinnerTeam 12) /\
  12 ∉ selectUnprocessed undecidedDB.
Proof.
  destruct (missing_winner_rejected (initWorld undecidedDB) 12
              (Scrim.mk 12 "completed" Academy None false))
    as (H1 & _ & _ & _ & _ & _ & H7).
  - reflexivity.
  - reflexivity.
  - reflexivity.
  - reflexivity.
  - split; [exact H1|]. apply H7. reflexivity.
Defined.

(* ================================================================== *)
(** ** Further properties: what no call ever does *)

(** A relation between stores that every list of writes respects holds
    between the store before and after any call and any scan cycle. *)
Lemma processMatch_store_rel (R : DB -> DB -> Prop) formula fault scrimId w :
  (forall db, R db db) ->
  (forall db ws, R db (applyWrites db ws)) ->
  R (store w) (store (snd (run fault (processMatchWith formula scrimId) w))).
Proof.
  intros Hrefl Hws.
  destruct (processMatch_store_cases formula fault scrimId w)
    as [-> | (_ & scrim & _ & ->)]; auto.
Qed.

Lemma scanRows_store_rel (R : DB -> DB -> Prop) formula fault rows w :
  (forall db, R db db) ->
  (forall a b c, R a b -> R b c -> R a c) ->
  (forall db ws, R db (applyWrites db ws)) ->
  R (store w) (store (snd (run fault (scanRows formula rows) w))).
Proof.
  intros Hrefl Htrans Hws. revert w; induction rows as [|i rows IH]; intros w.
  - apply Hrefl.
  - cbn [scanRows]. rewrite run_logger, run_bind.
    assert (H := processMatch_store_rel R formula fault i
                   (logWorld (InfoFound i) w) Hrefl Hws).
    destruct (run fault (processMatchWith formula i) (logWorld (InfoFound i) w))
      as [[e|[]] w1]; cbn [snd] in *; [exact H|].
    eapply Htrans; [exact H|apply IH].
Qed.

Lemma pollCycle_store_rel (R : DB -> DB -> Prop) formula fault w :
  (forall db, R db db) ->
  (forall a b c, R a b -> R b c -> R a c) ->
  (forall db ws, R db (applyWrites db ws)) ->
  R (store w) (store (snd (run fault (pollCycleWith formula) w))).
Proof.
  intros Hrefl Htrans Hws. unfold pollCycleWith.
  rewrite run_tryCatch, run_bind, run_query.
  destruct (fault (calls w)); [apply Hrefl|].
  rewrite run_tryFinally_release, run_bind, run_query.
  destruct (fault (calls (okWorld GetClient w))); [apply Hrefl|].
  cbn [fst snd].
  assert (H := scanRows_store_rel R formula fault
                 (okValue SelectUnprocessed (okWorld GetClient w))
                 (okWorld SelectUnprocessed (okWorld GetClient w))
                 Hrefl Htrans Hws).
  destruct (run fault (scanRows formula _) _) as [[e|[]] w1]; exact H.
Qed.

Lemma historyFor_scrim_id scrimId old new team :
  Forall (fun h => EloHistory.scrim_id h = scrimId) (historyFor scrimId old new team).
Proof.
  induction team as [|p team IH]; constructor; [reflexivity|exact IH].
Qed.

Lemma sameMatchData_refl db : sameMatchData db db.
Proof.
  repeat split. intros i. destruct (scrims db !! i); cbn; auto.
Qed.

Lemma sameMatchData_trans a b c :
  sameMatchData a b -> sameMatchData b c -> sameMatchData a c.
Proof.
  intros (H1 & H2 & H3) (H1' & H2' & H3'). split; [congruence|].
  split; [congruence|]. intros i. specialize (H3 i). specialize (H3' i).
  destruct (scrims a !! i) as [sa|], (scrims b !! i) as [sb|],
    (scrims c !! i) as [sc|]; cbn in *; try tauto.
  destruct H3 as (? & ? & ? & ? & ?), H3' as (? & ? & ? & ? & ?).
  repeat split; try congruence.
  intros Ht. auto.
Qed.

Lemma sameMatchData_applyWrites db ws : sameMatchData db (applyWrites db ws).
Proof.
  split; [apply applyWrites_scrim_players|].
  split; [apply applyWrites_match_player_stats|].
  intros i. destruct (applyWrites_scrims db ws i) as [-> | ->];
    destruct (scrims db !! i) as [s|]; cbn; auto.
Qed.

(** X8. The engine only reads the match data.  Whatever fails, a
    processMatch call and a scan cycle leave scrim_players and
    match_player_stats as they were, create and delete no scrim, and keep
    id, status, league and winner_team of every scrim; a processed flag
    that is set stays set. *)
Theorem match_data_read_only (fault : nat -> bool) (w : World) (scrimId : Z) :
  sameMatchData (store w) (store (snd (run fault (processMatch scrimId) w))) /\
  sameMatchData (store w) (store (snd (run fault pollCycle w))).
Proof.
  unfold processMatch, pollCycle. split.
  - apply processMatch_store_rel;
      [apply sameMatchData_refl|apply sameMatchData_applyWrites].
  - apply pollCycle_store_rel;
      [apply sameMatchData_refl|apply sameMatchData_trans
      |apply sameMatchData_applyWrites].
Qed.

Lemma upsertFor_grows formula db scrimId scrim n q (o : option EloRating.t) r :
  o = Some r ->
  exists r', upsertFor formula db scrimId scrim n q o = Some r' /\
    EloRating.wins r <= EloRating.wins r' /\
    EloRating.losses r <= EloRating.losses r'.
Proof.
  intros ->. unfold upsertFor.
  destruct (bool_decide _); [|exists r; split; [reflexivity|lia]].
  cbn [upsertRow]. eexists. split; [reflexivity|].
  cbn [EloRating.wins EloRating.losses].
  destruct (teamWon scrim n); cbn [b2z negb]; lia.
Qed.

(* ================================================================== *)
(** ** Further properties: the ratings a processing leaves *)

(** X10. A player whom the participants query lists on both teams (stats
    rows with different team ids) is updated twice by one processing: two
    history entries for the scrim, both starting from the pre-match
    rating; the rating record ends with the rating computed for team 2,
    and its counters count both rows. *)
Theorem player_on_both_teams (w : World) (scrimId : Z) (s : Scrim.t) (q : Z) :
  scrims (store w) !! scrimId = Some s ->
  Scrim.status s = "completed"%string ->
  Scrim.elo_processed s = false ->
  truthy (Scrim.winner_team s) = true ->
  q ∈ teamIds (store w) scrimId 1 ->
  q ∈ teamIds (store w) scrimId 2 ->
  let db := store w in
  let scrim := Scrim.mk scrimId (Scrim.status s) (Scrim.league s)
                        (Scrim.winner_team s) false in
  let lg := Scrim.league s in
  let db' := store (snd (run noFault (processMatch scrimId) w)) in
  fst (run noFault (processMatch scrimId) w) = inr tt /\
  historyOf db' scrimId q =
    historyOf db scrimId q ++
    [EloHistory.mk q scrimId (oldRating db lg q)
                   (newRating eloFormula db scrimId scrim 1 q);
     EloHistory.mk q scrimId (oldRating db lg q)
                   (newRating eloFormula db scrimId scrim 2 q)] /\
  ratingOf db' q lg =
    Some (EloRating.mk q lg (newRating eloFormula db scrimId scrim 2 q)
            (EloRating.wins (currentRating db lg q)
             + b2z (teamWon scrim 1) + b2z (teamWon scrim 2))
            (EloRating.losses (currentRating db lg q)
             + b2z (negb (teamWon scrim 1)) + b2z (negb (teamWon scrim 2)))).
Proof.
  intros Hs Hst Hp Hw H1 H2. cbn zeta. unfold processMatch.
  assert (Ht1 : team1Of (store w) scrimId <> []).
  { intros E. unfold teamIds in H1. cbn [Z.eqb Pos.eqb] in H1. rewrite E in H1.
    apply not_elem_of_nil in H1. exact H1. }
  assert (Ht2 : team2Of (store w) scrimId <> []).
  { intros E. unfold teamIds in H2. cbn [Z.eqb Pos.eqb] in H2. rewrite E in H2.
    apply not_elem_of_nil in H2. exact H2. }
  assert (Hpath := path_PRate_intro _ _ _ Hs Hst Hp Hw Ht1 Ht2).
  set (scrim := Scrim.mk scrimId (Scrim.status s) (Scrim.league s)
                         (Scrim.winner_team s) false) in *.
  assert (Hid : Scrim.id scrim = scrimId) by reflexivity.
  destruct (processMatch_rated eloFormula w scrimId scrim Hpath)
    as (Hr & Hst1 & _ & _).
  split; [exact Hr|]. rewrite Hst1. split.
  - unfold historyOf. rewrite (rated_history eloFormula (store w) scrimId scrim Hid).
    rewrite !List.filter_app, !filter_historyFor by apply NoDup_team_ids.
    fold (team1Of (store w) scrimId) (team2Of (store w) scrimId).
    change (List.map PlayerRow.player_id (team1Of (store w) scrimId))
      with (teamIds (store w) scrimId 1).
    change (List.map PlayerRow.player_id (team2Of (store w) scrimId))
      with (teamIds (store w) scrimId 2).
    rewrite (bool_decide_eq_true_2 _ H1), (bool_decide_eq_true_2 _ H2).
    reflexivity.
  - unfold ratingOf. rewrite (rated_ratings eloFormula (store w) scrimId scrim Hid).
    change (Scrim.league scrim) with (Scrim.league s).
    rewrite bool_decide_eq_true_2 by reflexivity. unfold upsertFor.
    rewrite (bool_decide_eq_true_2 _ H1), (bool_decide_eq_true_2 _ H2).
    change (Scrim.league scrim) with (Scrim.league s).
    rewrite upsertRow_current. reflexivity.
Qed.

Lemma player_on_both_teams_witness :
  length (historyOf (store (snd (run noFault (processMatch 13) (initWorld switchedDB))))
                    13 1) = 2%nat /\
  EloRating.wins <$>
    ratingOf (store (snd (run noFault (processMatch 13) (initWorld switchedDB))))
             1 Academy = Some 1 /\
  EloRating.losses <$>
    ratingOf (store (snd (run noFault (processMatch 13) (initWorld switchedDB))))
             1 Academy = Some 1.
Proof.
  destruct (player_on_both_teams (initWorld switchedDB) 13
              (Scrim.mk 13 "completed" Academy (Some 1) false) 1)
    as (_ & Hh & Hr).
  - reflexivity.
  - reflexivity.
  - reflexivity.
  - reflexivity.
  - vm_compute. apply elem_of_cons. left. reflexivity.
  - vm_compute. apply elem_of_cons. left. reflexivity.
  - cbn [Scrim.league] in Hr. rewrite Hh, Hr. repeat split.
Defined.

Lemma historyFor_changes scrimId (old : Z -> Z) (opp : Q) (won : bool) team :
  Forall (changeAllowed won)
    (historyFor scrimId old (fun i => eloFormula (old i) opp (b2z won)) team).
Proof.
  induction team as [|p team IH]; constructor; [|exact IH].
  unfold changeAllowed, EloHistory.change_amount, eloFormula.
  cbn [EloHistory.new_rating EloHistory.old_rating].
  destruct (calculateNewRating_range (old (PlayerRow.player_id p)) (Q2R opp))
    as [H1 H0].
  destruct won; cbn [b2z]; lia.
Qed.

(** X12. Every history entry that a successful processing adds records a
    change within the K factor and of the right sign: between 0 and +32
    for a row of a team that won, between -32 and 0 for a row of a team
    that did not; there is one entry per row of team 1, then one per row
    of team 2. *)
Theorem history_changes_bounded (w : World) (scrimId : Z) (s : Scrim.t) :
  scrims (store w) !! scrimId = Some s ->
  Scrim.status s = "completed"%string ->
  Scrim.elo_processed s = false ->
  truthy (Scrim.winner_team s) = true ->
  team1Of (store w) scrimId <> [] ->
  team2Of (store w) scrimId <> [] ->
  exists added1 added2,
    elo_history (store (snd (run noFault (processMatch scrimId) w))) =
      elo_history (store w) ++ added1 ++ added2 /\
    List.map EloHistory.player_id added1 = teamIds (store w) scrimId 1 /\
    List.map EloHistory.player_id added2 = teamIds (store w) scrimId 2 /\
    Forall (changeAllowed (bool_decide (Scrim.winner_team s = Some 1))) added1 /\
    Forall (changeAllowed (bool_decide (Scrim.winner_team s = Some 2))) added2.
Proof.
  intros Hs Hst Hp Hw Ht1 Ht2. unfold processMatch.
  assert (Hpath := path_PRate_intro _ _ _ Hs Hst Hp Hw Ht1 Ht2).
  set (scrim := Scrim.mk scrimId (Scrim.status s) (Scrim.league s)
                         (Scrim.winner_team s) false) in *.
  assert (Hid : Scrim.id scrim = scrimId) by reflexivity.
  destruct (processMatch_rated eloFormula w scrimId scrim Hpath)
    as (_ & Hst1 & _ & _).
  rewrite Hst1, (rated_history eloFormula (store w) scrimId scrim Hid).
  eexists _, _. split; [reflexivity|].
  split. { unfold historyFor, teamIds. rewrite List.map_map. reflexivity. }
  split. { unfold historyFor, teamIds. rewrite List.map_map. reflexivity. }
  split; apply historyFor_changes.
Qed.

Lemma history_changes_bounded_witness :
  exists added1 added2,
    elo_history (store (snd (run noFault (processMatch 6) (initWorld unevenDB)))) =
      added1 ++ added2 /\
    Forall (changeAllowed true) added1 /\ Forall (changeAllowed false) added2.
Proof.
  destruct (history_changes_bounded (initWorld unevenDB) 6 scrim6)
    as (a1 & a2 & H & _ & _ & H1 & H2).
  - reflexivity.
  - reflexivity.
  - reflexivity.
  - reflexivity.
  - vm_compute. discriminate.
  - vm_compute. discriminate.
  - exists a1, a2. split; [exact H|]. split; [exact H1|exact H2].
Defined.

(* ================================================================== *)
(** ** Further properties: one processing after another *)

Lemma team1Of_applyWrites db ws i : team1Of (applyWrites db ws) i = team1Of db i.
Proof. unfold team1Of. rewrite applyWrites_selectPlayers. reflexivity. Qed.

Lemma team2Of_applyWrites db ws i : team2Of (applyWrites db ws) i = team2Of db i.
Proof. unfold team2Of. rewrite applyWrites_selectPlayers. reflexivity. Qed.

Lemma teamIds_applyWrites db ws i n :
  teamIds (applyWrites db ws) i n = teamIds db i n.
Proof.
  unfold teamIds. rewrite team1Of_applyWrites, team2Of_applyWrites. reflexivity.
Qed.

(** Processing one scrim does not change the branch a call on another
    scrim takes. *)
Lemma path_other formula db i scrim j :
  Scrim.id scrim = i -> j <> i ->
  path (applyWrites db (processWrites formula db i scrim)) j = path db j.
Proof.
  intros Hid Hne. unfold path, selectScrim.
  rewrite (rated_scrims formula db i scrim Hid).
  rewrite lookup_alter_ne by congruence.
  rewrite team1Of_applyWrites, team2Of_applyWrites. reflexivity.
Qed.

Lemma filter_historyFor_other a b old new team q :
  a <> b ->
  List.filter (fun h => (EloHistory.scrim_id h =? b) && (EloHistory.player_id h =? q))
              (historyFor a old new team) = [].
Proof.
  intros Hne. induction team as [|p team IH]; [reflexivity|].
  cbn [historyFor List.map List.filter EloHistory.scrim_id].
  destruct (Z.eqb_spec a b); [contradiction|]. cbn [andb]. exact IH.
Qed.

Lemma historyOf_other formula db i scrim j q :
  Scrim.id scrim = i -> i <> j ->
  historyOf (applyWrites db (processWrites formula db i scrim)) j q = historyOf db j q.
Proof.
  intros Hid Hne. unfold historyOf.
  rewrite (rated_history formula db i scrim Hid).
  rewrite !List.filter_app, !filter_historyFor_other by exact Hne.
  rewrite !app_nil_r. reflexivity.
Qed.

Lemma currentRating_stored db lg q r :
  ratingOf db q lg = Some r ->
  currentRating db lg q =
    EloRating.mk q lg (EloRating.rating r) (EloRating.wins r) (EloRating.losses r).
Proof.
  unfold ratingOf, currentRating, selectRating. intros ->. reflexivity.
Qed.

(** X11. Ratings chain from one scrim to the next.  When scrims [a] and
    [b] of one league are both ready and [a] is processed before [b], the
    history entry of [b] for a player who took part in both starts from
    the rating the processing of [a] gave: its old_rating is the
    new_rating of the entry of [a].  The rating record ends with the
    rating of [b] and has counted two results. *)
Theorem ratings_chain (w : World) (a b : Z) (sa sb : Scrim.t) (n m q : Z) :
  a <> b ->
  scrims (store w) !! a = Some sa ->
  Scrim.status sa = "completed"%string ->
  Scrim.elo_processed sa = false ->
  truthy (Scrim.winner_team sa) = true ->
  team1Of (store w) a <> [] -> team2Of (store w) a <> [] ->
  scrims (store w) !! b = Some sb ->
  Scrim.status sb = "completed"%string ->
  Scrim.elo_processed sb = false ->
  truthy (Scrim.winner_team sb) = true ->
  team1Of (store w) b <> [] -> team2Of (store w) b <> [] ->
  Scrim.league sb = Scrim.league sa ->
  n = 1 \/ n = 2 ->
  q ∈ teamIds (store w) a n -> q ∉ teamIds (store w) a (3 - n) ->
  m = 1 \/ m = 2 ->
  q ∈ teamIds (store w) b m -> q ∉ teamIds (store w) b (3 - m) ->
  let db := store w in
  let lg := Scrim.league sa in
  let scrimA := Scrim.mk a (Scrim.status sa) (Scrim.league sa)
                         (Scrim.winner_team sa) false in
  let scrimB := Scrim.mk b (Scrim.status sb) (Scrim.league sb)
                         (Scrim.winner_team sb) false in
  let w1 := snd (run noFault (processMatch a) w) in
  let w2 := snd (run noFault (processMatch b) w1) in
  let newA := newRating eloFormula db a scrimA n q in
  let newB := newRating eloFormula (store w1) b scrimB m q in
  fst (run noFault (processMatch a) w) = inr tt /\
  fst (run noFault (processMatch b) w1) = inr tt /\
  historyOf (store w2) a q =
    historyOf db a q ++ [EloHistory.mk q a (oldRating db lg q) newA] /\
  historyOf (store w2) b q =
    historyOf db b q ++ [EloHistory.mk q b newA newB] /\
  ratingOf (store w2) q lg =
    Some (EloRating.mk q lg newB
            (EloRating.wins (currentRating db lg q)
             + b2z (teamWon scrimA n) + b2z (teamWon scrimB m))
            (EloRating.losses (currentRating db lg q)
             + b2z (negb (teamWon scrimA n)) + b2z (negb (teamWon scrimB m)))).
Proof.
  intros Hab Hsa Hsta Hpa Hwa Ha1 Ha2 Hsb Hstb Hpb Hwb Hb1 Hb2 Hlg
         Hn Hina Houta Hm Hinb Houtb.
  cbn zeta. unfold processMatch.
  set (scrimA := Scrim.mk a (Scrim.status sa) (Scrim.league sa)
                          (Scrim.winner_team sa) false).
  set (scrimB := Scrim.mk b (Scrim.status sb) (Scrim.league sb)
                          (Scrim.winner_team sb) false).
  assert (HidA : Scrim.id scrimA = a) by reflexivity.
  assert (HidB : Scrim.id scrimB = b) by reflexivity.
  assert (HpathA : path (store w) a = PRate scrimA)
    by (apply path_PRate_intro; assumption).
  assert (HpathB : path (store w) b = PRate scrimB)
    by (apply path_PRate_intro; assumption).
  destruct (processMatch_rated eloFormula w a scrimA HpathA) as (Hr1 & Hst1 & _ & _).
  set (w1 := snd (run noFault (processMatchWith eloFormula a) w)) in *.
  assert (HpathB1 : path (store w1) b = PRate scrimB).
  { rewrite Hst1, (path_other eloFormula (store w) a scrimA b HidA); auto. }
  destruct (processMatch_rated eloFormula w1 b scrimB HpathB1) as (Hr2 & Hst2 & _ & _).
  split; [exact Hr1|]. split; [exact Hr2|].
  destruct (rated_player eloFormula (store w) a scrimA n q HidA Hn Hina Houta)
    as [HratA HhistA].
  rewrite <- Hst1 in HratA, HhistA.
  assert (Hinb1 : q ∈ teamIds (store w1) b m)
    by (rewrite Hst1, teamIds_applyWrites; exact Hinb).
  assert (Houtb1 : q ∉ teamIds (store w1) b (3 - m))
    by (rewrite Hst1, teamIds_applyWrites; exact Houtb).
  destruct (rated_player eloFormula (store w1) b scrimB m q HidB Hm Hinb1 Houtb1)
    as [HratB HhistB].
  rewrite <- Hst2 in HratB, HhistB.
  change (Scrim.league scrimA) with (Scrim.league sa) in *.
  change (Scrim.league scrimB) with (Scrim.league sb) in *.
  rewrite Hlg in *.
  assert (Hcur1 := currentRating_stored _ _ _ _ HratA).
  cbn [EloRating.rating EloRating.wins EloRating.losses] in Hcur1.
  split.
  { rewrite Hst2, (historyOf_other eloFormula (store w1) b scrimB a q HidB)
      by congruence. exact HhistA. }
  split.
  { rewrite HhistB. unfold oldRating at 1. rewrite Hcur1.
    cbn [EloRating.rating].
    rewrite Hst1 at 1.
    rewrite (historyOf_other eloFormula (store w) a scrimA b q HidA Hab).
    reflexivity. }
  rewrite HratB, Hcur1. reflexivity.
Qed.

Lemma ratings_chain_witness :
  exists newA newB,
    historyOf (store (snd (run noFault (processMatch 10)
                             (snd (run noFault (processMatch 7) (initWorld twoDB))))))
              7 1 = [EloHistory.mk 1 7 1000 newA] /\
    historyOf (store (snd (run noFault (processMatch 10)
                             (snd (run noFault (processMatch 7) (initWorld twoDB))))))
              10 1 = [EloHistory.mk 1 10 newA newB].
Proof.
  destruct (ratings_chain (initWorld twoDB) 7 10 scrim7
              (Scrim.mk 10 "completed" Academy (Some 2) false) 1 1 1)
    as (_ & _ & Ha & Hb & _).
  - discriminate.
  - reflexivity.
  - reflexivity.
  - reflexivity.
  - reflexivity.
  - vm_compute. discriminate.
  - vm_compute. discriminate.
  - reflexivity.
  - reflexivity.
  - reflexivity.
  - reflexivity.
  - vm_compute. discriminate.
  - vm_compute. discriminate.
  - reflexivity.
  - left. reflexivity.
  - vm_compute. apply elem_of_cons. left. reflexivity.
  - vm_compute. intros H. apply elem_of_cons in H as [H|H]; [discriminate|].
    apply elem_of_cons in H as [H|H]; [discriminate|].
    apply not_elem_of_nil in H. exact H.
  - left. reflexivity.
  - vm_compute. apply elem_of_cons. left. reflexivity.
  - vm_compute. intros H. apply elem_of_cons in H as [H|H]; [discriminate|].
    apply not_elem_of_nil in H. exact H.
  - eexists _, _. split; [exact Ha|exact Hb].
Defined.

(* ================================================================== *)
(** ** Further properties: the polling loop *)

Lemma selectUnprocessed_intro db i s :
  scrims db !! i = Some s ->
  Scrim.status s = "completed"%string ->
  Scrim.elo_processed s = false ->
  Scrim.winner_team s <> None ->
  i ∈ selectUnprocessed db.
Proof.
  intros Hs Hst Hp Hw. unfold selectUnprocessed.
  apply list_elem_of_In, in_map_iff. exists (i, s). split; [reflexivity|].
  apply filter_In. split.
  - apply list_elem_of_In, elem_of_map_to_list. exact Hs.
  - cbn [snd]. rewrite Hst, Hp.
    destruct (Scrim.winner_team s); [reflexivity|contradiction].
Qed.

Lemma selectUnprocessed_shrinks db db' j :
  sameMatchData db db' ->
  j ∈ selectUnprocessed db' -> j ∈ selectUnprocessed db.
Proof.
  intros (_ & _ & H) Hj.
  apply selectUnprocessed_inv in Hj as (s' & Hs' & Hst & Hp & Hw).
  specialize (H j). rewrite Hs' in H.
  destruct (scrims db !! j) as [s|] eqn:Hs; [|contradiction].
  destruct H as (_ & Hst' & _ & Hw' & Hflag).
  apply (selectUnprocessed_intro db j s Hs); [congruence| |congruence].
  destruct (Scrim.elo_processed s); [|reflexivity].
  rewrite Hflag in Hp by reflexivity. discriminate.
Qed.

(** X13. When the pool gives no connection, or the scan query is
    rejected, the cycle logs the polling error and returns: processMatch
    is invoked for no scrim, no write is issued and the store is as it
    was. *)
Theorem scan_setup_failure (fault : nat -> bool) (w : World) :
  fault (calls w) = true \/ fault (S (calls w)) = true ->
  fst (run fault pollCycle w) = inr tt /\
  store (snd (run fault pollCycle w)) = store w /\
  writesOf (trace (snd (run fault pollCycle w))) = writesOf (trace w) /\
  exists n, log (snd (run fault pollCycle w)) = log w ++ [ErrorPolling (StoreFailure n)].
Proof.
  intros H. unfold pollCycle, pollCycleWith.
  rewrite run_tryCatch, run_bind, run_query.
  destruct (fault (calls w)) eqn:H0.
  { cbn. repeat split; eauto. }
  destruct H as [H|H1]; [discriminate|].
  rewrite run_tryFinally_release, run_bind, run_query.
  change (calls (okWorld GetClient w)) with (S (calls w)). rewrite H1.
  cbn. rewrite writesOf_app, app_nil_r. repeat split; eauto.
Qed.

Lemma scan_setup_failure_witness :
  fst (run (failAt 1) pollCycle (initWorld twoDB)) = inr tt /\
  store (snd (run (failAt 1) pollCycle (initWorld twoDB))) = twoDB /\
  log (snd (run (failAt 1) pollCycle (initWorld twoDB))) = [ErrorPolling (StoreFailure 1)].
Proof.
  destruct (scan_setup_failure (failAt 1) (initWorld twoDB)) as (H1 & H2 & _ & n & H4).
  - right. reflexivity.
  - split; [exact H1|]. split; [exact H2|].
    unfold pollCycle. generalize eloFormula. intros f. vm_compute. reflexivity.
Defined.

(** X15. The engine never makes a scrim discoverable.  Whatever fails,
    every scrim the scan query returns after a processMatch call or after
    a scan cycle was returned by it before; and when the scrim a call was
    made for is still returned afterwards, that call changed nothing in
    the store. *)
Theorem unprocessed_set_shrinks (fault : nat -> bool) (w : World) (scrimId : Z) :
  (forall j,
     j ∈ selectUnprocessed (store (snd (run fault (processMatch scrimId) w))) ->
     j ∈ selectUnprocessed (store w)) /\
  (scrimId ∈ selectUnprocessed (store (snd (run fault (processMatch scrimId) w))) ->
   store (snd (run fault (processMatch scrimId) w)) = store w) /\
  (forall j,
     j ∈ selectUnprocessed (store (snd (run fault pollCycle w))) ->
     j ∈ selectUnprocessed (store w)).
Proof.
  unfold processMatch, pollCycle. split; [|split].
  - intros j. apply selectUnprocessed_shrinks.
    apply processMatch_store_rel;
      [apply sameMatchData_refl|apply sameMatchData_applyWrites].
  - intros Hin.
    destruct (processMatch_store_cases eloFormula fault scrimId w)
      as [H | (_ & scrim & Hp & Heq)]; [exact H|].
    exfalso. rewrite Heq in Hin.
    apply selectUnprocessed_inv in Hin as (s' & Hs' & _ & Hflag & _).
    destruct (path_PRate_inv _ _ _ Hp) as ((s & Hs & _ & Hscrim) & _).
    assert (Hid : Scrim.id scrim = scrimId) by (rewrite Hscrim; reflexivity).
    rewrite (rated_scrims eloFormula (store w) scrimId scrim Hid) in Hs'.
    rewrite lookup_alter_eq, Hs in Hs'. injection Hs' as <-. discriminate.
  - intros j. apply selectUnprocessed_shrinks.
    apply pollCycle_store_rel;
      [apply sameMatchData_refl|apply sameMatchData_trans
      |apply sameMatchData_applyWrites].
Qed.

Lemma invoked_app a b : invoked (a ++ b) = invoked a ++ invoked b.
Proof. unfold invoked. apply omap_app. Qed.

(** One call of the loop on a scrim that is ready or has incomplete
    teams. *)
Lemma scan_call formula i w :
  path (store w) i = PIncompleteTeams \/ (exists scrim, path (store w) i = PRate scrim) ->
  let rw := run noFault (processMatchWith formula i) w in
  fst rw = inr tt /\
  invoked (log (snd rw)) = invoked (log w) /\
  processedFlag (store (snd rw)) i =
    (if isReady (store w) i then Some true else processedFlag (store w) i) /\
  (forall k, k <> i ->
     path (store (snd rw)) k = path (store w) k /\
     processedFlag (store (snd rw)) k = processedFlag (store w) k).
Proof.
  intros Hp. cbn zeta.
  destruct (processMatch_effect formula i w) as (H1 & H2 & _ & H4 & _).
  unfold effect in H1, H2, H4. unfold isReady.
  destruct Hp as [Hp | [scrim Hp]]; rewrite Hp in *; cbn [fst snd] in H1, H2, H4.
  - rewrite H1, H2, H4, invoked_app. cbn. rewrite app_nil_r. auto.
  - destruct (path_PRate_inv _ _ _ Hp) as ((s & Hs & _ & Hscrim) & _).
    assert (Hid : Scrim.id scrim = i) by (rewrite Hscrim; reflexivity).
    rewrite H1, H2, H4, invoked_app. cbn [invoked omap list_omap app].
    rewrite app_nil_r.
    split; [reflexivity|]. split; [reflexivity|]. split.
    + unfold processedFlag. rewrite (rated_scrims formula (store w) i scrim Hid).
      rewrite lookup_alter_eq, Hs. reflexivity.
    + intros k Hk. split; [apply path_other; auto|].
      unfold processedFlag. rewrite (rated_scrims formula (store w) i scrim Hid).
      rewrite lookup_alter_ne by congruence. reflexivity.
Qed.

Lemma scanRows_noFault formula rows w :
  NoDup rows ->
  (forall i, i ∈ rows ->
     path (store w) i = PIncompleteTeams \/ exists scrim, path (store w) i = PRate scrim) ->
  let rw := run noFault (scanRows formula rows) w in
  fst rw = inr tt /\
  invoked (log (snd rw)) = invoked (log w) ++ rows /\
  (forall k, processedFlag (store (snd rw)) k =
     if bool_decide (k ∈ rows) && isReady (store w) k
     then Some true else processedFlag (store w) k).
Proof.
  revert w; induction rows as [|i rows IH]; intros w Hnd Hpaths; cbn zeta.
  - cbn. rewrite app_nil_r. repeat split.
  - apply NoDup_cons in Hnd as [Hnotin Hnd].
    cbn [scanRows]. rewrite run_logger, run_bind.
    assert (Hpi := Hpaths i (proj2 (elem_of_cons rows i i) (or_introl eq_refl))).
    destruct (scan_call formula i (logWorld (InfoFound i) w) Hpi)
      as (Hres & Hinv & Hflag & Hother).
    change (store (logWorld (InfoFound i) w)) with (store w) in *.
    destruct (run noFault (processMatchWith formula i) (logWorld (InfoFound i) w))
      as [[e|[]] w1]; cbn [fst snd] in *; [discriminate|].
    assert (Hpaths1 : forall j, j ∈ rows ->
              path (store w1) j = PIncompleteTeams \/
              exists scrim, path (store w1) j = PRate scrim).
    { intros j Hj. destruct (Hother j) as [-> _]; [intros ->; contradiction|].
      apply Hpaths. apply elem_of_cons. auto. }
    destruct (IH w1 Hnd Hpaths1) as (Hr & Hi & Hf).
    split; [exact Hr|]. split.
    { rewrite Hi, Hinv. cbn [logWorld log]. rewrite invoked_app. cbn.
      rewrite <- app_assoc. reflexivity. }
    intros k. rewrite Hf.
    destruct (decide (k = i)) as [->|Hne].
    + rewrite (bool_decide_eq_false_2 _ Hnotin). cbn [andb].
      rewrite bool_decide_eq_true_2 by (apply elem_of_cons; auto). cbn [andb].
      exact Hflag.
    + destruct (Hother k Hne) as [Hpk Hfk].
      unfold isReady. rewrite Hpk, Hfk.
      destruct (bool_decide (k ∈ rows)) eqn:E.
      * apply bool_decide_eq_true in E.
        rewrite bool_decide_eq_true_2 by (apply elem_of_cons; auto). reflexivity.
      * apply bool_decide_eq_false in E.
        rewrite bool_decide_eq_false_2; [reflexivity|].
        intros [?|?]%elem_of_cons; auto.
Qed.

Lemma NoDup_map_filter {A B : Type} (g : A -> B) (p : A -> bool) (l : list A) :
  NoDup (List.map g l) -> NoDup (List.map g (List.filter p l)).
Proof.
  induction l as [|a l IH]; intros H; [exact H|].
  cbn [List.map] in H. apply NoDup_cons in H as [Hnotin Hnd].
  cbn [List.filter]. destruct (p a); [|apply IH, Hnd].
  cbn [List.map]. apply NoDup_cons. split; [|apply IH, Hnd].
  intros Hin. apply Hnotin.
  apply list_elem_of_In, in_map_iff in Hin as [x [Hx Hxin]].
  apply list_elem_of_In, in_map_iff. exists x. split; [exact Hx|].
  apply filter_In in Hxin. tauto.
Qed.

Lemma NoDup_selectUnprocessed db : NoDup (selectUnprocessed db).
Proof.
  unfold selectUnprocessed. apply NoDup_map_filter.
  exact (NoDup_fst_map_to_list (scrims db)).
Qed.

Lemma isReady_discovered db i : isReady db i = true -> i ∈ selectUnprocessed db.
Proof.
  unfold isReady. destruct (path db i) as [| | | | |scrim] eqn:Hp; try discriminate.
  intros _.
  destruct (path_PRate_inv _ _ _ Hp) as ((s & Hs & Hflag & Hscrim) & Hst & Hw & _).
  rewrite Hscrim in Hst, Hw. cbn in Hst, Hw.
  apply (selectUnprocessed_intro db i s Hs Hst Hflag).
  intros E. rewrite E in Hw. discriminate.
Qed.

Lemma discovered_path db i :
  (forall j s, scrims db !! j = Some s -> Scrim.winner_team s <> Some 0) ->
  i ∈ selectUnprocessed db ->
  path db i = PIncompleteTeams \/ exists scrim, path db i = PRate scrim.
Proof.
  intros Hck Hi. apply selectUnprocessed_inv in Hi as (s & Hs & Hst & Hp & Hw).
  assert (Ht : truthy (Scrim.winner_team s) = true).
  { specialize (Hck i s Hs). destruct (Scrim.winner_team s) as [z|]; [|contradiction].
    cbn. destruct (Z.eqb_spec z 0); [subst; contradiction|reflexivity]. }
  unfold path, selectScrim. rewrite Hs.
  cbn [Scrim.status Scrim.elo_processed Scrim.winner_team].
  rewrite Hst, Hp, Ht. cbn [negb String.eqb].
  destruct (_ || _); eauto.
Qed.

(** X14. A scan cycle during which nothing fails, on a store whose
    winner_team values respect the CHECK of the schema (never 0), visits
    every scrim the scan query returned, in order, and returns; afterwards
    the processed flag is set on exactly the scrims that were ready
    (completed, unprocessed, winner set, both teams non-empty) or already
    flagged, and the next scan query returns exactly the discovered scrims
    with an empty team. *)
Theorem scan_cycle_processes_ready (w : World) :
  (forall j s, scrims (store w) !! j = Some s -> Scrim.winner_team s <> Some 0) ->
  fst (run noFault pollCycle w) = inr tt /\
  invoked (log (snd (run noFault pollCycle w))) =
    invoked (log w) ++ selectUnprocessed (store w) /\
  (forall k, processedFlag (store (snd (run noFault pollCycle w))) k =
     if isReady (store w) k then Some true else processedFlag (store w) k) /\
  (forall k, k ∈ selectUnprocessed (store (snd (run noFault pollCycle w))) <->
     k ∈ selectUnprocessed (store w) /\ isReady (store w) k = false).
Proof.
  intros Hck.
  assert (Hsame : sameMatchData (store w) (store (snd (run noFault pollCycle w)))).
  { unfold pollCycle. apply pollCycle_store_rel;
      [apply sameMatchData_refl|apply sameMatchData_trans
      |apply sameMatchData_applyWrites]. }
  assert (Hmain :
    fst (run noFault pollCycle w) = inr tt /\
    invoked (log (snd (run noFault pollCycle w))) =
      invoked (log w) ++ selectUnprocessed (store w) /\
    (forall k, processedFlag (store (snd (run noFault pollCycle w))) k =
       if isReady (store w) k then Some true else processedFlag (store w) k)).
  { unfold pollCycle, pollCycleWith.
    rewrite run_tryCatch, run_bind, run_query_noFault.
    rewrite run_tryFinally_release, run_bind, run_query_noFault.
    set (w0 := okWorld SelectUnprocessed (okWorld GetClient w)).
    assert (Hrows : okValue SelectUnprocessed (okWorld GetClient w)
                    = selectUnprocessed (store w)) by reflexivity.
    rewrite Hrows.
    assert (Hst0 : store w0 = store w) by reflexivity.
    assert (Hlog0 : log w0 = log w) by reflexivity.
    destruct (scanRows_noFault eloFormula (selectUnprocessed (store w)) w0)
      as (Hr & Hi & Hf).
    { apply NoDup_selectUnprocessed. }
    { intros i Hi. rewrite Hst0. apply discovered_path; assumption. }
    destruct (run noFault (scanRows eloFormula (selectUnprocessed (store w))) w0)
      as [[e|[]] w1]; cbn [fst snd] in *; [discriminate|].
    cbn [releaseWorld log store].
    split; [reflexivity|]. split; [rewrite Hi, Hlog0; reflexivity|].
    intros k. rewrite Hf, Hst0.
    destruct (isReady (store w) k) eqn:E.
    - rewrite bool_decide_eq_true_2 by (apply isReady_discovered, E). reflexivity.
    - rewrite andb_false_r. reflexivity. }
  destruct Hmain as (H1 & H2 & H3).
  split; [exact H1|]. split; [exact H2|]. split; [exact H3|].
  intros k. split.
  - intros Hk. split; [exact (selectUnprocessed_shrinks _ _ _ Hsame Hk)|].
    apply selectUnprocessed_inv in Hk as (s' & Hs' & _ & Hflag & _).
    specialize (H3 k). unfold processedFlag at 1 in H3. rewrite Hs' in H3.
    cbn in H3. rewrite Hflag in H3.
    destruct (isReady (store w) k); [discriminate|reflexivity].
  - intros [Hk Hnr].
    apply selectUnprocessed_inv in Hk as (s & Hs & Hst & Hp & Hw).
    destruct Hsame as (_ & _ & Hsame). specialize (Hsame k). rewrite Hs in Hsame.
    destruct (scrims (store (snd (run noFault pollCycle w))) !! k) as [s'|] eqn:Hs';
      [|contradiction].
    destruct Hsame as (_ & Hst' & _ & Hw' & _).
    apply (selectUnprocessed_intro _ k s' Hs'); [congruence| |congruence].
    specialize (H3 k). rewrite Hnr in H3. unfold processedFlag in H3.
    rewrite Hs', Hs in H3. cbn in H3. congruence.
Qed.

Lemma scan_cycle_processes_ready_witness :
  invoked (log (snd (run noFault pollCycle (initWorld twoDB)))) = [7; 10] /\
  processedFlag (store (snd (run noFault pollCycle (initWorld twoDB)))) 7 = Some true /\
  processedFlag (store (snd (run noFault pollCycle (initWorld twoDB)))) 10 = Some true.
Proof.
  destruct (scan_cycle_processes_ready (initWorld twoDB)) as (_ & H2 & H3 & _).
  - intros j s Hs. cbn [initWorld store twoDB scrims] in Hs.
    apply lookup_insert_Some in Hs as [[_ <-]|[_ Hs]]; [discriminate|].
    apply lookup_singleton_Some in Hs as [_ <-]. discriminate.
  - split; [rewrite H2; vm_compute; reflexivity|].
    split; rewrite H3; vm_compute; reflexivity.
Defined.

(* ================================================================== *)
(** ** Further properties: the participants query and the upsert *)

Lemma joinStats_team mps sp q t :
  In (PlayerRow.mk q (Some t)) (joinStats mps sp) <->
  q = ScrimPlayer.player_id sp /\
  exists m, In m mps /\
    MatchPlayerStats.player_id m = ScrimPlayer.player_id sp /\
    MatchPlayerStats.scrim_id m = ScrimPlayer.scrim_id sp /\
    MatchPlayerStats.team_id m = t.
Proof.
  unfold joinStats.
  set (f := fun m => (ScrimPlayer.player_id sp =? MatchPlayerStats.player_id m)
                     && (MatchPlayerStats.scrim_id m =? ScrimPlayer.scrim_id sp)).
  assert (Hf : forall m, In m (List.filter f mps) <->
             In m mps /\ MatchPlayerStats.player_id m = ScrimPlayer.player_id sp /\
             MatchPlayerStats.scrim_id m = ScrimPlayer.scrim_id sp).
  { intros m. rewrite filter_In. unfold f. rewrite andb_true_iff, !Z.eqb_eq.
    intuition congruence. }
  assert (Hmap : In (PlayerRow.mk q (Some t))
                   (List.map (fun m => PlayerRow.mk (ScrimPlayer.player_id sp)
                                         (Some (MatchPlayerStats.team_id m)))
                             (List.filter f mps)) <->
                 q = ScrimPlayer.player_id sp /\
                 exists m, In m mps /\
                   MatchPlayerStats.player_id m = ScrimPlayer.player_id sp /\
                   MatchPlayerStats.scrim_id m = ScrimPlayer.scrim_id sp /\
                   MatchPlayerStats.team_id m = t).
  { rewrite in_map_iff. split.
    - intros [m [Hm Hin]]. injection Hm as Hq Ht. apply Hf in Hin.
      split; [congruence|]. exists m. tauto.
    - intros [Hq [m (Hin & H1 & H2 & H3)]]. exists m. split; [congruence|].
      apply Hf. tauto. }
  destruct (List.filter f mps) as [|m0 ms] eqn:E; [|exact Hmap].
  split.
  - intros [H|[]]. discriminate.
  - intros [_ [m (Hin & H1 & H2 & _)]]. exfalso.
    apply (proj2 (Hf m)); auto.
Qed.

Lemma joinStats_null mps sp q :
  In (PlayerRow.mk q None) (joinStats mps sp) <->
  q = ScrimPlayer.player_id sp /\
  forall m, In m mps ->
    ~ (MatchPlayerStats.player_id m = ScrimPlayer.player_id sp /\
       MatchPlayerStats.scrim_id m = ScrimPlayer.scrim_id sp).
Proof.
  unfold joinStats.
  set (f := fun m => (ScrimPlayer.player_id sp =? MatchPlayerStats.player_id m)
                     && (MatchPlayerStats.scrim_id m =? ScrimPlayer.scrim_id sp)).
  assert (Hf : forall m, In m (List.filter f mps) <->
             In m mps /\ MatchPlayerStats.player_id m = ScrimPlayer.player_id sp /\
             MatchPlayerStats.scrim_id m = ScrimPlayer.scrim_id sp).
  { intros m. rewrite filter_In. unfold f. rewrite andb_true_iff, !Z.eqb_eq.
    intuition congruence. }
  destruct (List.filter f mps) as [|m0 ms] eqn:E.
  - split.
    + intros [H|[]]. injection H as Hq. split; [congruence|].
      intros m Hin Hm. apply (proj2 (Hf m)); tauto.
    + intros [-> _]. left. reflexivity.
  - split.
    + intros Hin. apply in_map_iff in Hin as [m [Hm _]]. discriminate.
    + intros [_ Hnone]. exfalso.
      destruct (proj1 (Hf m0) (or_introl eq_refl)) as (Hin & H1 & H2).
      apply (Hnone m0 Hin). tauto.
Qed.

(** X16. The participants query.  Its rows are pairwise different; a
    player appears with team [t] exactly when scrim_players lists the
    player for the scrim and some stats row of the player for the scrim
    names team [t]; a player appears with a NULL team exactly when
    scrim_players lists the player for the scrim and the player has no
    stats row for it.  So every listed player appears at least once, and
    never both with a team and without. *)
Theorem participants_query (db : DB) (scrimId : Z) :
  NoDup (selectPlayers db scrimId) /\
  (forall q t,
     PlayerRow.mk q (Some t) ∈ selectPlayers db scrimId <->
     In (ScrimPlayer.mk scrimId q) (scrim_players db) /\
     exists m, In m (match_player_stats db) /\
       MatchPlayerStats.player_id m = q /\
       MatchPlayerStats.scrim_id m = scrimId /\
       MatchPlayerStats.team_id m = t) /\
  (forall q,
     PlayerRow.mk q None ∈ selectPlayers db scrimId <->
     In (ScrimPlayer.mk scrimId q) (scrim_players db) /\
     forall m, In m (match_player_stats db) ->
       ~ (MatchPlayerStats.player_id m = q /\ MatchPlayerStats.scrim_id m = scrimId)) /\
  (forall q,
     In (ScrimPlayer.mk scrimId q) (scrim_players db) ->
     exists t, PlayerRow.mk q t ∈ selectPlayers db scrimId).
Proof.
  assert (Hsp : forall sp q,
            (In sp (List.filter (fun sp => ScrimPlayer.scrim_id sp =? scrimId)
                                (scrim_players db)) /\
             q = ScrimPlayer.player_id sp) <->
            (sp = ScrimPlayer.mk scrimId q /\
             In (ScrimPlayer.mk scrimId q) (scrim_players db))).
  { intros [sid pid] q. rewrite filter_In. cbn. rewrite Z.eqb_eq. split.
    - intros [[Hin ->] ->]. auto.
    - intros [[= -> ->] Hin]. auto. }
  assert (Hteam : forall q t,
     PlayerRow.mk q (Some t) ∈ selectPlayers db scrimId <->
     In (ScrimPlayer.mk scrimId q) (scrim_players db) /\
     exists m, In m (match_player_stats db) /\
       MatchPlayerStats.player_id m = q /\
       MatchPlayerStats.scrim_id m = scrimId /\
       MatchPlayerStats.team_id m = t).
  { intros q t. unfold selectPlayers.
    rewrite elem_of_remove_dups, list_elem_of_In, in_flat_map. split.
    - intros [sp [Hin Hrow]]. apply joinStats_team in Hrow as [Hq Hm].
      destruct (proj1 (Hsp sp q) (conj Hin Hq)) as [-> Hin']. cbn in Hm. tauto.
    - intros [Hin Hm]. exists (ScrimPlayer.mk scrimId q). split.
      + apply (proj2 (Hsp _ q)). auto.
      + apply joinStats_team. cbn. tauto. }
  assert (Hnull : forall q,
     PlayerRow.mk q None ∈ selectPlayers db scrimId <->
     In (ScrimPlayer.mk scrimId q) (scrim_players db) /\
     forall m, In m (match_player_stats db) ->
       ~ (MatchPlayerStats.player_id m = q /\ MatchPlayerStats.scrim_id m = scrimId)).
  { intros q. unfold selectPlayers.
    rewrite elem_of_remove_dups, list_elem_of_In, in_flat_map. split.
    - intros [sp [Hin Hrow]]. apply joinStats_null in Hrow as [Hq Hm].
      destruct (proj1 (Hsp sp q) (conj Hin Hq)) as [-> Hin']. cbn in Hm. tauto.
    - intros [Hin Hm]. exists (ScrimPlayer.mk scrimId q). split.
      + apply (proj2 (Hsp _ q)). auto.
      + apply joinStats_null. cbn. tauto. }
  split; [unfold selectPlayers; apply NoDup_remove_dups|].
  split; [exact Hteam|]. split; [exact Hnull|].
  intros q Hin.
  destruct (List.existsb
              (fun m => (MatchPlayerStats.player_id m =? q)
                        && (MatchPlayerStats.scrim_id m =? scrimId))
              (match_player_stats db)) eqn:E.
  - apply existsb_exists in E as [m [Hm Hcond]].
    apply andb_true_iff in Hcond as [H1%Z.eqb_eq H2%Z.eqb_eq].
    exists (Some (MatchPlayerStats.team_id m)). apply Hteam. eauto 10.
  - exists None. apply Hnull. split; [exact Hin|].
    intros m Hm [H1 H2].
    assert (Ht : List.existsb
              (fun m => (MatchPlayerStats.player_id m =? q)
                        && (MatchPlayerStats.scrim_id m =? scrimId))
              (match_player_stats db) = true).
    { apply existsb_exists. exists m. split; [exact Hm|].
      apply andb_true_iff. rewrite !Z.eqb_eq. auto. }
    congruence.
Qed.

(** X17. updatePlayerRating inside an open transaction, when no statement
    is rejected, leaves the committed store alone; in the view of the
    transaction the player's row of the league gets exactly the new
    rating, one more win or one more loss, every other rating row and
    every scrim stays as it was, and one history entry (old rating, new
    rating) is appended.  Doing it again keeps the rating and counts
    again: the update is not idempotent by itself. *)
Theorem updatePlayerRating_effect (w : World) (ws : list Write)
    (playerId scrimId : Z) (lg : League) (current : EloRating.t)
    (newRating : Z) (isWin : bool) :
  tx w = Some ws ->
  let call := updatePlayerRating playerId scrimId lg current newRating isWin in
  let w1 := snd (run noFault call w) in
  let w2 := snd (run noFault call w1) in
  let v := view (store w) (tx w) in
  let v1 := view (store w1) (tx w1) in
  let v2 := view (store w2) (tx w2) in
  let before := currentRating v lg playerId in
  let entry := EloHistory.mk playerId scrimId (EloRating.rating current) newRating in
  fst (run noFault call w) = inr tt /\
  store w1 = store w /\
  ratingOf v1 playerId lg =
    Some (EloRating.mk playerId lg newRating
            (EloRating.wins before + b2z isWin)
            (EloRating.losses before + b2z (negb isWin))) /\
  (forall q lg', (q, lg') <> (playerId, lg) -> ratingOf v1 q lg' = ratingOf v q lg') /\
  elo_history v1 = elo_history v ++ [entry] /\
  scrims v1 = scrims v /\
  ratingOf v2 playerId lg =
    Some (EloRating.mk playerId lg newRating
            (EloRating.wins before + b2z isWin + b2z isWin)
            (EloRating.losses before + b2z (negb isWin) + b2z (negb isWin))) /\
  elo_history v2 = elo_history v ++ [entry; entry].
Proof.
  destruct w as [st t c l tr]. cbn [tx]. intros ->. cbn zeta.
  unfold updatePlayerRating. run_steps. cbn [run fst snd store tx].
  run_steps. cbn [run fst snd store tx view].
  rewrite <- !app_assoc. cbn [app].
  rewrite !applyWrites_app.
  set (v := applyWrites st ws).
  cbn [applyWrites fold_left applyWrite elo_ratings elo_history scrims].
  unfold ratingOf. cbn [elo_ratings].
  split; [reflexivity|]. split; [reflexivity|].
  split. { rewrite lookup_partial_alter_eq. apply upsertRow_current. }
  split. { intros q lg' Hne. apply lookup_partial_alter_ne. congruence. }
  split; [reflexivity|]. split; [reflexivity|].
  split.
  { rewrite !lookup_partial_alter_eq, upsertRow_current. reflexivity. }
  rewrite <- !app_assoc. reflexivity.
Qed.

Lemma updatePlayerRating_effect_witness :
  ratingOf
    (view (store (snd (run noFault
                         (updatePlayerRating 1 7 Academy (defaultRating 1 Academy) 1016 true)
                         (mkWorld exampleDB (Some []) 0 [] []))))
          (tx (snd (run noFault
                      (updatePlayerRating 1 7 Academy (defaultRating 1 Academy) 1016 true)
                      (mkWorld exampleDB (Some []) 0 [] [])))))
    1 Academy = Some (EloRating.mk 1 Academy 1016 1 0).
Proof.
  destruct (updatePlayerRating_effect (mkWorld exampleDB (Some []) 0 [] []) []
              1 7 Academy (defaultRating 1 Academy) 1016 true)
    as (_ & _ & H & _).
  - reflexivity.
  - rewrite H. reflexivity.
Defined.

(** X18. An error that processMatch throws has been logged by its catch
    block first, as the last log line, with two exceptions, in which the
    call logs nothing for the error: the store rejected getClient, before
    the try, and the error is that rejection; or the try block threw and
    the store rejected the ROLLBACK of the catch block, and the error is
    that second rejection, not the one the try block threw.  So a
    rejection inside the try block is logged whenever the ROLLBACK that
    follows it is accepted. *)
Theorem thrown_errors_are_logged (fault : nat -> bool) (w : World)
    (scrimId : Z) (e : Error) :
  fst (run fault (processMatch scrimId) w) = inl e ->
  (exists l, log (snd (run fault (processMatch scrimId) w)) =
             l ++ [ErrorProcessing scrimId e]) \/
  (fault (calls w) = true /\ e = StoreFailure (calls w) /\
   log (snd (run fault (processMatch scrimId) w)) = log w) \/
  (fault (calls w) = false /\
   exists e0 w1,
     run fault (processBody eloFormula scrimId) (okWorld GetClient w) = (inl e0, w1) /\
     fault (calls w1) = true /\ e = StoreFailure (calls w1) /\
     log (snd (run fault (processMatch scrimId) w)) = log w1).
Proof.
  unfold processMatch, processMatchWith. rewrite run_bind, run_query.
  destruct (fault (calls w)) eqn:Hf.
  { cbn [fst snd failWorld log]. intros [= <-]. right. left. auto. }
  rewrite run_tryFinally_release, run_tryCatch.
  destruct (run fault (processBody eloFormula scrimId) (okWorld GetClient w))
    as [[e0|[]] w1]; [|discriminate].
  unfold processHandler. rewrite run_bind, run_query.
  destruct (fault (calls w1)) eqn:Hf1.
  - cbn [fst snd failWorld releaseWorld log]. intros [= <-].
    right. right. split; [reflexivity|]. exists e0, w1. auto.
  - cbn. intros [= <-]. left. eauto.
Qed.

(** The thirteenth call of a processing of scrim 7, a write, is rejected;
    the ROLLBACK is accepted, so the rejection is the last log line. *)
Lemma thrown_errors_are_logged_witness :
  fst (run (failAt 12) (processMatch 7) (initWorld exampleDB)) = inl (StoreFailure 12) /\
  exists l, log (snd (run (failAt 12) (processMatch 7) (initWorld exampleDB))) =
            l ++ [ErrorProcessing 7 (StoreFailure 12)].
Proof.
  assert (H : fst (run (failAt 12) (processMatch 7) (initWorld exampleDB))
              = inl (StoreFailure 12)).
  { unfold processMatch. generalize eloFormula. intros f. vm_compute. reflexivity. }
  split; [exact H|].
  destruct (thrown_errors_are_logged (failAt 12) (initWorld exampleDB) 7 _ H)
    as [Hl|[(Hf & _)|(_ & e0 & w1 & Hrun & Hf & _)]].
  - exact Hl.
  - discriminate Hf.
  - exfalso. revert Hrun Hf. generalize eloFormula. intros f.
    vm_compute. intros [= <- <-]. discriminate.
Defined.

(* ================================================================== *)
(** ** Runs on the connection pool *)

Lemma prun_bind {A B : Type} fault (p : Prog A) (f : A -> Prog B) w :
  prun fault (bind p f) w =
    match prun fault p w with
    | (inl e, w') => (inl e, w')
    | (inr a, w') => prun fault (f a) w'
    end.
Proof.
  revert w; induction p as [a|e|X s k IH|ev k IH|k IH]; intros w.
  - reflexivity.
  - reflexivity.
  - cbn [bind prun]. destruct (fault (pcalls w)); apply IH.
  - cbn [bind prun]. apply IH.
  - cbn [bind prun]. apply IH.
Qed.

Lemma prun_tryCatch {A : Type} fault (p : Prog A) (h : Error -> Prog A) w :
  prun fault (tryCatch p h) w =
    match prun fault p w with
    | (inl e, w') => prun fault (h e) w'
    | (inr a, w') => (inr a, w')
    end.
Proof.
  revert w; induction p as [a|e|X s k IH|ev k IH|k IH]; intros w.
  - reflexivity.
  - reflexivity.
  - cbn [tryCatch prun]. destruct (fault (pcalls w)); apply IH.
  - cbn [tryCatch prun]. apply IH.
  - cbn [tryCatch prun]. apply IH.
Qed.

Lemma prun_tryFinally_release {A : Type} fault (p : Prog A) w :
  prun fault (tryFinally p (Release (Ret tt))) w =
    (fst (prun fault p w), releaseConn (snd (prun fault p w))).
Proof.
  revert w; induction p as [a|e|X s k IH|ev k IH|k IH]; intros w.
  - reflexivity.
  - reflexivity.
  - cbn [tryFinally prun]. destruct (fault (pcalls w)); apply IH.
  - cbn [tryFinally prun]. apply IH.
  - cbn [tryFinally prun]. apply IH.
Qed.

Lemma prun_query {X : Type} fault (s : Stmt X) w :
  prun fault (query s) w =
    if fault (pcalls w)
    then (inl (StoreFailure (pcalls w)),
          mkPooled (pstore w) (held w) (idle w) (S (pcalls w)) (plog w) (ptrace w))
    else (inr (fst (pexec s w)), snd (pexec s w)).
Proof. unfold query. cbn [prun]. destruct (fault (pcalls w)); reflexivity. Qed.

(** Every statement leaves the committed store as it is or applies writes
    to it, so the store after any run is the store before it with some
    writes applied. *)
Lemma pexec_store {X : Type} (s : Stmt X) w :
  exists ws, pstore (snd (pexec s w)) = applyWrites (pstore w) ws.
Proof.
  unfold pexec. destruct s; cbn [exec isGetClient snd pstore];
    try (exists []; reflexivity).
  - destruct (List.hd None (held w)) as [ws|]; cbn [view];
      [exists ws|exists []]; reflexivity.
  - destruct (List.hd None (held w)) as [ws|]; cbn [snd pstore];
      [exists []|exists [w0]]; reflexivity.
Qed.

Lemma prun_store {A : Type} fault (p : Prog A) w :
  exists ws, pstore (snd (prun fault p w)) = applyWrites (pstore w) ws.
Proof.
  revert w; induction p as [a|e|X s k IH|ev k IH|k IH]; intros w.
  - exists []. reflexivity.
  - exists []. reflexivity.
  - cbn [prun]. destruct (fault (pcalls w)).
    + destruct (IH (inl (StoreFailure (pcalls w)))
                  (mkPooled (pstore w) (held w) (idle w) (S (pcalls w))
                            (plog w) (ptrace w))) as [ws H].
      exists ws. exact H.
    + destruct (pexec_store s w) as [ws1 H1].
      destruct (IH (inr (fst (pexec s w))) (snd (pexec s w))) as [ws2 H2].
      exists (ws1 ++ ws2). rewrite H2, H1, applyWrites_app. reflexivity.
  - cbn [prun].
    destruct (IH (mkPooled (pstore w) (held w) (idle w) (pcalls w)
                           (plog w ++ [ev]) (ptrace w))) as [ws H].
    exists ws. exact H.
  - cbn [prun].
    destruct (IH (releaseConn w)) as [ws H]. exists ws. rewrite H.
    unfold releaseConn. destruct (held w); reflexivity.
Qed.

Lemma prun_store_rel (R : DB -> DB -> Prop) {A : Type} fault (p : Prog A) w :
  (forall db ws, R db (applyWrites db ws)) ->
  R (pstore w) (pstore (snd (prun fault p w))).
Proof.
  intros Hws. destruct (prun_store fault p w) as [ws ->]. apply Hws.
Qed.

(** On a tree that neither takes nor releases a connection, [prun] is
    [run] on the connection in use. *)
Lemma prun_NoPool {A : Type} fault (p : Prog A) st c hs i n l tr :
  NoPool p ->
  prun fault p (mkPooled st (c :: hs) i n l tr) =
    (fst (run fault p (mkWorld st c n l tr)),
     mkPooled (store (snd (run fault p (mkWorld st c n l tr))))
              (tx (snd (run fault p (mkWorld st c n l tr))) :: hs) i
              (calls (snd (run fault p (mkWorld st c n l tr))))
              (log (snd (run fault p (mkWorld st c n l tr))))
              (trace (snd (run fault p (mkWorld st c n l tr))))).
Proof.
  revert st c n l tr; induction p as [a|e|X s k IH|ev k IH|k IH];
    intros st c n l tr Hp.
  - reflexivity.
  - reflexivity.
  - destruct Hp as [Hs Hk]. cbn [prun run pcalls calls store tx log trace].
    destruct (fault n).
    + apply IH, Hk.
    + unfold pexec. cbn [pstore held idle pcalls plog ptrace List.hd List.tl].
      rewrite Hs.
      destruct (exec s st c) as [[x db] t]. cbn [fst snd].
      apply IH, Hk.
  - cbn [prun run pcalls calls store tx log trace pstore held idle plog ptrace].
    apply IH, Hp.
  - destruct Hp.
Qed.

Lemma NoPool_bind {A B : Type} (p : Prog A) (f : A -> Prog B) :
  NoPool p -> (forall a, NoPool (f a)) -> NoPool (bind p f).
Proof.
  intros Hp Hf. induction p as [a|e|X s k IH|ev k IH|k IH]; cbn [bind NoPool].
  - apply Hf.
  - exact I.
  - destruct Hp as [Hs Hk]. split; [exact Hs|]. intros r. apply IH, Hk.
  - apply IH, Hp.
  - destruct Hp.
Qed.

Lemma NoPool_tryCatch {A : Type} (p : Prog A) (h : Error -> Prog A) :
  NoPool p -> (forall e, NoPool (h e)) -> NoPool (tryCatch p h).
Proof.
  intros Hp Hh. induction p as [a|e|X s k IH|ev k IH|k IH]; cbn [tryCatch NoPool].
  - exact I.
  - apply Hh.
  - destruct Hp as [Hs Hk]. split; [exact Hs|]. intros r. apply IH, Hk.
  - apply IH, Hp.
  - destruct Hp.
Qed.

Lemma NoPool_query {X : Type} (s : Stmt X) :
  isGetClient s = false -> NoPool (query s).
Proof. intros Hs. split; [exact Hs|]. intros [e|x]; exact I. Qed.

Lemma NoPool_fetchRatings lg ps acc : NoPool (fetchRatings lg ps acc).
Proof.
  revert acc; induction ps as [|p ps IH]; intros acc; [exact I|].
  cbn [fetchRatings]. apply NoPool_bind; [apply NoPool_query; reflexivity|].
  intros rows. apply IH.
Qed.

Lemma NoPool_updateTeam formula scrim ratings opp res team :
  NoPool (updateTeam formula scrim ratings opp res team).
Proof.
  induction team as [|p team IH]; [exact I|].
  cbn [updateTeam]. destruct (ratings !! PlayerRow.player_id p); [|exact I].
  apply NoPool_bind; [|intros _; exact IH].
  unfold updatePlayerRating.
  apply NoPool_bind; [apply NoPool_query; reflexivity|].
  intros _; apply NoPool_query; reflexivity.
Qed.

Lemma NoPool_rateScrim formula scrimId scrim :
  NoPool (rateScrim formula scrimId scrim).
Proof.
  unfold rateScrim. destruct (negb (truthy (Scrim.winner_team scrim))); [exact I|].
  apply NoPool_bind; [apply NoPool_query; reflexivity|intros players].
  apply NoPool_bind; [apply NoPool_fetchRatings|intros ratings].
  cbn zeta. destruct (_ || _).
  { cbn [logger NoPool].
    apply NoPool_bind; [apply NoPool_query; reflexivity|intros _; exact I]. }
  destruct (sumRatings _ _ _); [|exact I].
  destruct (sumRatings _ _ _); [|exact I].
  apply NoPool_bind; [apply NoPool_updateTeam|intros _].
  apply NoPool_bind; [apply NoPool_updateTeam|intros _].
  apply NoPool_bind; [apply NoPool_query; reflexivity|intros _].
  apply NoPool_bind; [apply NoPool_query; reflexivity|intros _].
  exact I.
Qed.

Lemma NoPool_processBody formula scrimId : NoPool (processBody formula scrimId).
Proof.
  unfold processBody.
  apply NoPool_bind; [apply NoPool_query; reflexivity|intros _].
  apply NoPool_bind; [apply NoPool_query; reflexivity|intros rows].
  destruct rows as [|scrim rest]; [exact I|].
  destruct (negb _); [exact I|].
  destruct (Scrim.elo_processed scrim).
  { cbn [logger NoPool].
    apply NoPool_bind; [apply NoPool_query; reflexivity|intros _; exact I]. }
  apply NoPool_rateScrim.
Qed.

Lemma NoPool_processHandler scrimId e : NoPool (processHandler scrimId e).
Proof.
  unfold processHandler.
  apply NoPool_bind; [apply NoPool_query; reflexivity|intros _; exact I].
Qed.


Lemma NoPool_tryBlock formula scrimId : NoPool (tryBlock formula scrimId).
Proof.
  apply NoPool_tryCatch; [apply NoPool_processBody|apply NoPool_processHandler].
Qed.

(** A call on the pool: getClient, then the try block as [run] runs it on
    the connection handed out, which then goes back to the pool as the try
    block left it. *)
Lemma prun_processMatch formula fault scrimId w :
  prun fault (processMatchWith formula scrimId) w =
    if fault (pcalls w)
    then (inl (StoreFailure (pcalls w)),
          mkPooled (pstore w) (held w) (idle w) (S (pcalls w)) (plog w) (ptrace w))
    else
      (fst (run fault (tryBlock formula scrimId) (tryWorld (nextConn w) w)),
       mkPooled
         (store (snd (run fault (tryBlock formula scrimId) (tryWorld (nextConn w) w))))
         (held w)
         (tx (snd (run fault (tryBlock formula scrimId) (tryWorld (nextConn w) w)))
            :: List.tl (idle w))
         (calls (snd (run fault (tryBlock formula scrimId) (tryWorld (nextConn w) w))))
         (log (snd (run fault (tryBlock formula scrimId) (tryWorld (nextConn w) w))))
         (trace (snd (run fault (tryBlock formula scrimId) (tryWorld (nextConn w) w))))).
Proof.
  unfold processMatchWith. rewrite prun_bind, prun_query.
  destruct (fault (pcalls w)); [reflexivity|].
  unfold pexec. cbn [exec isGetClient fst snd].
  rewrite prun_tryFinally_release.
  fold (tryBlock formula scrimId).
  rewrite (prun_NoPool fault (tryBlock formula scrimId)) by apply NoPool_tryBlock.
  reflexivity.
Qed.

Lemma run_processMatch formula fault scrimId w :
  run fault (processMatchWith formula scrimId) w =
    if fault (calls w)
    then (inl (StoreFailure (calls w)), failWorld w)
    else (fst (run fault (tryBlock formula scrimId) (okWorld GetClient w)),
          releaseWorld (snd (run fault (tryBlock formula scrimId) (okWorld GetClient w)))).
Proof.
  unfold processMatchWith. rewrite run_bind, run_query.
  destruct (fault (calls w)); [reflexivity|].
  rewrite run_tryFinally_release. reflexivity.
Qed.

(** A call that gets a connection without open transaction returns, logs
    and leaves the committed store as [run] tells. *)
Lemma prun_processMatch_clean formula fault scrimId w :
  nextConn w = None ->
  fst (prun fault (processMatchWith formula scrimId) w) =
    fst (run fault (processMatchWith formula scrimId) (cleanWorld w)) /\
  pstore (snd (prun fault (processMatchWith formula scrimId) w)) =
    store (snd (run fault (processMatchWith formula scrimId) (cleanWorld w))) /\
  plog (snd (prun fault (processMatchWith formula scrimId) w)) =
    log (snd (run fault (processMatchWith formula scrimId) (cleanWorld w))) /\
  pcalls (snd (prun fault (processMatchWith formula scrimId) w)) =
    calls (snd (run fault (processMatchWith formula scrimId) (cleanWorld w))) /\
  ptrace (snd (prun fault (processMatchWith formula scrimId) w)) =
    trace (snd (run fault (processMatchWith formula scrimId) (cleanWorld w))).
Proof.
  intros Hc. rewrite prun_processMatch, run_processMatch, Hc.
  cbn [cleanWorld calls].
  destruct (fault (pcalls w)); [cbn; auto|].
  change (okWorld GetClient (cleanWorld w)) with (tryWorld None w).
  cbn. auto.
Qed.

(** When the try block returns, its last statement was the COMMIT or a
    ROLLBACK: the connection has no open transaction. *)
Lemma processBody_returns_clean formula fault scrimId w :
  runs fault (processBody formula scrimId) w
       (fun r w' => r = inr tt -> tx w' = None).
Proof.
  unfold processBody. apply runs_bind, runs_query; intros _; [discriminate|].
  apply runs_bind, runs_query; intros _; [discriminate|].
  destruct (okValue (SelectScrim scrimId) (okWorld BEGIN w)) as [|scrim rest].
  { apply runs_throw. discriminate. }
  destruct (negb _).
  { apply runs_throw. discriminate. }
  destruct (Scrim.elo_processed scrim).
  { apply runs_logger, runs_bind, runs_query; intros _; [discriminate|].
    apply runs_ret. reflexivity. }
  unfold rateScrim.
  destruct (negb (truthy (Scrim.winner_team scrim))).
  { apply runs_throw. discriminate. }
  apply runs_bind, runs_query; intros _; [discriminate|].
  apply runs_bind. unfold runs at 1.
  destruct (run fault (fetchRatings _ _ _) _) as [[e|ratings] w1]; cbn [fst snd];
    [discriminate|].
  cbn zeta. destruct (_ || _).
  { apply runs_logger, runs_bind, runs_query; intros _; [discriminate|].
    apply runs_ret. reflexivity. }
  destruct (sumRatings _ _ _) as [sum1|]; [|apply runs_throw; discriminate].
  destruct (sumRatings _ _ _) as [sum2|]; [|apply runs_throw; discriminate].
  apply runs_bind. unfold runs at 1.
  destruct (run fault (updateTeam _ _ _ _ _ _) _) as [[e|[]] w2]; cbn [fst snd];
    [discriminate|].
  apply runs_bind. unfold runs at 1.
  destruct (run fault (updateTeam _ _ _ _ _ _) _) as [[e|[]] w3]; cbn [fst snd];
    [discriminate|].
  apply runs_bind, runs_query; intros _; [discriminate|].
  apply runs_bind, runs_query; intros _; [discriminate|].
  apply runs_logger, runs_ret. reflexivity.
Qed.

Lemma last_snoc_op (l : list Op) (o : Op) : last (l ++ [o]) = Some o.
Proof. apply last_snoc. Qed.

(** The try block with its catch block: an error leaves the committed
    store alone; the connection is left without open transaction when the
    block returns, and when it throws after its last call, the ROLLBACK of
    the catch block, was accepted. *)
Lemma tryBlock_run formula fault scrimId w :
  let rw := run fault (tryBlock formula scrimId) w in
  (isError (fst rw) -> store (snd rw) = store w) /\
  (fst rw = inr tt -> tx (snd rw) = None) /\
  (isError (fst rw) -> fault (pred (calls (snd rw))) = false ->
   tx (snd rw) = None /\ last (trace (snd rw)) = Some (existT _ ROLLBACK : Op)) /\
  (fst rw = inr tt ->
   forall n, (calls w <= n < calls (snd rw))%nat -> fault n = false).
Proof.
  cbn zeta. unfold tryBlock. rewrite run_tryCatch.
  assert (Hst := processBody_error_store formula fault scrimId w).
  assert (Hcl := processBody_returns_clean formula fault scrimId w).
  unfold runs in Hst, Hcl.
  destruct (run fault (processBody formula scrimId) w) as [[e|[]] w1] eqn:Hbody;
    cbn [fst snd] in *.
  - unfold processHandler. rewrite run_bind, run_query.
    destruct (fault (calls w1)) eqn:Hf; cbn [fst snd failWorld okWorld store tx calls
      trace log run logger logWorld exec].
    + split; [intros _; apply Hst; exact I|].
      split; [discriminate|].
      split; [|discriminate].
      intros _ Hlast. cbn [pred] in Hlast. congruence.
    + split; [intros _; apply Hst; exact I|].
      split; [discriminate|].
      split; [|discriminate].
      intros _ _. split; [reflexivity|apply last_snoc_op].
  - split; [intros []|].
    split; [intros _; apply Hcl; reflexivity|].
    split; [intros []|].
    intros _.
    apply (Strict_run _ _ _ _ _ (Strict_processBody formula scrimId) Hbody).
Qed.

(* ================================================================== *)
(** ** [run] and the connection pool *)

(** On a pool whose idle connections carry no open transaction, [prun]
    runs a call and a scan cycle as [run] does. *)
Lemma run_prun_processMatch formula fault scrimId w :
  nextConn w = None ->
  run fault (processMatchWith formula scrimId) (cleanWorld w) =
    (fst (prun fault (processMatchWith formula scrimId) w),
     cleanWorld (snd (prun fault (processMatchWith formula scrimId) w))).
Proof.
  intros Hc. rewrite prun_processMatch, run_processMatch, Hc.
  cbn [cleanWorld calls].
  destruct (fault (pcalls w)); [reflexivity|].
  change (okWorld GetClient (mkWorld (pstore w) None (pcalls w) (plog w) (ptrace w)))
    with (tryWorld None w).
  reflexivity.
Qed.

Lemma prun_processMatch_idle formula fault scrimId w :
  Forall (fun c : Conn => c = None) (idle w) ->
  fst (prun fault (processMatchWith formula scrimId) w) = inr tt ->
  Forall (fun c : Conn => c = None)
         (idle (snd (prun fault (processMatchWith formula scrimId) w))) /\
  held (snd (prun fault (processMatchWith formula scrimId) w)) = held w.
Proof.
  intros Hi. rewrite prun_processMatch.
  destruct (fault (pcalls w)); [discriminate|].
  cbn [fst snd idle held]. intros Hr.
  destruct (tryBlock_run formula fault scrimId (tryWorld (nextConn w) w))
    as (_ & Hret & _).
  rewrite (Hret Hr). split; [|reflexivity].
  constructor; [reflexivity|].
  destruct (idle w) as [|c cs]; [constructor|].
  apply Forall_cons in Hi as [_ Hi]. exact Hi.
Qed.

Lemma nextConn_clean w :
  Forall (fun c : Conn => c = None) (idle w) -> nextConn w = None.
Proof.
  unfold nextConn. destruct (idle w) as [|c cs]; [reflexivity|].
  intros H. apply Forall_cons in H as [H _]. exact H.
Qed.

Lemma run_prun_scanRows formula fault rows w :
  Forall (fun c : Conn => c = None) (idle w) ->
  run fault (scanRows formula rows) (cleanWorld w) =
    (fst (prun fault (scanRows formula rows) w),
     cleanWorld (snd (prun fault (scanRows formula rows) w))).
Proof.
  revert w; induction rows as [|i rows IH]; intros w Hi; [reflexivity|].
  cbn [scanRows logger prun]. rewrite run_logger, run_bind, prun_bind.
  set (w0 := mkPooled (pstore w) (held w) (idle w) (pcalls w)
                      (plog w ++ [InfoFound i]) (ptrace w)).
  change (logWorld (InfoFound i) (cleanWorld w)) with (cleanWorld w0).
  rewrite (run_prun_processMatch formula fault i w0) by (apply nextConn_clean, Hi).
  assert (Hidle := prun_processMatch_idle formula fault i w0 Hi).
  destruct (prun fault (processMatchWith formula i) w0) as [[e|[]] w1];
    cbn [fst snd] in *; [reflexivity|].
  apply IH, Hidle. reflexivity.
Qed.

Lemma pexec_GetClient w :
  pexec GetClient w =
    (tt, mkPooled (pstore w) (nextConn w :: held w) (List.tl (idle w))
                  (S (pcalls w)) (plog w) (ptrace w ++ [existT _ GetClient])).
Proof. reflexivity. Qed.

Lemma run_prun_pollCycle formula fault w :
  Forall (fun c : Conn => c = None) (idle w) ->
  run fault (pollCycleWith formula) (cleanWorld w) =
    (fst (prun fault (pollCycleWith formula) w),
     cleanWorld (snd (prun fault (pollCycleWith formula) w))).
Proof.
  intros Hi. unfold pollCycleWith.
  rewrite run_tryCatch, prun_tryCatch, run_bind, prun_bind, run_query, prun_query.
  cbn [cleanWorld calls].
  destruct (fault (pcalls w)); [reflexivity|].
  rewrite pexec_GetClient, (nextConn_clean w Hi). cbn [fst snd].
  rewrite run_tryFinally_release, prun_tryFinally_release.
  rewrite run_bind, prun_bind, run_query, prun_query.
  cbn [okWorld cleanWorld calls pcalls].
  destruct (fault (S (pcalls w))); [reflexivity|].
  unfold pexec, okValue, okWorld.
  cbn [exec isGetClient fst snd pstore held idle pcalls plog ptrace List.hd List.tl
       view store tx calls log trace cleanWorld].
  set (w2 := mkPooled (pstore w) (None :: held w) (List.tl (idle w)) (S (S (pcalls w)))
                      (plog w)
                      ((ptrace w ++ [existT _ GetClient]) ++ [existT _ SelectUnprocessed])).
  change (mkWorld (pstore w) None (S (S (pcalls w))) (plog w)
                  ((ptrace w ++ [existT _ GetClient]) ++ [existT _ SelectUnprocessed]))
    with (cleanWorld w2).
  assert (Hi2 : Forall (fun c : Conn => c = None) (idle w2)).
  { cbn [w2 idle]. destruct (idle w) as [|c cs]; [constructor|].
    apply Forall_cons in Hi as [_ Hi]. exact Hi. }
  rewrite (run_prun_scanRows formula fault (selectUnprocessed (pstore w)) w2 Hi2).
  destruct (prun fault (scanRows formula (selectUnprocessed (pstore w))) w2)
    as [[e|[]] w3]; cbn [fst snd]; unfold releaseConn;
    destruct (held w3); reflexivity.
Qed.

(* ================================================================== *)
(** ** Atomicity on the connection pool *)




(* ================================================================== *)
(** ** What no call ever does, on the connection pool *)

(** X7. The history is append-only.  On the pool as it is, whatever fails
    and whatever transaction a connection of the pool still carries, the
    history after a processMatch call and after a scan cycle is the
    history before it followed by new entries.  When the connection the
    call gets has no open transaction, the new entries are all for the
    scrim the call was made for. *)
Theorem history_append_only (fault : nat -> bool) (w : Pooled) (scrimId : Z) :
  (exists added,
     elo_history (pstore (snd (prun fault (processMatch scrimId) w))) =
       elo_history (pstore w) ++ added) /\
  (exists added,
     elo_history (pstore (snd (prun fault pollCycle w))) =
       elo_history (pstore w) ++ added) /\
  (nextConn w = None ->
   exists added,
     elo_history (pstore (snd (prun fault (processMatch scrimId) w))) =
       elo_history (pstore w) ++ added /\
     Forall (fun h => EloHistory.scrim_id h = scrimId) added).
Proof.
  split; [|split].
  - apply (prun_store_rel
             (fun a b => exists added, elo_history b = elo_history a ++ added)).
    intros db ws. eexists. apply applyWrites_history.
  - apply (prun_store_rel
             (fun a b => exists added, elo_history b = elo_history a ++ added)).
    intros db ws. eexists. apply applyWrites_history.
  - intros Hc. unfold processMatch.
    destruct (prun_processMatch_clean eloFormula fault scrimId w Hc) as (_ & -> & _).
    destruct (processMatch_store_cases eloFormula fault scrimId (cleanWorld w))
      as [-> | (_ & scrim & Hp & ->)].
    + exists []. rewrite app_nil_r. split; [reflexivity|constructor].
    + destruct (path_PRate_inv _ _ _ Hp) as ((s & _ & _ & Hscrim) & _).
      assert (Hid : Scrim.id scrim = scrimId) by (rewrite Hscrim; reflexivity).
      cbn [cleanWorld store].
      rewrite (rated_history eloFormula (pstore w) scrimId scrim Hid).
      eexists. split; [reflexivity|].
      apply Forall_app. split; apply historyFor_scrim_id.
Qed.

Lemma history_append_only_witness :
  nextConn (initPool exampleDB) = None /\
  exists added,
    elo_history (pstore (snd (prun noFault (processMatch 7) (initPool exampleDB)))) =
      elo_history (pstore (initPool exampleDB)) ++ added /\
    Forall (fun h => EloHistory.scrim_id h = 7) added.
Proof.
  split; [reflexivity|].
  destruct (history_append_only noFault (initPool exampleDB) 7) as (_ & _ & H).
  apply H. reflexivity.
Defined.

(** X9. A processMatch call that gets a connection without open
    transaction, whatever fails, changes no rating row of another league
    than the scrim's and no row of a player who is on neither team; it
    deletes no rating row, and the win and loss counters of a row never
    decrease. *)
Theorem ratings_touched_only_for_teams (fault : nat -> bool) (w : Pooled)
    (scrimId : Z) :
  nextConn w = None ->
  let db := pstore w in
  let db' := pstore (snd (prun fault (processMatch scrimId) w)) in
  (forall q lg,
     (forall s, scrims db !! scrimId = Some s -> Scrim.league s <> lg) ->
     ratingOf db' q lg = ratingOf db q lg) /\
  (forall q lg,
     q ∉ teamIds db scrimId 1 -> q ∉ teamIds db scrimId 2 ->
     ratingOf db' q lg = ratingOf db q lg) /\
  (forall q lg r,
     ratingOf db q lg = Some r ->
     exists r', ratingOf db' q lg = Some r' /\
       EloRating.wins r <= EloRating.wins r' /\
       EloRating.losses r <= EloRating.losses r').
Proof.
  intros Hc. cbn zeta. unfold processMatch, ratingOf.
  destruct (prun_processMatch_clean eloFormula fault scrimId w Hc) as (_ & -> & _).
  destruct (processMatch_store_cases eloFormula fault scrimId (cleanWorld w))
    as [-> | (_ & scrim & Hp & ->)]; cbn [cleanWorld store] in *.
  { repeat split; auto. intros q lg r Hr. exists r. split; [exact Hr|lia]. }
  destruct (path_PRate_inv _ _ _ Hp) as ((s & Hs & _ & Hscrim) & _).
  assert (Hid : Scrim.id scrim = scrimId) by (rewrite Hscrim; reflexivity).
  assert (Hlg : Scrim.league scrim = Scrim.league s) by (rewrite Hscrim; reflexivity).
  split; [|split].
  - intros q lg Hne. rewrite (rated_ratings eloFormula _ _ _ Hid).
    rewrite bool_decide_eq_false_2; [reflexivity|].
    intros ->. apply (Hne s Hs). auto.
  - intros q lg H1 H2. rewrite (rated_ratings eloFormula _ _ _ Hid).
    unfold upsertFor.
    rewrite (bool_decide_eq_false_2 _ H1), (bool_decide_eq_false_2 _ H2).
    destruct (bool_decide (lg = Scrim.league scrim)) eqn:E; [|reflexivity].
    apply bool_decide_eq_true in E. rewrite E. reflexivity.
  - intros q lg r Hr. rewrite (rated_ratings eloFormula _ _ _ Hid).
    destruct (bool_decide (lg = Scrim.league scrim)) eqn:E.
    + apply bool_decide_eq_true in E. subst lg.
      destruct (upsertFor_grows eloFormula (pstore w) scrimId scrim 1 q _ r Hr)
        as (r1 & Hr1 & Hw1 & Hl1).
      destruct (upsertFor_grows eloFormula (pstore w) scrimId scrim 2 q _ r1 Hr1)
        as (r2 & Hr2 & Hw2 & Hl2).
      exists r2. split; [exact Hr2|lia].
    + exists r. split; [exact Hr|lia].
Qed.

(** On the store of scrim 6 the rating of player 1 is 600 before the call;
    the call on scrim 6 leaves the Champion rows alone and keeps a row for
    player 1. *)
Lemma ratings_touched_only_for_teams_witness :
  nextConn (initPool unevenDB) = None /\
  ratingOf (pstore (snd (prun noFault (processMatch 6) (initPool unevenDB)))) 1 Champion
    = None /\
  exists r',
    ratingOf (pstore (snd (prun noFault (processMatch 6) (initPool unevenDB)))) 1 Academy
      = Some r' /\
    0 <= EloRating.wins r'.
Proof.
  assert (Hc : nextConn (initPool unevenDB) = None) by reflexivity.
  split; [exact Hc|].
  destruct (ratings_touched_only_for_teams noFault (initPool unevenDB) 6 Hc)
    as (H1 & _ & H3).
  split.
  - rewrite H1; [reflexivity|].
    intros s Hs. vm_compute in Hs. injection Hs as <-. discriminate.
  - destruct (H3 1 Academy (EloRating.mk 1 Academy 600 0 0) eq_refl)
      as (r' & Hr' & Hw & _).
    exists r'. split; [exact Hr'|exact Hw].
Defined.
